(** * easy-hr: response normalisation, match display and upload tracking

    A shallow embedding of the front-end logic of the easy-hr repository:

    - [ResultCard.tsx]: [parseLLMResponse] with its three grammars
      ([parseIndentedFormat], [parseCandidateSection], [parseFallbackFormat])
      and the match percentage shown by the [ResultCard] component;
    - [use-file-upload.ts]: the intake validation of [processFiles], and
      [removeFile] and [clearFiles];
    - [UploadResume.tsx]: the per-item upload state handled by [handleUpload],
      [onFilesChange], [retryUpload] and [removeUploadFile];
    - [ChatView.tsx]: the choice between cards and plain text for an
      assistant message, the one place where [parseLLMResponse] is called.

    Strings.  A JavaScript string is a sequence of UTF-16 code units.  The
    embedding uses [string], i.e. sequences of 8-bit characters, read as the
    code units below 256 (Latin-1).  On those the character tests used by the
    source ([\s], [\d], [.], [trim], [toLowerCase]) are modelled exactly; texts
    with code units above 255 are outside the model.

    Numbers.  A JavaScript number is a binary64 floating-point number.  The
    embedding takes a finite one as the rational it stands for and rounds
    the result of each operation to the nearest binary64 number
    ([Binary64]); on sample inputs the model is compared with the floats of
    the machine. *)

From Stdlib Require Import String Ascii List Bool Arith ZArith.
From Stdlib Require Import QArith Qround Qabs Qpower.
From Stdlib Require Import Lia Lqa.
From Stdlib Require Import PrimFloat SpecFloat FloatOps.
Import ListNotations.
Close Scope Q_scope.
Open Scope string_scope.

(* ------------------------------------------------------------------------- *)
(** * JavaScript string primitives used by the source *)
(* ------------------------------------------------------------------------- *)

Module JS.

Definition in_range (lo hi c : ascii) : bool :=
  ((lo <=? c) && (c <=? hi))%char.

(** WhiteSpace and LineTerminator code units below 256: TAB, LF, VT, FF, CR,
    SP and NBSP.  This is the set stripped by [trim] and matched by [\s]. *)
Definition is_white_space (c : ascii) : bool :=
  match c with
  | "009" | "010" | "011" | "012" | "013" | " " | "160" => true
  | _ => false
  end%char.

(** Line terminators below 256, the characters [.] does not match. *)
Definition is_line_terminator (c : ascii) : bool :=
  match c with
  | "010" | "013" => true
  | _ => false
  end%char.

Definition is_digit (c : ascii) : bool := in_range "0" "9" c.

(** A string is truthy when it is not empty. *)
Definition truthy (s : string) : bool := negb (s =? "").

Fixpoint trimStart (s : string) : string :=
  match s with
  | String c s' => if is_white_space c then trimStart s' else s
  | EmptyString => EmptyString
  end.

Fixpoint trimEnd (s : string) : string :=
  match s with
  | String c s' =>
      let t := trimEnd s' in
      if is_white_space c && (t =? "") then "" else String c t
  | EmptyString => EmptyString
  end.

(** [String.prototype.trim] *)
Definition trim (s : string) : string := trimEnd (trimStart s).

(** [String.prototype.startsWith] *)
Definition startsWith (p s : string) : bool := String.prefix p s.

(** [String.prototype.includes] *)
Fixpoint includes (sub s : string) : bool :=
  if String.prefix sub s then true
  else match s with
       | String _ s' => includes sub s'
       | EmptyString => false
       end.

(** [String.prototype.endsWith] *)
Definition endsWith (suf s : string) : bool :=
  let n := String.length s in
  let m := String.length suf in
  (m <=? n)%nat && (substring (n - m) m s =? suf).

(** [s.slice(0, -k)] *)
Definition dropEnd (k : nat) (s : string) : string :=
  substring 0 (String.length s - k) s.

(** [s.split(sep)] for a separator of one character; the result is never
    empty ([("").split(",")] is [[""]]). *)
Fixpoint split (sep : ascii) (s : string) : list string :=
  match s with
  | EmptyString => [""]
  | String c s' =>
      if (c =? sep)%char then "" :: split sep s'
      else match split sep s' with
           | h :: t => String c h :: t
           | [] => [String c ""]
           end
  end.

(** [Array.prototype.join] *)
Definition join (sep : string) (l : list string) : string :=
  String.concat sep l.

(** [arr.pop()] on a non-empty array: its last element. *)
Definition pop (l : list string) : string := last l "".

Definition lower (c : ascii) : ascii :=
  if in_range "A" "Z" c
     || (in_range "192" "222" c && negb (c =? "215")%char)
  then ascii_of_nat (nat_of_ascii c + 32) else c.

(** [String.prototype.toLowerCase] *)
Fixpoint toLowerCase (s : string) : string :=
  match s with
  | String c s' => String (lower c) (toLowerCase s')
  | EmptyString => EmptyString
  end.

End JS.

(* ------------------------------------------------------------------------- *)
(** * Regular expressions: the backtracking matcher of ECMAScript

    The patterns of [ResultCard.tsx] are written as terms of [regex] and run
    by [rmatch], which follows the matcher/continuation semantics of the
    language specification: a matcher takes the rest of the input, the capture
    list and a continuation, and alternatives are tried in order. *)
(* ------------------------------------------------------------------------- *)

Module Regex.

(** Members of a bracket expression. *)
Inductive cls : Type :=
| Ch (c : ascii)              (* a literal character *)
| Rng (lo hi : ascii)         (* lo-hi *)
| Space                       (* \s *)
| Digit.                      (* \d *)

Definition cls_mem (k : cls) (c : ascii) : bool :=
  match k with
  | Ch x => (c =? x)%char
  | Rng lo hi => JS.in_range lo hi c
  | Space => JS.is_white_space c
  | Digit => JS.is_digit c
  end.

(** Terms matching one character. *)
Inductive atom : Type :=
| Dot                         (* .      *)
| OneOf (l : list cls)        (* [...]  *)
| NoneOf (l : list cls).      (* [^...] *)

Definition atom_mem (a : atom) (c : ascii) : bool :=
  match a with
  | Dot => negb (JS.is_line_terminator c)
  | OneOf l => existsb (fun k => cls_mem k c) l
  | NoneOf l => negb (existsb (fun k => cls_mem k c) l)
  end.

Inductive regex : Type :=
| Empty                               (* the empty pattern *)
| Atom (a : atom)
| Seq (r1 r2 : regex)                 (* r1r2 *)
| Alt (r1 r2 : regex)                 (* r1|r2 *)
| Star (greedy : bool) (r : regex)    (* r* and r*? *)
| Group (n : nat) (r : regex)         (* the n-th capturing group *)
| Look (positive : bool) (r : regex)  (* (?=r) and (?!r) *)
| Bol.                                (* ^ without the m flag *)

(** Pattern characters and derived quantifiers. *)
Definition Chr (c : ascii) : regex := Atom (OneOf [Ch c]).

Fixpoint Lit (s : string) : regex :=
  match s with
  | String c s' => Seq (Chr c) (Lit s')
  | EmptyString => Empty
  end.

Fixpoint cat (l : list regex) : regex :=
  match l with
  | [] => Empty
  | [r] => r
  | r :: l' => Seq r (cat l')
  end.

Definition Plus (r : regex) : regex := Seq r (Star true r).     (* r+ *)
Definition Opt (r : regex) : regex := Alt r Empty.              (* r? *)
Fixpoint AtLeast (n : nat) (r : regex) : regex :=               (* r{n,} *)
  match n with
  | O => Star true r
  | S n' => Seq r (AtLeast n' r)
  end.

Definition captures := list (nat * string).

Fixpoint get (n : nat) (c : captures) : option string :=
  match c with
  | [] => None
  | (i, v) :: c' => if (i =? n)%nat then Some v else get n c'
  end.

Definition mstate : Type := string * captures.
Definition cont : Type := string -> captures -> option mstate.
Definition matcher : Type := string -> captures -> cont -> option mstate.

(** The text consumed between the input rest [s] and the later rest [s1]. *)
Definition consumed (s s1 : string) : string :=
  substring 0 (String.length s - String.length s1) s.

(** RepeatMatcher for [min = 0], [max = infinity].  An iteration that
    consumes nothing is rejected, as in the language specification, so each
    iteration shortens the rest of the input and [n], started at the length
    of that rest, counts the iterations still possible
    ([rmatch_star_fuel]).  No pattern of the source has a group under a
    quantifier, so the reset of inner captures between iterations is not
    modelled. *)
Fixpoint star_loop (m : matcher) (greedy : bool) (k : cont)
         (n : nat) (s : string) (c : captures) : option mstate :=
  let iter :=
    match n with
    | O => None
    | S n' =>
        m s c (fun s1 c1 =>
                 if (String.length s1 <? String.length s)%nat
                 then star_loop m greedy k n' s1 c1 else None)
    end in
  if greedy
  then match iter with Some x => Some x | None => k s c end
  else match k s c with Some x => Some x | None => iter end.

(** [total] is the length of the whole subject string, used by [^]. *)
Fixpoint rmatch (total : nat) (r : regex) (s : string) (c : captures)
         (k : cont) {struct r} : option mstate :=
  match r with
  | Empty => k s c
  | Atom a =>
      match s with
      | String x s' => if atom_mem a x then k s' c else None
      | EmptyString => None
      end
  | Seq r1 r2 =>
      rmatch total r1 s c (fun s1 c1 => rmatch total r2 s1 c1 k)
  | Alt r1 r2 =>
      match rmatch total r1 s c k with
      | Some x => Some x
      | None => rmatch total r2 s c k
      end
  | Star greedy r1 =>
      star_loop (rmatch total r1) greedy k (String.length s) s c
  | Group n r1 =>
      rmatch total r1 s c (fun s1 c1 => k s1 ((n, consumed s s1) :: c1))
  | Look positive r1 =>
      match rmatch total r1 s c (fun s1 c1 => Some (s1, c1)) with
      | Some (_, c1) => if positive then k s c1 else None
      | None => if positive then None else k s c
      end
  | Bol => if (String.length s =? total)%nat then k s c else None
  end.

Definition accept : cont := fun s c => Some (s, c).

(** A matcher answers only through its continuation, which it calls on a
    rest of the input that is not longer. *)
Definition forward (m : matcher) : Prop :=
  forall s c k res,
    m s c k = Some res ->
    exists s1 c1, k s1 c1 = Some res /\ String.length s1 <= String.length s.

(** A matcher does not tell apart continuations that agree everywhere. *)
Definition extensional (m : matcher) : Prop :=
  forall s c k1 k2,
    (forall s1 c1, k1 s1 c1 = k2 s1 c1) -> m s c k1 = m s c k2.

(** The array returned by a successful match: its [index], the matched text
    [m[0]] and the captures [m[1]], ... *)
Record MatchResult : Type := {
  index : nat;
  matched : string;
  groups : captures
}.

(** [m[n]]; every group of the patterns below takes part in each successful
    match, so the default is never read. *)
Definition group (n : nat) (m : MatchResult) : string :=
  match get n (groups m) with
  | Some v => v
  | None => ""
  end.

(** RegExpBuiltinExec without the g and y flags: try each start index from
    [idx] on, left to right. *)
Fixpoint exec_from (total : nat) (r : regex) (s : string) (idx : nat)
  : option MatchResult :=
  match rmatch total r s [] accept with
  | Some (s1, c1) =>
      Some {| index := idx; matched := consumed s s1; groups := c1 |}
  | None =>
      match s with
      | String _ s' => exec_from total r s' (S idx)
      | EmptyString => None
      end
  end.

(** [s.match(r)] for a pattern without the g flag. *)
Definition exec (r : regex) (s : string) : option MatchResult :=
  exec_from (String.length s) r s 0.

(** [s.replace(r, repl)] for a pattern without the g flag and a replacement
    text without [$]. *)
Definition replace (r : regex) (repl : string) (s : string) : string :=
  match exec r s with
  | None => s
  | Some m =>
      let stop := index m + String.length (matched m) in
      substring 0 (index m) s ++ repl
        ++ substring stop (String.length s - stop) s
  end.

(** [s.split(/(?=r)/)]: the splitter matches the empty string wherever [r]
    matches ahead, so the split algorithm of the language cuts [s] before
    every index [q] with [0 < q < length s] at which [r] matches; index 0 is
    skipped because the match there would end at the start of the current
    piece. *)
Definition ahead (total : nat) (r : regex) (s : string) : bool :=
  match rmatch total (Look true r) s [] accept with
  | Some _ => true
  | None => false
  end.

Fixpoint split_tail (total : nat) (r : regex) (s : string) : list string :=
  match s with
  | EmptyString => [""]
  | String x s' =>
      match split_tail total r s' with
      | h :: t =>
          if ahead total r s' && negb (s' =? "")
          then String x "" :: h :: t
          else String x h :: t
      | [] => [String x ""]
      end
  end.

Definition split_lookahead (r : regex) (s : string) : list string :=
  split_tail (String.length s) r s.

End Regex.

(* ------------------------------------------------------------------------- *)
(** * ResultCard.tsx: the tiered response parser

    Each pattern of the source is quoted above its term with blanks between
    its tokens (the blanks are not part of the pattern). *)
(* ------------------------------------------------------------------------- *)

Module ResultCard.
Import Regex.

(** The object built by the three parse functions. *)
Record CandidateData : Type := {
  name : string;
  email : string;
  phone : string;
  cgpa : string;
  percentage : string;
  education : string;
  experience : string;
  skills : list string;
  additionalInfo : string
}.

Definition nl : ascii := "010".
Definition upper : cls := Rng "A" "Z".
Definition space : regex := Atom (OneOf [Space]).
Definition digit : regex := Atom (OneOf [Digit]).
Definition not_nl : regex := Atom (NoneOf [Ch nl]).
Definition any : regex := Atom Dot.

(** Pattern:  \*\* ( [A-Z] [A-Z\s]+ ) \*\*  *)
Definition re_name : regex :=
  cat [Lit "**";
       Group 1 (cat [Atom (OneOf [upper]); Plus (Atom (OneOf [upper; Space]))]);
       Lit "**"].

(** Pattern:  \*\*Email\*\*: \s* ( [^\n]+ )  *)
Definition re_email : regex :=
  cat [Lit "**Email**:"; Star true space; Group 1 (Plus not_nl)].

(** Pattern:  \*\*Phone\*\*: \s* ( [^\n]+ )  *)
Definition re_phone : regex :=
  cat [Lit "**Phone**:"; Star true space; Group 1 (Plus not_nl)].

(** Pattern:  CGPA [^\d]* ( \d+ \.? \d* )  *)
Definition re_cgpa : regex :=
  cat [Lit "CGPA"; Star true (Atom (NoneOf [Digit]));
       Group 1 (cat [Plus digit; Opt (Chr "."); Star true digit])].

(** Pattern:  ( \d+ ) %  *)
Definition re_percentage : regex :=
  cat [Group 1 (Plus digit); Chr "%"].

(** Pattern:  \*\*Skills\*\* [:\s]* ( [^\n]+ )  *)
Definition re_skills : regex :=
  cat [Lit "**Skills**"; Star true (Atom (OneOf [Ch ":"; Space]));
       Group 1 (Plus not_nl)].

(** Pattern:  \*\* .*? Education .*? \*\* [:\s]* ( [^\n]+ (?: \n (?! \*\*[A-Z] ) .* )* )  *)
Definition re_education_section : regex :=
  cat [Lit "**"; Star false any; Lit "Education"; Star false any; Lit "**";
       Star true (Atom (OneOf [Ch ":"; Space]));
       Group 1
         (cat [Plus not_nl;
               Star true
                 (cat [Chr nl;
                       Look false (cat [Lit "**"; Atom (OneOf [upper])]);
                       Star true any])])].

(** Pattern:  \*\* .*? Experience .*? \*\* [:\s]* ( [^\n]+ (?: \n (?! \*\*[A-Z] | \*\*Skills ) .* )* )  *)
Definition re_experience_section : regex :=
  cat [Lit "**"; Star false any; Lit "Experience"; Star false any; Lit "**";
       Star true (Atom (OneOf [Ch ":"; Space]));
       Group 1
         (cat [Plus not_nl;
               Star true
                 (cat [Chr nl;
                       Look false
                         (Alt (cat [Lit "**"; Atom (OneOf [upper])])
                              (Lit "**Skills"));
                       Star true any])])].

(** Pattern:  \*\* .*? Education .*? \*\* .*? ( [^\n]+ (?: \n (?! \*\* ) .* )* )  *)
Definition re_education_indented : regex :=
  cat [Lit "**"; Star false any; Lit "Education"; Star false any; Lit "**";
       Star false any;
       Group 1
         (cat [Plus not_nl;
               Star true (cat [Chr nl; Look false (Lit "**"); Star true any])])].

(** Pattern:  \*\* .*? Experience .*? \*\* .*? ( [^\n]+ (?: \n (?! \*\* | This candidate ) .* )* )  *)
Definition re_experience_indented : regex :=
  cat [Lit "**"; Star false any; Lit "Experience"; Star false any; Lit "**";
       Star false any;
       Group 1
         (cat [Plus not_nl;
               Star true
                 (cat [Chr nl;
                       Look false (Alt (Lit "**") (Lit "This candidate"));
                       Star true any])])].

(** Pattern:  This candidate has [^.]* \.  *)
Definition re_additional : regex :=
  cat [Lit "This candidate has"; Star true (Atom (NoneOf [Ch "."])); Chr "."].

(** Pattern:  ^ \s* - \s*  *)
Definition re_bullet : regex :=
  cat [Bol; Star true space; Chr "-"; Star true space].

(** Pattern:  ( [A-Z] [A-Z\s]{2,} )  *)
Definition re_fallback_name : regex :=
  Group 1 (cat [Atom (OneOf [upper]); AtLeast 2 (Atom (OneOf [upper; Space]))]).

(** Pattern:  ( [a-zA-Z0-9._%+-]+ @ [a-zA-Z0-9.-]+ \. [a-zA-Z]{2,} )  *)
Definition re_fallback_email : regex :=
  Group 1
    (cat [Plus (Atom (OneOf [Rng "a" "z"; Rng "A" "Z"; Rng "0" "9";
                             Ch "."; Ch "_"; Ch "%"; Ch "+"; Ch "-"]));
          Chr "@";
          Plus (Atom (OneOf [Rng "a" "z"; Rng "A" "Z"; Rng "0" "9";
                             Ch "."; Ch "-"]));
          Chr ".";
          AtLeast 2 (Atom (OneOf [Rng "a" "z"; Rng "A" "Z"]))]).

(** Pattern:  Skills [:\s]* ( [^\n.]+ )  *)
Definition re_fallback_skills : regex :=
  cat [Lit "Skills"; Star true (Atom (OneOf [Ch ":"; Space]));
       Group 1 (Plus (Atom (NoneOf [Ch nl; Ch "."])))].

(** The pattern under the lookahead of the splitter:
    (?= \*\* [A-Z] [A-Z\s]+ \*\* )  *)
Definition re_header : regex :=
  cat [Lit "**"; Atom (OneOf [upper]); Plus (Atom (OneOf [upper; Space]));
       Lit "**"].

(** [const m = text.match(r); if (m) field = f(m)], the field keeping its
    initial value [init] otherwise. *)
Definition extract (r : regex) (f : MatchResult -> string) (init text : string)
  : string :=
  match exec r text with
  | Some m => f m
  | None => init
  end.

(** [m[1].split(",").map((s) => s.trim()).filter((s) => s)] *)
Definition skill_list (m1 : string) : list string :=
  filter JS.truthy (map JS.trim (JS.split "," m1)).

Definition extract_skills (r : regex) (text : string) : list string :=
  match exec r text with
  | Some m => skill_list (group 1 m)
  | None => []
  end.

Definition parseCandidateSection (section : string) : CandidateData :=
  {| name := extract re_name (fun m => JS.trim (group 1 m)) "" section;
     email := extract re_email (fun m => JS.trim (group 1 m)) "" section;
     phone := extract re_phone (fun m => JS.trim (group 1 m)) "" section;
     cgpa := extract re_cgpa (group 1) "" section;
     percentage := extract re_percentage (fun m => group 1 m ++ "%") "" section;
     education :=
       extract re_education_section (fun m => JS.trim (group 1 m)) "" section;
     experience :=
       extract re_experience_section (fun m => JS.trim (group 1 m)) "" section;
     skills := extract_skills re_skills section;
     additionalInfo :=
       JS.trim
         (JS.join " "
            (filter (fun line => JS.truthy (JS.trim line)
                                 && negb (JS.includes "**" line))
                    (JS.split nl section))) |}.

Definition parseIndentedFormat (response : string) : CandidateData :=
  {| name := extract re_name (fun m => JS.trim (group 1 m)) "" response;
     email := extract re_email (fun m => JS.trim (group 1 m)) "" response;
     phone := extract re_phone (fun m => JS.trim (group 1 m)) "" response;
     cgpa := extract re_cgpa (group 1) "" response;
     percentage := extract re_percentage (fun m => group 1 m ++ "%") "" response;
     education :=
       extract re_education_indented
         (fun m => replace re_bullet "" (JS.trim (group 1 m))) "" response;
     experience :=
       extract re_experience_indented
         (fun m => replace re_bullet "" (JS.trim (group 1 m))) "" response;
     skills := extract_skills re_skills response;
     additionalInfo := extract re_additional matched "" response |}.

Definition parseFallbackFormat (response : string) : CandidateData :=
  {| name :=
       extract re_fallback_name (fun m => JS.trim (group 1 m)) "Candidate"
         response;
     email := extract re_fallback_email (group 1) "" response;
     phone := "";
     cgpa := "";
     percentage := "";
     education := "";
     experience := "";
     skills := extract_skills re_fallback_skills response;
     additionalInfo := response |}.

(** The text begins with one of the letters A to Z. *)
Definition starts_upper (v : string) : Prop :=
  exists x rest, v = String x rest /\ JS.in_range "A" "Z" x = true.

(** [if (candidate.name) candidates.push(candidate)] *)
Definition push_named (candidate : CandidateData) : list CandidateData :=
  if JS.truthy (name candidate) then [candidate] else [].

(** The sections of the second grammar. *)
Definition sections (response : string) : list string :=
  split_lookahead re_header response.

Definition parseLLMResponse (response : string) : list CandidateData :=
  if JS.includes "- **" response && JS.includes "**:" response then
    push_named (parseIndentedFormat response)
  else if JS.includes "**" response && JS.includes "**" response then
    flat_map
      (fun section =>
         if JS.truthy (JS.trim section)
         then push_named (parseCandidateSection section)
         else [])
      (sections response)
  else
    push_named (parseFallbackFormat response).

End ResultCard.

(* ------------------------------------------------------------------------- *)
(** * The structural cues in the words of the specification

    The specification selects the grammar by two cues: "a bulleted bold
    header followed by a colon elsewhere in the same blob" for the first
    grammar and "at least two bold-emphasis spans" for the second.
    [parseLLMResponse] tests the first cue by the two [includes] calls of its
    first branch, and in its second branch it tests that the text contains
    the bold marker, twice over.  The definitions of this module follow the
    words of the specification, not the source; they serve to state the
    claim about the texts without a cue as it is written. *)
(* ------------------------------------------------------------------------- *)

Module SpecCues.





End SpecCues.

(* ------------------------------------------------------------------------- *)
(** * JavaScript numbers: binary64 arithmetic

    A JavaScript number is a binary64 floating-point number, and [+], [*]
    and [/] return the exact result rounded to the nearest binary64 number,
    the one with an even significand when two are equally near.  A finite
    binary64 number is a rational [m * 2^e] with [|m| < 2^53] and
    [e >= -1074]; the embedding takes it as that rational and writes the
    rounding out.  Infinities, NaN and the sign of zero are left out: the
    computation embedded below starts from a finite distance [d >= 0], and
    then [1 + d] is at least 1 and no more than the largest binary64 number,
    the quotient is at most 1 and the product at most 100, so no operation
    overflows or divides by zero. *)
(* ------------------------------------------------------------------------- *)

Module Binary64.
Local Open Scope Q_scope.

Definition pow2 (e : Z) : Q := 2 ^ e.

(** The integer [e] with [2^e <= q < 2^(e+1)], for [q > 0]. *)
Definition ilog2 (q : Q) : Z :=
  let k := (Z.log2 (Qnum q) - Z.log2 (Zpos (Qden q)))%Z in
  if Qle_bool (pow2 k) q then k else (k - 1)%Z.

(** The nearest integer, the even one of two that are equally near. *)
Definition rne (x : Q) : Z :=
  let f := Qfloor x in
  match Qcompare (x - inject_Z f) (1 # 2) with
  | Lt => f
  | Gt => (f + 1)%Z
  | Eq => if Z.even f then f else (f + 1)%Z
  end.

(** The exponent of the unit in the last place near [q > 0]: 53 significant
    bits, and never below the exponent [-1074] of the subnormal numbers. *)
Definition ulp_exp (q : Q) : Z := Z.max (ilog2 q - 52) (-1074).

(** The binary64 number nearest to [q > 0]. *)
Definition round_pos (q : Q) : Q :=
  inject_Z (rne (q / pow2 (ulp_exp q))) * pow2 (ulp_exp q).

Definition round64 (q : Q) : Q :=
  match Qcompare q 0 with
  | Gt => round_pos q
  | Eq => 0
  | Lt => - round_pos (- q)
  end.

(** The largest finite binary64 number, [Number.MAX_VALUE]. *)
Definition max_double : Q := inject_Z ((2 ^ 53 - 1) * 2 ^ 971).

(** The rationals that are finite binary64 numbers. *)
Definition finite64 (q : Q) : Prop := round64 q == q /\ Qabs q <= max_double.

(** [x + y], [x / y] and [x * y] on binary64 numbers. *)
Definition add (x y : Q) : Q := round64 (x + y).
Definition div (x y : Q) : Q := round64 (x / y).
Definition mul (x y : Q) : Q := round64 (x * y).

End Binary64.

(* ------------------------------------------------------------------------- *)
(** * ResultCard.tsx: the match percentage of a search result

    The component shows [((1 / (1 + candidate.distance)) * 100).toFixed(0)]:
    three binary64 operations, then the rounding to an integer done by
    [toFixed(0)], which reads the exact value of its argument. *)
(* ------------------------------------------------------------------------- *)

Module MatchDisplay.

(** [x.toFixed(0)]: the integer nearest to [x], the one of larger magnitude
    when two are equally near; the result is the integer whose digits are
    shown. *)
Definition toFixed0 (x : Q) : Z :=
  if Qle_bool 0 x then Qfloor (x + (1 # 2))%Q
  else (- Qfloor (- x + (1 # 2))%Q)%Z.

Definition match_percentage (distance : Q) : Z :=
  toFixed0 (Binary64.mul (Binary64.div 1 (Binary64.add 1 distance)) 100).

(** The same computation on the binary64 numbers of the machine, for
    checking the model on single inputs: [share] is
    [(1 / (1 + distance)) * 100] as the processor computes it, and
    [toFixed0_binary64] reads the exact value [m * 2^e] of the result and
    rounds it as [toFixed(0)] does ([None] for infinities and NaN, which
    print no digits). *)
Definition share (distance : float) : float :=
  ((1 / (1 + distance)) * 100)%float.

Definition toFixed0_binary64 (x : float) : option Z :=
  match Prim2SF x with
  | S754_zero _ => Some 0%Z
  | S754_finite negative m e =>
      let n := (if 0 <=? e then Z.pos m * 2 ^ e
                else (2 * Z.pos m + 2 ^ (- e)) / 2 ^ (- e + 1))%Z in
      Some (if negative then (- n)%Z else n)
  | S754_infinity _ => None
  | S754_nan => None
  end.

Definition match_percentage_binary64 (distance : float) : option Z :=
  toFixed0_binary64 (share distance).

(** The rational that a finite machine number stands for. *)
Definition number (x : float) : Q :=
  match Prim2SF x with
  | S754_finite negative m e =>
      let v := (inject_Z (Z.pos m) * Binary64.pow2 e)%Q in
      if negative then (- v)%Q else v
  | _ => 0%Q
  end.

(** Whether an operation of the machine and its model agree on two machine
    numbers, when the machine gives a finite result. *)
Definition agree (machine : float -> float -> float) (model : Q -> Q -> Q)
           (x y : float) : bool :=
  match Prim2SF (machine x y) with
  | S754_infinity _ | S754_nan => true
  | _ => Qeq_bool (number (machine x y)) (model (number x) (number y))
  end.

(** Distances on which the model is compared with the machine: small
    integers, numbers next to the places where the percentage changes, the
    least and the greatest positive numbers. *)
Definition samples : list float :=
  [0; 1; 2; 4; 7; 1000; 0.5; 3; 12.5; 198.5; 199; 1e22;
   0x1.0624dd2f1a9fcp-10; 0x1.999999999999ap-4; 0x1.554c985f06f69p-2;
   0x1.8e00000000001p+7; 0x1.c000000000001p+2; 0x1.06aaaaaaaaaabp+6;
   0x1.49539e3b2d067p-8; 0x1.49539e3b2d08p-8; 0x1.49539e3b2d081p-8;
   0x1p-1074; 0x1p-1022; 0x1p-53; 0x1.fffffffffffffp-54;
   0x1.e240c9fbe76c9p+16; 0x1.7e43c8800759cp+996; 0x1p+1023;
   0x1.fffffffffffffp+1023]%float.

(** Operands on which each operation is compared with the machine. *)
Definition operands : list float :=
  [0; 1; 3; 100; 0x1.999999999999ap-4; 0x1.c000000000001p+2;
   0x1.49539e3b2d081p-8; 0x1p-1074; 0x1.8p-1030; 0x1p-1022; 0x1p-53;
   0x1.fffffffffffffp-54; 0x1.7e43c8800759cp+996;
   0x1.fffffffffffffp+1023]%float.

End MatchDisplay.

(* ------------------------------------------------------------------------- *)
(** * use-file-upload.ts: intake validation *)
(* ------------------------------------------------------------------------- *)

Module UseFileUpload.

(** What the hook reads of a browser [File]; [instanceofFile] is the result
    of [file instanceof File]. *)
Record File : Type := {
  file_name : string;
  file_size : Z;
  file_type : string;
  instanceofFile : bool
}.

(** [generateId] builds an id from the clock and a random number; the model
    draws ids from a counter, so two generated ids never coincide. *)
Definition ID : Type := nat.

(** The [preview] URL is only handed to the browser and is left out. *)
Record FileWithPreview : Type := {
  id : ID;
  file : File
}.

Record UseFileUploadOptions : Type := {
  maxFiles : nat;
  maxSize : Z;
  accept : string;
  multiple : bool
}.

(** The three messages pushed on [newErrors], with the values that fill
    their templates. *)
Inductive Message : Type :=
| TooManyFiles (max : nat)
    (* You can only upload a maximum of ${maxFiles} files. *)
| TooLarge (name : string) (max : Z)
    (* File "${file.name}" exceeds the maximum size of ${formatBytes(maxSize)}. *)
| BadType (name : string) (accepted : string).
    (* File type for "${file.name}" is not supported. Accepted types: ${accept} *)

(** The [acceptedTypes.some(...)] test. *)
Definition type_accepted (accept : string) (f : File) : bool :=
  let acceptedTypes := map JS.trim (JS.split "," accept) in
  let fileType := file_type f in
  let fileExtension :=
    "." ++ JS.toLowerCase (JS.pop (JS.split "." (file_name f))) in
  existsb
    (fun type =>
       if JS.startsWith "." type then fileExtension =? type
       else if JS.endsWith "/*" type
            then JS.startsWith (JS.dropEnd 2 type) fileType
            else fileType =? type)
    acceptedTypes.

(** The three rules applied to one file, in the order of the loop body;
    [count] is [files.length + newFiles.length]. *)
Definition check (o : UseFileUploadOptions) (count : nat) (f : File)
  : option Message :=
  if (maxFiles o <=? count)%nat then Some (TooManyFiles (maxFiles o))
  else if (maxSize o <? file_size f)%Z
       then Some (TooLarge (file_name f) (maxSize o))
  else if negb (accept o =? "*") && negb (type_accepted (accept o) f)
       then Some (BadType (file_name f) (accept o))
  else None.

(** A file that breaks the size rule or the type rule. *)
Definition violates (o : UseFileUploadOptions) (f : File) : bool :=
  (maxSize o <? file_size f)%Z
  || (negb (accept o =? "*") && negb (type_accepted (accept o) f)).

Record HookState : Type := {
  files : list FileWithPreview;
  errors : list Message;
  next_id : ID
}.

Definition Scan : Type := (list Message * list FileWithPreview * ID)%type.

(** One turn of [Array.from(incomingFiles).forEach]. *)
Definition scan_step (o : UseFileUploadOptions) (current : list FileWithPreview)
           (acc : Scan) (f : File) : Scan :=
  let '(newErrors, newFiles, n) := acc in
  match check o (length current + length newFiles) f with
  | Some e => ((newErrors ++ [e])%list, newFiles, n)
  | None => (newErrors, (newFiles ++ [{| id := n; file := f |}])%list, S n)
  end.

Definition scan (o : UseFileUploadOptions) (st : HookState)
           (incoming : list File) : Scan :=
  fold_left (scan_step o (files st)) incoming ([], [], next_id st).

(** [processFiles]: the new state of the hook and, when [onFilesChange] is
    called, its argument.  [None] as input is the [null] file list. *)
Definition processFiles (o : UseFileUploadOptions) (st : HookState)
           (incomingFiles : option (list File))
  : HookState * option (list FileWithPreview) :=
  match incomingFiles with
  | None => (st, None)
  | Some incoming =>
      let '(newErrors, newFiles, n) := scan o st incoming in
      if (0 <? length newErrors)%nat then
        ({| files := files st; errors := newErrors; next_id := n |}, None)
      else
        let updatedFiles :=
          if multiple o then (files st ++ newFiles)%list else newFiles in
        ({| files := updatedFiles; errors := newErrors; next_id := n |},
         Some updatedFiles)
  end.

End UseFileUpload.

(* ------------------------------------------------------------------------- *)
(** * UploadResume.tsx: the upload items and their status *)
(* ------------------------------------------------------------------------- *)

Module UploadResume.
Import UseFileUpload.

Inductive Status : Type := Pending | Uploading | Completed | Error.

Record FileUploadItem : Type := {
  item_id : ID;
  item_file : File;
  status : Status;
  error : option string
}.

(** One entry of [response.data.results]. *)
Record UploadResult : Type := {
  result_status : string;
  filename : string;
  detail : option string
}.

(** The calls made on the [onSuccess] and [onError] props (both are passed
    by the sidebar); [onError] is recorded with the message of its error. *)
Inductive Notification : Type :=
| onSuccess
| onError (message : string).

(** What [await api.post] does: it yields the result list or throws. *)
Inductive Thrown : Type :=
| ErrorObject (message : string)
| OtherValue.

Inductive Outcome : Type :=
| Resolved (results : list UploadResult)
| Rejected (err : Thrown).

(** [err instanceof Error ? err : new Error("Upload failed")], its message. *)
Definition error_message (err : Thrown) : string :=
  match err with
  | ErrorObject message => message
  | OtherValue => "Upload failed"
  end.

Definition Batch : Type := list (ID * File).

Definition includes_id (ids : list ID) (i : ID) : bool :=
  existsb (Nat.eqb i) ids.

(** The updater of lines 55-61. *)
Definition mark_uploading (fileIdsToUpload : list ID)
           (prev : list FileUploadItem) : list FileUploadItem :=
  map (fun item =>
         if includes_id fileIdsToUpload (item_id item)
         then {| item_id := item_id item; item_file := item_file item;
                 status := Uploading; error := None |}
         else item)
      prev.

(** The updater of lines 81-93. *)
Definition apply_results (results : list UploadResult)
           (prev : list FileUploadItem) : list FileUploadItem :=
  map (fun item =>
         match find (fun r => filename r =? file_name (item_file item))
                    results with
         | Some result =>
             {| item_id := item_id item; item_file := item_file item;
                status := if result_status result =? "ok"
                          then Completed else Error;
                error := detail result |}
         | None => item
         end)
      prev.

(** The updater of lines 109-115. *)
Definition mark_error (fileIdsToUpload : list ID) (message : string)
           (prev : list FileUploadItem) : list FileUploadItem :=
  map (fun item =>
         if includes_id fileIdsToUpload (item_id item)
         then {| item_id := item_id item; item_file := item_file item;
                 status := Error; error := Some message |}
         else item)
      prev.

(** Lines 95-106: the callbacks after a reply. *)
Definition notify (results : list UploadResult) : list Notification :=
  ((if existsb (fun r => result_status r =? "ok") results
   then [onSuccess] else [])
  ++
  (if forallb (fun r => result_status r =? "error") results
   then [onError "All uploads failed."]
   else if existsb (fun r => result_status r =? "error") results
        then [onError
                ("Some files failed to upload: "
                 ++ JS.join ", "
                      (map filename
                           (filter (fun r => result_status r =? "error")
                                   results)))]
        else []))%list.

(** [handleUpload] up to its [await]. *)
Definition handleUpload_begin (filesToUpload : Batch)
           (prev : list FileUploadItem) : list FileUploadItem :=
  match filesToUpload with
  | [] => prev
  | _ => mark_uploading (map fst filesToUpload) prev
  end.

(** [handleUpload] from its [await] on; [prev] is the item list at that
    time. *)
Definition handleUpload_settle (filesToUpload : Batch) (out : Outcome)
           (prev : list FileUploadItem)
  : list FileUploadItem * list Notification :=
  match filesToUpload with
  | [] => (prev, [])
  | _ =>
      match out with
      | Resolved results => (apply_results results prev, notify results)
      | Rejected err =>
          (mark_error (map fst filesToUpload) (error_message err) prev,
           [onError (error_message err)])
      end
  end.

(** [handleUpload] when nothing else happens during the request. *)
Definition handleUpload (filesToUpload : Batch) (out : Outcome)
           (prev : list FileUploadItem)
  : list FileUploadItem * list Notification :=
  handleUpload_settle filesToUpload out (handleUpload_begin filesToUpload prev).

(** The options passed to [useFileUpload]. *)
Definition options : UseFileUploadOptions :=
  {| maxFiles := 3; maxSize := 500 * 1024; accept := "application/pdf";
     multiple := true |}.

(** [onFilesChange]: the new items are appended and handed to
    [handleUpload]; the result is the item list after the first updater of
    [handleUpload] and the batch of the request, if one is sent. *)
Definition newUploadItems (newFiles : list FileWithPreview)
  : list FileUploadItem :=
  map (fun newFile =>
         {| item_id := id newFile; item_file := file newFile;
            status := Pending; error := None |})
      (filter (fun newFile => instanceofFile (file newFile)) newFiles).

Definition batch_of (items : list FileUploadItem) : Batch :=
  map (fun item => (item_id item, item_file item)) items.

Definition onFilesChange (newFiles : list FileWithPreview)
           (prev : list FileUploadItem)
  : list FileUploadItem * option Batch :=
  if (0 <? length newFiles)%nat then
    let filesToUpload := batch_of (newUploadItems newFiles) in
    (handleUpload_begin filesToUpload (prev ++ newUploadItems newFiles)%list,
     match filesToUpload with [] => None | _ => Some filesToUpload end)
  else (prev, None).

(** [retryUpload]: the batch handed to [handleUpload], if any. *)
Definition retryUpload (uploadFile : FileUploadItem) : option Batch :=
  if instanceofFile (item_file uploadFile)
  then Some [(item_id uploadFile, item_file uploadFile)]
  else None.

(** ** The tracker as a transition system

    The state holds the hook, the item list and the requests that are still
    awaited.  An event is one thing that can happen to the component. *)
Record Tracker : Type := {
  hook : HookState;
  uploadFiles : list FileUploadItem;
  inflight : list Batch
}.

Definition initial : Tracker :=
  {| hook := {| files := []; errors := []; next_id := 0 |};
     uploadFiles := [];
     inflight := [] |}.

Inductive Event : Type :=
| Intake (incoming : list File)
    (* files dropped or chosen; the drop area is rendered only while the
       item list is empty *)
| Reply (n : nat) (results : list UploadResult)
    (* the n-th awaited request resolves *)
| Failure (n : nat) (err : Thrown)
    (* the n-th awaited request throws *)
| Retry (i : nat).
    (* the retry button of the i-th item, rendered only in status Error *)

Fixpoint remove_nth {A : Type} (n : nat) (l : list A) : list A :=
  match n, l with
  | _, [] => []
  | O, _ :: l' => l'
  | S n', x :: l' => x :: remove_nth n' l'
  end.

Definition enqueue (b : option Batch) (l : list Batch) : list Batch :=
  match b with
  | Some batch => (l ++ [batch])%list
  | None => l
  end.

Definition settle (n : nat) (out : Outcome) (t : Tracker)
  : option (Tracker * list Notification) :=
  match nth_error (inflight t) n with
  | Some batch =>
      let '(items, calls) := handleUpload_settle batch out (uploadFiles t) in
      Some ({| hook := hook t; uploadFiles := items;
               inflight := remove_nth n (inflight t) |}, calls)
  | None => None
  end.

(** [step t e] is [None] when [e] cannot happen in [t]. *)
Definition step (t : Tracker) (e : Event)
  : option (Tracker * list Notification) :=
  match e with
  | Intake incoming =>
      match uploadFiles t with
      | [] =>
          match processFiles options (hook t) (Some incoming) with
          | (h, Some updatedFiles) =>
              let '(items, batch) := onFilesChange updatedFiles (uploadFiles t) in
              Some ({| hook := h; uploadFiles := items;
                       inflight := enqueue batch (inflight t) |}, [])
          | (h, None) =>
              Some ({| hook := h; uploadFiles := uploadFiles t;
                       inflight := inflight t |}, [])
          end
      | _ :: _ => None
      end
  | Reply n results => settle n (Resolved results) t
  | Failure n err => settle n (Rejected err) t
  | Retry i =>
      match nth_error (uploadFiles t) i with
      | Some uploadFile =>
          match status uploadFile, retryUpload uploadFile with
          | Error, Some batch =>
              Some ({| hook := hook t;
                       uploadFiles := handleUpload_begin batch (uploadFiles t);
                       inflight := (inflight t ++ [batch])%list |}, [])
          | _, _ => None
          end
      | None => None
      end
  end.

(** The states reached from [initial] by a sequence of events. *)
Fixpoint run (t : Tracker) (es : list Event) : option Tracker :=
  match es with
  | [] => Some t
  | e :: es' =>
      match step t e with
      | Some (t', _) => run t' es'
      | None => None
      end
  end.

Definition reachable (t : Tracker) : Prop :=
  exists es, run initial es = Some t.

(** The status of the item with identifier [i], if it is in the list. *)
Definition status_of (i : ID) (t : Tracker) : option Status :=
  option_map status (find (fun item => Nat.eqb (item_id item) i) (uploadFiles t)).

End UploadResume.

(* ------------------------------------------------------------------------- *)
(** * Sample inputs *)
(* ------------------------------------------------------------------------- *)

Module Examples.
Import UseFileUpload UploadResume.

Definition LF : string := String "010" "".

(** A reply of the second grammar: a preamble and two candidates. *)
Definition two_candidates : string :=
  "Matching profiles:" ++ LF
  ++ "**JOHN DOE**" ++ LF
  ++ "**Email**: john@example.com" ++ LF
  ++ "**Skills**: Java, AWS" ++ LF
  ++ "**MARY ANN**" ++ LF
  ++ "**Phone**: 555 0100" ++ LF
  ++ "scored 90% overall".

(** A reply of the first grammar. *)
Definition indented : string :=
  "- **JOHN DOE**" ++ LF
  ++ "  - **Email**: john@example.com" ++ LF
  ++ "  - **Education**:" ++ LF
  ++ "    - B.Tech, CGPA: 8.5" ++ LF
  ++ "**Skills**: Java, AWS".

Definition pdf (name : string) (size : Z) : File :=
  {| file_name := name; file_size := size; file_type := "application/pdf";
     instanceofFile := true |}.

Definition ok (name : string) : UploadResult :=
  {| result_status := "ok"; filename := name; detail := None |}.

Definition failed (name reason : string) : UploadResult :=
  {| result_status := "error"; filename := name; detail := Some reason |}.

(** Two files of the same name dropped together; the request fails, so
    both items are in status [Error]. *)
Definition namesakes_failed : list Event :=
  [Intake [pdf "cv.pdf" 1000; pdf "cv.pdf" 2000];
   Failure 0 (ErrorObject "Network Error")].

End Examples.


(* ------------------------------------------------------------------------- *)
(** * Notions used to state properties of the extracted fields *)
(* ------------------------------------------------------------------------- *)

Module Text.
Import Regex.

(** Every character of the text passes the test. *)
Fixpoint all_chars (p : ascii -> bool) (s : string) : bool :=
  match s with
  | String c s' => p c && all_chars p s'
  | EmptyString => true
  end.

Definition capital (c : ascii) : bool := JS.in_range "A" "Z" c.

Definition capital_or_space (c : ascii) : bool :=
  capital c || JS.is_white_space c.

Definition digit_or_dot (c : ascii) : bool :=
  JS.is_digit c || (c =? ".")%char.

Definition other_than (x : ascii) (c : ascii) : bool := negb (c =? x)%char.

(** The text has no white space at either end. *)
Definition trimmed (s : string) : Prop := JS.trim s = s.

(** A pattern made of character classes within [p], without groups,
    lookaheads or anchors: whatever it matches is a text of [p]. *)
Fixpoint only (p : ascii -> bool) (r : regex) : Prop :=
  match r with
  | Empty => True
  | Atom a => forall c, atom_mem a c = true -> p c = true
  | Seq r1 r2 => only p r1 /\ only p r2
  | Alt r1 r2 => only p r1 /\ only p r2
  | Star _ r1 => only p r1
  | Group _ _ => False
  | Look _ _ => False
  | Bol => False
  end.

(** The pattern has no [^]. *)
Fixpoint no_anchor (r : regex) : bool :=
  match r with
  | Empty => true
  | Atom _ => true
  | Seq r1 r2 => no_anchor r1 && no_anchor r2
  | Alt r1 r2 => no_anchor r1 && no_anchor r2
  | Star _ r1 => no_anchor r1
  | Group _ r1 => no_anchor r1
  | Look _ r1 => no_anchor r1
  | Bol => false
  end.

(** A text that is empty or begins with a character that is not white. *)
Definition clean_start (s : string) : Prop :=
  match s with
  | String x _ => JS.is_white_space x = false
  | EmptyString => True
  end.

(** A matcher that consumes a text of [p] and leaves the captures alone. *)
Definition consumes (p : ascii -> bool) (m : matcher) : Prop :=
  forall s c k res,
    m s c k = Some res ->
    exists w s1, k s1 c = Some res /\ s = w ++ s1 /\ all_chars p w = true.

Definition anything (c : ascii) : bool := true.

(** A character of [first] followed by a text of [p]. *)
Definition headed (first p : ascii -> bool) (v : string) : Prop :=
  exists x w, v = String x w /\ first x = true /\ all_chars p w = true.

(** The characters of the two parts of an address in the fallback
    pattern. *)
Definition local_char (c : ascii) : bool :=
  atom_mem (OneOf [Rng "a" "z"; Rng "A" "Z"; Rng "0" "9";
                   Ch "."; Ch "_"; Ch "%"; Ch "+"; Ch "-"]) c.

Definition domain_char (c : ascii) : bool :=
  atom_mem (OneOf [Rng "a" "z"; Rng "A" "Z"; Rng "0" "9"; Ch "."; Ch "-"]) c.

(** A text of the form local@domain. *)
Definition address (v : string) : Prop :=
  exists loc dom,
    v = loc ++ "@" ++ dom
    /\ loc <> "" /\ dom <> ""
    /\ all_chars local_char loc = true
    /\ all_chars domain_char dom = true.

Definition succeeds {A : Type} (x : option A) : bool :=
  match x with
  | Some _ => true
  | None => false
  end.

(** Two continuations that succeed on the same rests of the input, whatever
    the captures. *)
Definition same_success (k1 k2 : cont) : Prop :=
  forall s c1 c2, succeeds (k1 s c1) = succeeds (k2 s c2).

End Text.

(* ------------------------------------------------------------------------- *)
(** * ChatView.tsx: how an assistant message is shown

    [parsed] stands for the outcome of [JSON.parse(message.content)]: the
    array when the content is the JSON text of an array, nothing when parsing
    throws or gives another value. *)
(* ------------------------------------------------------------------------- *)

Module ChatView.
Import ResultCard.

Inductive Rendering (J : Type) : Type :=
| Cards (candidates : list J)
    (* one ResultCard for each element of the JSON array *)
| LegacyCards (oldCandidates : list CandidateData)
    (* one ResultCard for each record of parseLLMResponse *)
| Bubble (content : string).
    (* the text itself *)

Arguments Cards {J} candidates.
Arguments LegacyCards {J} oldCandidates.
Arguments Bubble {J} content.

Definition renderAssistant {J : Type} (parsed : option (list J))
           (content : string) : Rendering J :=
  match parsed with
  | Some candidates => Cards candidates
  | None =>
      if JS.includes "**" content
      then LegacyCards (parseLLMResponse content)
      else Bubble content
  end.

End ChatView.

(* ------------------------------------------------------------------------- *)
(** * use-file-upload.ts and UploadResume.tsx: removing files *)
(* ------------------------------------------------------------------------- *)

Module Removal.
Import UseFileUpload UploadResume.

(** [removeFile]: the new state of the hook and the argument of the call of
    [onFilesChange], which is made whether or not the id was present. *)
Definition removeFile (fileId : ID) (st : HookState)
  : HookState * list FileWithPreview :=
  let updatedFiles :=
    filter (fun f => negb (id f =? fileId)%nat) (files st) in
  ({| files := updatedFiles; errors := errors st; next_id := next_id st |},
   updatedFiles).

(** [clearFiles] *)
Definition clearFiles (st : HookState) : HookState * list FileWithPreview :=
  ({| files := []; errors := errors st; next_id := next_id st |}, []).

(** What can happen to the file set of the hook. *)
Inductive HookEvent : Type :=
| Add (incomingFiles : option (list File))   (* processFiles *)
| Remove (fileId : ID)                       (* removeFile *)
| Clear.                                     (* clearFiles *)

Definition hook_step (o : UseFileUploadOptions) (st : HookState)
           (e : HookEvent) : HookState :=
  match e with
  | Add incomingFiles => fst (processFiles o st incomingFiles)
  | Remove fileId => fst (removeFile fileId st)
  | Clear => fst (clearFiles st)
  end.

Definition hook_run (o : UseFileUploadOptions) (es : list HookEvent)
  : HookState :=
  fold_left (hook_step o) es {| files := []; errors := []; next_id := 0 |}.

(** The updater [prev.filter((f) => f.id !== id)] of [removeUploadFile]. *)
Definition drop_item (i : ID) (prev : list FileUploadItem)
  : list FileUploadItem :=
  filter (fun f => negb (item_id f =? i)%nat) prev.

(** [removeUploadFile]: the updater of [removeFile] calls [onFilesChange]
    with the files that are left, which appends an item for each of them and
    hands them to [handleUpload]; the item list is then filtered.  The
    updater of [removeFile] is taken to run once.  The updaters of the item
    list are applied in the order in which they are queued: those of
    [onFilesChange] first when the updater of [removeFile] runs at once, the
    filter first otherwise ([removeUploadFile_order] shows that both give
    the same list). *)
Definition removeUploadFile (i : ID) (t : Tracker) : Tracker :=
  let '(h, updatedFiles) := removeFile i (hook t) in
  let '(items, batch) := onFilesChange updatedFiles (uploadFiles t) in
  {| hook := h;
     uploadFiles := drop_item i items;
     inflight := enqueue batch (inflight t) |}.

(** The same with the filter applied before the updaters of
    [onFilesChange]. *)
Definition removeUploadFile_filter_first (i : ID) (t : Tracker) : Tracker :=
  let '(h, updatedFiles) := removeFile i (hook t) in
  let '(items, batch) :=
    onFilesChange updatedFiles (drop_item i (uploadFiles t)) in
  {| hook := h;
     uploadFiles := items;
     inflight := enqueue batch (inflight t) |}.

(** The items mirror the files of the hook, as they do after an intake of
    browser files. *)
Definition mirrors (t : Tracker) : Prop :=
  map item_id (uploadFiles t) = map id (files (hook t))
  /\ map item_file (uploadFiles t) = map file (files (hook t))
  /\ forallb (fun f => instanceofFile (file f)) (files (hook t)) = true.

End Removal.

(* ------------------------------------------------------------------------- *)
(** * Invariant of the tracker *)
(* ------------------------------------------------------------------------- *)

Module Invariant.
Import UseFileUpload UploadResume.

(** The entries made for the files [l] when the next identifier is [n]. *)
Fixpoint with_ids (n : ID) (l : list File) : list FileWithPreview :=
  match l with
  | [] => []
  | f :: l' => {| id := n; file := f |} :: with_ids (S n) l'
  end.

Definition hook_ok (o : UseFileUploadOptions) (h : HookState) : Prop :=
  length (files h) <= maxFiles o
  /\ NoDup (map id (files h))
  /\ forall f, In f (files h) -> id f < next_id h.

Definition tracker_ok (t : Tracker) : Prop :=
  hook_ok options (hook t)
  /\ NoDup (map item_id (uploadFiles t))
  /\ length (uploadFiles t) <= maxFiles options
  /\ (forall item, In item (uploadFiles t) -> status item <> Pending)
  /\ incl (map item_id (uploadFiles t)) (map id (files (hook t))).

End Invariant.

(* ========================================================================= *)
(** * Facts about the matcher *)
(* ========================================================================= *)

Section MatcherFacts.
Import Regex.

Lemma star_loop_forward m greedy :
  forward m -> forall n, forward (fun s c k => star_loop m greedy k n s c).
Proof.
  intros Hm n. induction n as [|n IH]; intros s c k0 res H.
  - simpl in H. destruct greedy.
    + exists s, c. split; [exact H | lia].
    + destruct (k0 s c) eqn:E; [|discriminate].
      exists s, c. split; [congruence | lia].
  - simpl in H.
    assert (Hiter :
      m s c (fun s1 c1 =>
               if (String.length s1 <? String.length s)%nat
               then star_loop m greedy k0 n s1 c1 else None) = Some res ->
      exists s1 c1, k0 s1 c1 = Some res /\ String.length s1 <= String.length s).
    { intros Hi. apply Hm in Hi. destruct Hi as (s1 & c1 & Hk & Hle).
      destruct (String.length s1 <? String.length s)%nat eqn:Hlt; [|discriminate].
      apply IH in Hk. destruct Hk as (s2 & c2 & Hk & Hle2).
      exists s2, c2. split; [exact Hk | lia]. }
    destruct greedy.
    + destruct (m s c _) eqn:E.
      * apply Hiter. congruence.
      * exists s, c. split; [exact H | lia].
    + destruct (k0 s c) eqn:E.
      * exists s, c. split; [congruence | lia].
      * apply Hiter. exact H.
Qed.

Lemma rmatch_forward total r : forward (rmatch total r).
Proof.
  induction r as [|a|r1 IH1 r2 IH2|r1 IH1 r2 IH2|g r IH|n r IH|p r IH|];
    intros s c k res H; simpl in H.
  - exists s, c. split; [exact H | lia].
  - destruct s as [|x s']; [discriminate|].
    destruct (atom_mem a x); [|discriminate].
    exists s', c. split; [exact H | simpl; lia].
  - apply IH1 in H. destruct H as (s1 & c1 & H & Hle).
    apply IH2 in H. destruct H as (s2 & c2 & H & Hle2).
    exists s2, c2. split; [exact H | lia].
  - destruct (rmatch total r1 s c k) eqn:E.
    + apply (IH1 s c k res). congruence.
    + apply (IH2 s c k res). exact H.
  - apply (star_loop_forward (rmatch total r) g IH (String.length s)) in H.
    exact H.
  - apply IH in H. destruct H as (s1 & c1 & H & Hle).
    exists s1, ((n, consumed s s1) :: c1). split; [exact H | exact Hle].
  - destruct (rmatch total r s c (fun s1 c1 => Some (s1, c1))) as [[s1 c1]|];
      destruct p; try discriminate.
    + exists s, c1. split; [exact H | lia].
    + exists s, c. split; [exact H | lia].
  - destruct (String.length s =? total)%nat; [|discriminate].
    exists s, c. split; [exact H | lia].
Qed.

Lemma star_loop_extensional m greedy :
  extensional m ->
  forall n s c k1 k2,
    (forall s1 c1, k1 s1 c1 = k2 s1 c1) ->
    star_loop m greedy k1 n s c = star_loop m greedy k2 n s c.
Proof.
  intros Hm n. induction n as [|n IH]; intros s c k1 k2 Hk; simpl.
  - rewrite Hk. reflexivity.
  - rewrite (Hm s c _ (fun s1 c1 =>
               if (String.length s1 <? String.length s)%nat
               then star_loop m greedy k2 n s1 c1 else None)).
    + rewrite Hk. reflexivity.
    + intros s1 c1.
      destruct (String.length s1 <? String.length s)%nat; [|reflexivity].
      apply IH. exact Hk.
Qed.

Lemma rmatch_extensional total r : extensional (rmatch total r).
Proof.
  induction r as [|a|r1 IH1 r2 IH2|r1 IH1 r2 IH2|g r IH|n r IH|p r IH|];
    intros s c k1 k2 Hk; simpl.
  - apply Hk.
  - destruct s as [|x s']; [reflexivity|].
    destruct (atom_mem a x); [apply Hk | reflexivity].
  - apply IH1. intros s1 c1. apply IH2. exact Hk.
  - rewrite (IH1 s c k1 k2 Hk), (IH2 s c k1 k2 Hk). reflexivity.
  - apply star_loop_extensional; assumption.
  - apply IH. intros s1 c1. apply Hk.
  - destruct (rmatch total r s c _) as [[s1 c1]|]; destruct p;
      try reflexivity; apply Hk.
  - rewrite Hk. reflexivity.
Qed.

(** The counter of [star_loop] never cuts a repetition short: every count
    from the length of the rest on gives the same answer. *)
Lemma star_loop_fuel m greedy k :
  forward m -> extensional m ->
  forall n1 n2 s c,
    String.length s <= n1 -> String.length s <= n2 ->
    star_loop m greedy k n1 s c = star_loop m greedy k n2 s c.
Proof.
  intros Hf He.
  assert (Hnone : forall s c,
    m s c (fun s1 c1 => if (String.length s1 <? String.length s)%nat
                        then None else None) = None).
  { intros s c. destruct (m s c _) eqn:E; [|reflexivity].
    apply Hf in E. destruct E as (s1 & c1 & E & _).
    destruct (String.length s1 <? String.length s)%nat; discriminate. }
  assert (Hzero : forall n s c,
    String.length s = 0 ->
    star_loop m greedy k n s c = star_loop m greedy k 0 s c).
  { intros [|n] s c Hs; [reflexivity|]. simpl.
    rewrite (He s c _ (fun s1 c1 =>
               if (String.length s1 <? String.length s)%nat then None else None)).
    - rewrite Hnone. reflexivity.
    - intros s1 c1. rewrite Hs. reflexivity. }
  induction n1 as [|n1 IH]; intros n2 s c H1 H2.
  - symmetry. apply Hzero. lia.
  - destruct n2 as [|n2]; [apply Hzero; lia|]. simpl.
    rewrite (He s c _ (fun s1 c1 =>
               if (String.length s1 <? String.length s)%nat
               then star_loop m greedy k n2 s1 c1 else None)); [reflexivity|].
    intros s1 c1.
    destruct (String.length s1 <? String.length s)%nat eqn:Hlt; [|reflexivity].
    apply Nat.ltb_lt in Hlt. apply IH; lia.
Qed.

Lemma rmatch_star_fuel total greedy r s c k n :
  String.length s <= n ->
  rmatch total (Star greedy r) s c k
  = star_loop (rmatch total r) greedy k n s c.
Proof.
  intros Hn. simpl.
  apply star_loop_fuel;
    [apply rmatch_forward | apply rmatch_extensional | lia | exact Hn].
Qed.

Lemma consumed_cons x s s1 :
  String.length s1 <= String.length s ->
  consumed (String x s) s1 = String x (consumed s s1).
Proof.
  intros H. unfold consumed. simpl String.length.
  replace (S (String.length s) - String.length s1)
    with (S (String.length s - String.length s1)) by lia.
  reflexivity.
Qed.

(** A literal leaves the captures as they are. *)
Lemma rmatch_Lit total l s c k res :
  rmatch total (Lit l) s c k = Some res ->
  exists s1, k s1 c = Some res.
Proof.
  revert s. induction l as [|x l IH]; intros s H; simpl in H.
  - exists s. exact H.
  - destruct s as [|y s']; [discriminate|].
    destruct (orb _ _); [|discriminate].
    apply IH in H. exact H.
Qed.

(** A successful [exec] is a successful match at some start. *)
Lemma exec_from_inv total r s idx m :
  exec_from total r s idx = Some m ->
  exists s0 s1, rmatch total r s0 [] accept = Some (s1, groups m).
Proof.
  revert idx. induction s as [|x s IH]; intros idx H; simpl in H.
  - destruct (rmatch total r "" [] accept) as [[s1 c1]|] eqn:E; [|discriminate].
    injection H as <-. exists "", s1. exact E.
  - destruct (rmatch total r (String x s) [] accept) as [[s1 c1]|] eqn:E.
    + injection H as <-. exists (String x s), s1. exact E.
    + apply IH in H. exact H.
Qed.

End MatcherFacts.

(* ========================================================================= *)
(** * Facts about [trim] *)
(* ========================================================================= *)

Section TrimFacts.
Import JS.

Lemma upper_not_white_space x :
  in_range "A" "Z" x = true -> is_white_space x = false.
Proof.
  destruct x as [[] [] [] [] [] [] [] []]; vm_compute; congruence.
Qed.

Lemma white_space_not_star x :
  is_white_space x = true -> (x =? "*")%char = false.
Proof.
  destruct x as [[] [] [] [] [] [] [] []]; vm_compute; congruence.
Qed.

Lemma trimEnd_cons x s :
  is_white_space x = false -> trimEnd (String x s) = String x (trimEnd s).
Proof. intros H. simpl. rewrite H. reflexivity. Qed.

Lemma trim_cons_black x s :
  is_white_space x = false -> trim (String x s) = String x (trimEnd s).
Proof.
  intros H. unfold trim. simpl trimStart. rewrite H. apply trimEnd_cons, H.
Qed.

Lemma trim_cons_white x s :
  is_white_space x = true -> trim (String x s) = trim s.
Proof. intros H. unfold trim. simpl. rewrite H. reflexivity. Qed.

Lemma truthy_trim_black x s :
  is_white_space x = false -> truthy (trim (String x s)) = true.
Proof. intros H. rewrite trim_cons_black by exact H. reflexivity. Qed.

Lemma trim_blank_inv x s :
  truthy (trim (String x s)) = false ->
  is_white_space x = true /\ truthy (trim s) = false.
Proof.
  intros H. destruct (is_white_space x) eqn:E.
  - rewrite trim_cons_white in H by exact E. auto.
  - rewrite truthy_trim_black in H by exact E. discriminate.
Qed.

End TrimFacts.

(* ========================================================================= *)
(** * The response parser *)
(* ========================================================================= *)

Section ParserFacts.
Import Regex ResultCard.

Lemma starts_upper_truthy v :
  starts_upper v -> JS.truthy (JS.trim v) = true.
Proof.
  intros (x & rest & -> & Hx).
  apply truthy_trim_black, upper_not_white_space, Hx.
Qed.

(** A group that begins with [[A-Z]] captures a text that begins with an
    upper-case letter. *)
Lemma rmatch_group_upper total r s c k res :
  rmatch total (Group 1 (Seq (Atom (OneOf [upper])) r)) s c k = Some res ->
  exists s1 c1 v, k s1 ((1, v) :: c1) = Some res /\ starts_upper v.
Proof.
  intros H. simpl in H.
  destruct s as [|x s']; [discriminate|].
  destruct (JS.in_range "A" "Z" x || false) eqn:Hx; [|discriminate].
  apply rmatch_forward in H. destruct H as (s1 & c1 & H & Hle).
  exists s1, c1, (consumed (String x s') s1). split; [exact H|].
  rewrite consumed_cons by exact Hle.
  exists x, (consumed s' s1). split; [reflexivity|].
  rewrite orb_false_r in Hx. exact Hx.
Qed.

Lemma re_name_group text m :
  exec re_name text = Some m -> starts_upper (group 1 m).
Proof.
  intros H. apply exec_from_inv in H. destruct H as (s0 & s1 & H).
  unfold re_name in H. simpl cat in H.
  change (rmatch ?t (Seq ?a ?b) ?s ?c ?k)
    with (rmatch t a s c (fun s1 c1 => rmatch t b s1 c1 k)) in H.
  apply (rmatch_Lit _ "**") in H. destruct H as (s2 & H).
  change (rmatch ?t (Seq ?a ?b) ?s ?c ?k)
    with (rmatch t a s c (fun s1 c1 => rmatch t b s1 c1 k)) in H.
  unfold Plus in H.
  apply rmatch_group_upper in H. destruct H as (s3 & c3 & v & H & Hv).
  apply (rmatch_Lit _ "**") in H. destruct H as (s4 & H).
  unfold accept in H. injection H as _ Hg.
  unfold group. rewrite <- Hg. simpl. exact Hv.
Qed.

Lemma re_fallback_name_group text m :
  exec re_fallback_name text = Some m -> starts_upper (group 1 m).
Proof.
  intros H. apply exec_from_inv in H. destruct H as (s0 & s1 & H).
  unfold re_fallback_name in H. simpl cat in H.
  apply rmatch_group_upper in H. destruct H as (s3 & c3 & v & H & Hv).
  unfold accept in H. injection H as _ Hg.
  unfold group. rewrite <- Hg. simpl. exact Hv.
Qed.

(** A text of blanks has no bold header. *)
Lemma exec_from_re_name_blank total s idx :
  JS.truthy (JS.trim s) = false -> exec_from total re_name s idx = None.
Proof.
  revert idx. induction s as [|x s IH]; intros idx H.
  - reflexivity.
  - apply trim_blank_inv in H. destruct H as [Hx Hs].
    apply white_space_not_star in Hx.
    simpl. rewrite Hx. simpl. apply IH, Hs.
Qed.

Lemma name_of_section section :
  name (parseCandidateSection section)
  = extract re_name (fun m => JS.trim (group 1 m)) "" section.
Proof. reflexivity. Qed.

(** A name taken from a group that begins with a letter is not empty. *)
Lemma extract_name_truthy r text init :
  (forall m, exec r text = Some m -> starts_upper (group 1 m)) ->
  JS.truthy (extract r (fun m => JS.trim (group 1 m)) init text)
  = match exec r text with Some _ => true | None => JS.truthy init end.
Proof.
  intros H. unfold extract. destruct (exec r text) as [m|] eqn:E; [|reflexivity].
  apply starts_upper_truthy, H. reflexivity.
Qed.

(** The test [section.trim()] only skips sections that would give no name. *)
Lemma blank_section_unnamed section :
  JS.truthy (JS.trim section) = false ->
  JS.truthy (name (parseCandidateSection section)) = false.
Proof.
  intros H. rewrite name_of_section. unfold extract, exec.
  rewrite exec_from_re_name_blank by exact H. reflexivity.
Qed.

End ParserFacts.

Section ParserClaims.
Import Regex ResultCard.

(** C2, as stated, fails: a text with the cue of the first grammar (a
    bulleted bold label and a bold label followed by a colon) but without a
    bold header of capitals gives no record at all. *)
Lemma indented_exactly_one_refuted :
  ~ (forall response,
       JS.includes "- **" response = true ->
       JS.includes "**:" response = true ->
       length (parseLLMResponse response) = 1).
Proof.
  intros H. specialize (H "- **Email**: jane@example.com" eq_refl eq_refl).
  vm_compute in H. discriminate.
Qed.

(** C2, amended: for every text with the cue of the first grammar the parser
    returns at most one record; it returns exactly the record of
    [parseIndentedFormat] when the text has a bold header of capitals (the
    name pattern matches), and no record otherwise. *)
Theorem indented_at_most_one response :
  JS.includes "- **" response = true ->
  JS.includes "**:" response = true ->
  parseLLMResponse response
  = match exec re_name response with
    | Some _ => [parseIndentedFormat response]
    | None => []
    end
  /\ length (parseLLMResponse response) <= 1.
Proof.
  intros H1 H2. unfold parseLLMResponse. rewrite H1, H2. simpl andb. cbv iota.
  unfold push_named.
  change (name (parseIndentedFormat response))
    with (extract re_name (fun m => JS.trim (group 1 m)) "" response).
  rewrite extract_name_truthy by (intros m; apply re_name_group).
  destruct (exec re_name response); simpl; auto.
Qed.

Lemma indented_at_most_one_witness :
  JS.includes "- **" Examples.indented = true
  /\ JS.includes "**:" Examples.indented = true
  /\ length (parseLLMResponse Examples.indented) <= 1.
Proof.
  split; [reflexivity|]. split; [reflexivity|].
  apply (indented_at_most_one Examples.indented); reflexivity.
Defined.






(** The second test of [parseLLMResponse] holds as soon as the bold marker
    occurs once; such a text is cut into sections, and without a bold header
    of capitals it gives no record. *)
Example single_marker_goes_to_sections :
  JS.includes "**" "rated ** out of five" && JS.includes "**" "rated ** out of five"
  = true
  /\ parseLLMResponse "rated ** out of five" = [].
Proof. split; reflexivity. Qed.

(** The reply of [Examples.two_candidates] gives its two candidates in the
    order of the text; the preamble gives none. *)
Example two_candidates_names :
  map name (parseLLMResponse Examples.two_candidates) = ["JOHN DOE"; "MARY ANN"].
Proof. reflexivity. Qed.

End ParserClaims.

(* ========================================================================= *)
(** * The match percentage *)
(* ========================================================================= *)

(** ** Rounding to binary64 *)

Section RoundingFacts.
Import Binary64.
Open Scope Q_scope.

Lemma pow2_pos e : 0 < pow2 e.
Proof. apply Qpower_0_lt. reflexivity. Qed.

Lemma pow2_add a b : pow2 (a + b) == pow2 a * pow2 b.
Proof. apply Qpower_plus. discriminate. Qed.

Lemma pow2_le a b : (a <= b)%Z -> pow2 a <= pow2 b.
Proof. intros H. apply Qpower_le_compat_l; [exact H | discriminate]. Qed.

Lemma pow2_lt_inv a b : pow2 a < pow2 b -> (a < b)%Z.
Proof. intros H. apply (Qpower_lt_compat_l_inv 2); [exact H | reflexivity]. Qed.

Lemma pow2_Z n : (0 <= n)%Z -> pow2 n == inject_Z (2 ^ n).
Proof. intros H. symmetry. apply (Zpower_Qpower 2 n H). Qed.

Lemma pow2_succ a : pow2 (a + 1) == 2 * pow2 a.
Proof. rewrite pow2_add. change (pow2 1) with 2. ring. Qed.

(** The binary logarithm brackets a positive rational. *)
Lemma ilog2_spec q :
  0 < q -> pow2 (ilog2 q) <= q /\ q < pow2 (ilog2 q + 1).
Proof.
  intros Hq. destruct q as [n d]. unfold ilog2. cbn [Qnum Qden].
  assert (Hn : (0 < n)%Z).
  { unfold Qlt in Hq. simpl in Hq. lia. }
  set (a := Z.log2 n). set (b := Z.log2 (Z.pos d)).
  destruct (Z.log2_spec n Hn) as [Ha1 Ha2]. fold a in Ha1, Ha2.
  destruct (Z.log2_spec (Z.pos d) eq_refl) as [Hb1 Hb2]. fold b in Hb1, Hb2.
  assert (A0 : (0 <= a)%Z) by apply Z.log2_nonneg.
  assert (B0 : (0 <= b)%Z) by apply Z.log2_nonneg.
  assert (Qa1 : pow2 a <= inject_Z n).
  { rewrite pow2_Z by exact A0. rewrite <- Zle_Qle. exact Ha1. }
  assert (Qa2 : inject_Z n < pow2 (a + 1)).
  { rewrite pow2_Z by lia. rewrite <- Zlt_Qlt. unfold Z.succ in Ha2. exact Ha2. }
  assert (Qb1 : pow2 b <= inject_Z (Z.pos d)).
  { rewrite pow2_Z by exact B0. rewrite <- Zle_Qle. exact Hb1. }
  assert (Qb2 : inject_Z (Z.pos d) < pow2 (b + 1)).
  { rewrite pow2_Z by lia. rewrite <- Zlt_Qlt. unfold Z.succ in Hb2. exact Hb2. }
  assert (Dp : 0 < inject_Z (Z.pos d)) by reflexivity.
  assert (E : n # d == inject_Z n / inject_Z (Z.pos d)) by apply Qmake_Qdiv.
  assert (Ka2 : pow2 (a + 1) == pow2 (a - b + 1) * pow2 b).
  { rewrite <- pow2_add. replace (a - b + 1 + b)%Z with (a + 1)%Z by ring.
    reflexivity. }
  pose proof (pow2_pos (a - b + 1)) as Pk1.
  destruct (Qle_bool (pow2 (a - b)) (n # d)) eqn:C.
  - apply Qle_bool_iff in C. split; [exact C|].
    rewrite E. apply Qlt_shift_div_r; [exact Dp|].
    apply (Qlt_le_trans _ (pow2 (a + 1))); [exact Qa2|].
    rewrite Ka2. apply Qmult_le_l; [exact Pk1 | exact Qb1].
  - assert (C' : n # d < pow2 (a - b)).
    { apply Qnot_le_lt. intros X. apply Qle_bool_iff in X. congruence. }
    split.
    + rewrite E. apply Qle_shift_div_l; [exact Dp|].
      apply (Qle_trans _ (pow2 a)); [|exact Qa1].
      assert (K : pow2 a == pow2 (a - b - 1) * pow2 (b + 1)).
      { rewrite <- pow2_add. replace (a - b - 1 + (b + 1))%Z with a by ring.
        reflexivity. }
      rewrite K. apply Qmult_le_l; [apply pow2_pos | apply Qlt_le_weak, Qb2].
    + replace (a - b - 1 + 1)%Z with (a - b)%Z by ring. exact C'.
Qed.

Lemma ilog2_mono x y : 0 < x -> x <= y -> (ilog2 x <= ilog2 y)%Z.
Proof.
  intros Hx Hxy.
  destruct (ilog2_spec x Hx) as [X1 _].
  destruct (ilog2_spec y (Qlt_le_trans _ _ _ Hx Hxy)) as [_ Y2].
  assert (H : pow2 (ilog2 x) < pow2 (ilog2 y + 1)).
  { apply (Qle_lt_trans _ x); [exact X1|].
    apply (Qle_lt_trans _ y); assumption. }
  apply pow2_lt_inv in H. lia.
Qed.

Lemma ilog2_unique q e : pow2 e <= q -> q < pow2 (e + 1) -> ilog2 q = e.
Proof.
  intros H1 H2.
  assert (Hq : 0 < q) by (apply (Qlt_le_trans _ (pow2 e)); [apply pow2_pos | exact H1]).
  destruct (ilog2_spec q Hq) as [L1 L2].
  assert (A : pow2 e < pow2 (ilog2 q + 1)) by (apply (Qle_lt_trans _ q); assumption).
  assert (B : pow2 (ilog2 q) < pow2 (e + 1)) by (apply (Qle_lt_trans _ q); assumption).
  apply pow2_lt_inv in A. apply pow2_lt_inv in B. lia.
Qed.

(** Rounding to the nearest integer. *)
Lemma rne_bounds x :
  inject_Z (rne x) - (1 # 2) <= x /\ x <= inject_Z (rne x) + (1 # 2).
Proof.
  unfold rne. pose proof (Qfloor_le x) as L. pose proof (Qlt_floor x) as U.
  rewrite inject_Z_plus in U. change (inject_Z 1) with 1 in U.
  destruct (Qcompare_spec (x - inject_Z (Qfloor x)) (1 # 2)) as [E | E | E].
  - destruct (Z.even (Qfloor x)); [|rewrite inject_Z_plus; change (inject_Z 1) with 1];
      split; lra.
  - split; lra.
  - rewrite inject_Z_plus. change (inject_Z 1) with 1. split; lra.
Qed.

Lemma rne_floor x : (Qfloor x <= rne x <= Qfloor x + 1)%Z.
Proof.
  unfold rne.
  destruct (Qcompare (x - inject_Z (Qfloor x)) (1 # 2));
    [destruct (Z.even (Qfloor x))| |]; lia.
Qed.

Lemma rne_mono x y : x <= y -> (rne x <= rne y)%Z.
Proof.
  intros H. pose proof (Qfloor_resp_le x y H) as F.
  destruct (Z.eq_dec (Qfloor x) (Qfloor y)) as [E | N].
  - unfold rne. rewrite <- E.
    destruct (Qcompare_spec (x - inject_Z (Qfloor x)) (1 # 2)) as [Ex | Ex | Ex];
      destruct (Qcompare_spec (y - inject_Z (Qfloor x)) (1 # 2)) as [Ey | Ey | Ey];
      try destruct (Z.even (Qfloor x)); try lia; exfalso; lra.
  - pose proof (rne_floor x). pose proof (rne_floor y). lia.
Qed.

Lemma rne_Z n : rne (inject_Z n) = n.
Proof.
  unfold rne. rewrite Qfloor_Z.
  destruct (Qcompare_spec (inject_Z n - inject_Z n) (1 # 2)) as [E | E | E];
    [exfalso; lra | reflexivity | exfalso; lra].
Qed.

End RoundingFacts.

Section Round64Facts.
Import Binary64.
Open Scope Q_scope.

Lemma ulp_exp_mono x y : 0 < x -> x <= y -> (ulp_exp x <= ulp_exp y)%Z.
Proof.
  intros Hx H. unfold ulp_exp. pose proof (ilog2_mono x y Hx H). lia.
Qed.

Lemma scaled_le x y e : x <= y -> x / pow2 e <= y / pow2 e.
Proof.
  intros H. apply Qmult_le_compat_r; [exact H|].
  apply Qinv_le_0_compat, Qlt_le_weak, pow2_pos.
Qed.

(** A positive number scaled by its unit is below [2^53]. *)
Lemma scaled_below q : 0 < q -> q / pow2 (ulp_exp q) <= inject_Z (2 ^ 53).
Proof.
  intros Hq. destruct (ilog2_spec q Hq) as [_ U].
  apply Qle_shift_div_r; [apply pow2_pos|].
  apply Qlt_le_weak, (Qlt_le_trans _ _ _ U).
  rewrite <- (pow2_Z 53) by lia. rewrite <- pow2_add.
  apply pow2_le. unfold ulp_exp. lia.
Qed.

(** Above the least exponent it is at least [2^52]. *)
Lemma scaled_above q :
  0 < q -> (-1074 < ulp_exp q)%Z -> inject_Z (2 ^ 52) <= q / pow2 (ulp_exp q).
Proof.
  intros Hq He. destruct (ilog2_spec q Hq) as [L _].
  apply Qle_shift_div_l; [apply pow2_pos|].
  rewrite <- (pow2_Z 52) by lia. rewrite <- pow2_add.
  apply (Qle_trans _ (pow2 (ilog2 q))); [|exact L].
  apply pow2_le. unfold ulp_exp in *. lia.
Qed.

Lemma round_pos_mono x y : 0 < x -> x <= y -> round_pos x <= round_pos y.
Proof.
  intros Hx H. assert (Hy : 0 < y) by (apply (Qlt_le_trans _ x); assumption).
  pose proof (ulp_exp_mono x y Hx H) as He. unfold round_pos.
  destruct (Z.eq_dec (ulp_exp x) (ulp_exp y)) as [E | N].
  - rewrite <- E. apply Qmult_le_compat_r; [|apply Qlt_le_weak, pow2_pos].
    rewrite <- Zle_Qle. apply rne_mono, scaled_le, H.
  - assert (Lt : (ulp_exp x + 1 <= ulp_exp y)%Z) by lia.
    assert (Ly : (-1074 < ulp_exp y)%Z) by (unfold ulp_exp in *; lia).
    apply (Qle_trans _ (inject_Z (2 ^ 53) * pow2 (ulp_exp x))).
    { apply Qmult_le_compat_r; [|apply Qlt_le_weak, pow2_pos].
      rewrite <- Zle_Qle. rewrite <- (rne_Z (2 ^ 53)).
      apply rne_mono, scaled_below, Hx. }
    apply (Qle_trans _ (inject_Z (2 ^ 52) * pow2 (ulp_exp y))).
    { apply (Qle_trans _ (inject_Z (2 ^ 52) * pow2 (ulp_exp x + 1))).
      - rewrite pow2_succ. change (inject_Z (2 ^ 53)) with (2 * inject_Z (2 ^ 52)).
        apply Qle_lteq. right. ring.
      - apply Qmult_le_l; [reflexivity | apply pow2_le, Lt]. }
    apply Qmult_le_compat_r; [|apply Qlt_le_weak, pow2_pos].
    rewrite <- Zle_Qle. rewrite <- (rne_Z (2 ^ 52)).
    apply rne_mono, scaled_above; assumption.
Qed.

Lemma round_pos_nonneg q : 0 < q -> 0 <= round_pos q.
Proof.
  intros Hq. unfold round_pos.
  apply Qmult_le_0_compat; [|apply Qlt_le_weak, pow2_pos].
  change 0 with (inject_Z 0). rewrite <- Zle_Qle. rewrite <- (rne_Z 0).
  apply rne_mono. apply Qle_shift_div_l; [apply pow2_pos|].
  change (inject_Z 0) with 0. lra.
Qed.

Lemma round64_pos q : 0 < q -> round64 q = round_pos q.
Proof. intros H. unfold round64. apply Qgt_alt in H. rewrite H. reflexivity. Qed.

Lemma round64_zero q : q == 0 -> round64 q = 0.
Proof. intros H. unfold round64. apply Qeq_alt in H. rewrite H. reflexivity. Qed.

Lemma round64_nonneg q : 0 <= q -> 0 <= round64 q.
Proof.
  intros H. apply Qle_lteq in H. destruct H as [H | H].
  - rewrite round64_pos by exact H. apply round_pos_nonneg, H.
  - rewrite round64_zero by (symmetry; exact H). apply Qle_refl.
Qed.

(** Rounding keeps the order of non-negative numbers. *)
Lemma round64_mono x y : 0 <= x -> x <= y -> round64 x <= round64 y.
Proof.
  intros Hx H. apply Qle_lteq in Hx. destruct Hx as [Hx | Hx].
  - rewrite !round64_pos by (try exact Hx; apply (Qlt_le_trans _ x); assumption).
    apply round_pos_mono; assumption.
  - rewrite (round64_zero x) by (symmetry; exact Hx). apply round64_nonneg.
    rewrite Hx. exact H.
Qed.

(** The unit of a positive number, against the number itself. *)
Lemma ulp_small q :
  0 < q -> pow2 (ulp_exp q) <= q * pow2 (-52) + pow2 (-1074).
Proof.
  intros Hq. destruct (ilog2_spec q Hq) as [L _]. unfold ulp_exp.
  pose proof (pow2_pos (-1074)) as Pa. pose proof (pow2_pos (-52)) as Pu.
  destruct (Z.max_spec (ilog2 q - 52) (-1074)) as [[_ ->] | [_ ->]].
  - assert (0 <= q * pow2 (-52)) by (apply Qmult_le_0_compat; lra). lra.
  - replace (ilog2 q - 52)%Z with (ilog2 q + -52)%Z by ring. rewrite pow2_add.
    assert (pow2 (ilog2 q) * pow2 (-52) <= q * pow2 (-52))
      by (apply Qmult_le_compat_r; lra).
    lra.
Qed.

Lemma round_pos_error q :
  0 < q ->
  round_pos q - q <= pow2 (ulp_exp q) * (1 # 2)
  /\ q - round_pos q <= pow2 (ulp_exp q) * (1 # 2).
Proof.
  intros Hq. unfold round_pos. set (p := pow2 (ulp_exp q)).
  assert (Pp : 0 < p) by apply pow2_pos.
  destruct (rne_bounds (q / p)) as [B1 B2].
  assert (E : q == q / p * p) by (field; lra).
  apply (Qmult_le_compat_r _ _ p) in B1; [|lra].
  apply (Qmult_le_compat_r _ _ p) in B2; [|lra].
  rewrite <- E in B1, B2.
  split; nra.
Qed.

(** The error of one operation: half a unit, that is a relative error of
    [2^-53] or, for the smallest numbers, an absolute error of [2^-1075]. *)
Lemma round64_error q :
  0 <= q ->
  round64 q - q <= q * pow2 (-53) + pow2 (-1075)
  /\ q - round64 q <= q * pow2 (-53) + pow2 (-1075).
Proof.
  intros H. apply Qle_lteq in H. destruct H as [H | H].
  - rewrite round64_pos by exact H.
    destruct (round_pos_error q H) as [E1 E2]. pose proof (ulp_small q H) as U.
    assert (K1 : pow2 (-52) * (1 # 2) == pow2 (-53)) by reflexivity.
    assert (K2 : pow2 (-1074) * (1 # 2) == pow2 (-1075)) by reflexivity.
    split; nra.
  - rewrite round64_zero by (symmetry; exact H).
    pose proof (pow2_pos (-1075)). rewrite <- H. split; nra.
Qed.

(** A binary64 number is a multiple of its unit. *)
Lemma round64_grid q :
  0 < q -> round64 q == q ->
  q == inject_Z (rne (q / pow2 (ulp_exp q))) * pow2 (ulp_exp q).
Proof.
  intros Hq E. rewrite round64_pos in E by exact Hq. symmetry. exact E.
Qed.

(** Between a binary64 number and the next multiple of its unit there is no
    binary64 number. *)
Lemma next_double t d :
  0 < t -> round64 t == t -> round64 d == d -> t < d ->
  t + pow2 (ulp_exp t) <= d.
Proof.
  intros Ht Et Ed H.
  assert (Hd : 0 < d) by (apply (Qlt_trans _ t); assumption).
  pose proof (ulp_exp_mono t d Ht (Qlt_le_weak _ _ H)) as He.
  pose proof (round64_grid t Ht Et) as Gt.
  pose proof (round64_grid d Hd Ed) as Gd.
  set (mt := rne (t / pow2 (ulp_exp t))) in *.
  set (md := rne (d / pow2 (ulp_exp d))) in *.
  set (k := (ulp_exp d - ulp_exp t)%Z).
  assert (Kp : pow2 (ulp_exp d) == inject_Z (2 ^ k) * pow2 (ulp_exp t)).
  { rewrite <- (pow2_Z k) by (unfold k; lia). rewrite <- pow2_add.
    replace (k + ulp_exp t)%Z with (ulp_exp d) by (unfold k; ring). reflexivity. }
  pose proof (pow2_pos (ulp_exp t)) as Pp.
  assert (Gd' : d == inject_Z (md * 2 ^ k) * pow2 (ulp_exp t)).
  { rewrite inject_Z_mult. rewrite Gd at 1. rewrite Kp. ring. }
  assert (Lt : (mt < md * 2 ^ k)%Z).
  { rewrite Zlt_Qlt. apply (Qmult_lt_r _ _ (pow2 (ulp_exp t)) Pp).
    rewrite <- Gt, <- Gd'. exact H. }
  assert (Le : inject_Z (mt + 1) <= inject_Z (md * 2 ^ k))
    by (rewrite <- Zle_Qle; lia).
  rewrite inject_Z_plus in Le. change (inject_Z 1) with 1 in Le.
  apply (Qmult_le_compat_r _ _ (pow2 (ulp_exp t))) in Le; [|lra].
  rewrite <- Gd' in Le. rewrite Gt at 1. lra.
Qed.

End Round64Facts.

(** ** The percentage shown *)

Section MatchFacts.
Import Binary64 MatchDisplay.
Open Scope Q_scope.

Lemma round64_1 : round64 1 == 1.
Proof. reflexivity. Qed.

Lemma round64_100 : round64 100 == 100.
Proof. reflexivity. Qed.

Lemma toFixed0_nonneg x : 0 <= x -> toFixed0 x = Qfloor (x + (1 # 2)).
Proof.
  intros H. unfold toFixed0.
  apply Qle_bool_iff in H. rewrite H. reflexivity.
Qed.

Lemma toFixed0_mono x y : 0 <= x -> x <= y -> (toFixed0 x <= toFixed0 y)%Z.
Proof.
  intros Hx H. rewrite !toFixed0_nonneg by lra. apply Qfloor_resp_le. lra.
Qed.

(** The sum [1 + d] as the machine has it. *)
Lemma sum_bounds d :
  0 <= d ->
  let y := add 1 d in
  1 <= y
  /\ y - (1 + d) <= (1 + d) * pow2 (-53) + pow2 (-1075)
  /\ (1 + d) - y <= (1 + d) * pow2 (-53) + pow2 (-1075).
Proof.
  intros H y. subst y. unfold add. split.
  - apply (Qle_trans _ (round64 1)); [rewrite round64_1; lra|].
    apply round64_mono; lra.
  - apply round64_error. lra.
Qed.

Lemma sum_mono d d' : 0 <= d -> d <= d' -> add 1 d <= add 1 d'.
Proof. intros H0 H. unfold add. apply round64_mono; lra. Qed.

(** The quotient [1 / y] for [y >= 1]. *)
Lemma quotient_bounds y :
  1 <= y ->
  let x := div 1 y in
  0 <= x <= 1
  /\ x - 1 / y <= pow2 (-53) + pow2 (-1075)
  /\ 1 / y - x <= pow2 (-53) + pow2 (-1075).
Proof.
  intros H x. subst x. unfold div.
  assert (P : 0 < 1 / y) by (apply Qlt_shift_div_l; lra).
  assert (L : 1 / y <= 1) by (apply Qle_shift_div_r; lra).
  split; [split|].
  - apply round64_nonneg. lra.
  - apply (Qle_trans _ (round64 1)); [|rewrite round64_1; lra].
    apply round64_mono; lra.
  - destruct (round64_error (1 / y)) as [E1 E2]; [lra|].
    pose proof (pow2_pos (-53)) as Pu.
    assert (1 / y * pow2 (-53) <= 1 * pow2 (-53))
      by (apply Qmult_le_compat_r; lra).
    split; lra.
Qed.

Lemma quotient_antitone y y' : 1 <= y -> y <= y' -> div 1 y' <= div 1 y.
Proof.
  intros H0 H. unfold div.
  assert (P : 0 < 1 / y') by (apply Qlt_shift_div_l; lra).
  apply round64_mono; [lra|].
  apply Qle_shift_div_r; [lra|].
  assert (E : 1 / y * y' == y' / y) by (field; lra).
  rewrite E. apply Qle_shift_div_l; lra.
Qed.

(** The product [x * 100] for [0 <= x <= 1]. *)
Lemma product_bounds x :
  0 <= x <= 1 ->
  let z := mul x 100 in
  0 <= z <= 100
  /\ z - x * 100 <= 100 * pow2 (-53) + pow2 (-1075)
  /\ x * 100 - z <= 100 * pow2 (-53) + pow2 (-1075).
Proof.
  intros [H0 H1] z. subst z. unfold mul. split; [split|].
  - apply round64_nonneg. lra.
  - apply (Qle_trans _ (round64 100)); [|rewrite round64_100; lra].
    apply round64_mono; lra.
  - destruct (round64_error (x * 100)) as [E1 E2]; [lra|].
    pose proof (pow2_pos (-53)) as Pu.
    assert (x * 100 * pow2 (-53) <= 100 * pow2 (-53))
      by (apply Qmult_le_compat_r; lra).
    split; lra.
Qed.

Lemma product_mono x x' : 0 <= x -> x <= x' -> mul x 100 <= mul x' 100.
Proof. intros H0 H. unfold mul. apply round64_mono; lra. Qed.

(** The exact quotients of the sum and of its machine value. *)
Lemma quotient_shift d y :
  0 <= d -> 1 <= y ->
  y - (1 + d) <= (1 + d) * pow2 (-53) + pow2 (-1075) ->
  (1 + d) - y <= (1 + d) * pow2 (-53) + pow2 (-1075) ->
  1 / y - 1 / (1 + d) <= pow2 (-53) + pow2 (-1075)
  /\ 1 / (1 + d) - 1 / y <= pow2 (-53) + pow2 (-1075).
Proof.
  intros Hd Hy E1 E2.
  set (u := pow2 (-53)) in *. set (a := pow2 (-1075)) in *.
  assert (Pu : 0 < u) by apply pow2_pos. assert (Pa : 0 < a) by apply pow2_pos.
  set (r := 1 / (1 + d)). set (ry := 1 / y).
  assert (R : r * (1 + d) == 1) by (unfold r; field; lra).
  assert (RY : ry * y == 1) by (unfold ry; field; lra).
  assert (R0 : 0 < r) by (unfold r; apply Qlt_shift_div_l; lra).
  assert (R1 : r <= 1) by (unfold r; apply Qle_shift_div_r; lra).
  assert (Y0 : 0 < ry) by (unfold ry; apply Qlt_shift_div_l; lra).
  assert (Y1 : ry <= 1) by (unfold ry; apply Qle_shift_div_r; lra).
  assert (D : ry - r == r * ry * ((1 + d) - y)).
  { unfold r, ry. field. lra. }
  assert (P : 0 < r * ry) by (apply Qmult_lt_0_compat; assumption).
  assert (P1 : r * ry <= 1) by nra.
  assert (K : r * ry * ((1 + d) * u + a) <= u + a).
  { assert (K1 : r * ry * ((1 + d) * u + a) == ry * u * (r * (1 + d)) + r * ry * a)
      by ring.
    rewrite K1, R. nra. }
  assert (U1 : r * ry * ((1 + d) - y) <= r * ry * ((1 + d) * u + a))
    by (apply Qmult_le_l; [exact P | exact E2]).
  assert (U2 : r * ry * (y - (1 + d)) <= r * ry * ((1 + d) * u + a))
    by (apply Qmult_le_l; [exact P | exact E1]).
  split; [lra|].
  assert (D' : r - ry == r * ry * (y - (1 + d))) by (rewrite <- (Qplus_0_l (r - ry)); lra).
  lra.
Qed.

(** The value that is shown is the machine product rounded by [toFixed];
    the product is within [2^-44] of the exact quotient. *)
Lemma match_percentage_value d :
  0 <= d ->
  let z := mul (div 1 (add 1 d)) 100 in
  match_percentage d = Qfloor (z + (1 # 2))
  /\ 0 <= z <= 100
  /\ z - 100 * (1 / (1 + d)) <= pow2 (-44)
  /\ 100 * (1 / (1 + d)) - z <= pow2 (-44).
Proof.
  intros H z. subst z.
  destruct (sum_bounds d H) as (Y1 & Y2 & Y3).
  destruct (quotient_bounds (add 1 d) Y1) as (X1 & X2 & X3).
  destruct (product_bounds (div 1 (add 1 d)) X1) as (Z1 & Z2 & Z3).
  destruct (quotient_shift d (add 1 d) H Y1 Y2 Y3) as (S1 & S2).
  unfold match_percentage. split; [apply toFixed0_nonneg; lra|].
  split; [exact Z1|].
  assert (N : 300 * pow2 (-53) + 201 * pow2 (-1075) <= pow2 (-44))
    by (vm_compute; discriminate).
  set (u := pow2 (-53)) in *. set (a := pow2 (-1075)) in *.
  assert (Pa : 0 < a) by apply pow2_pos.
  split; lra.
Qed.

Lemma match_percentage_antitone d d' :
  0 <= d -> d <= d' -> (match_percentage d' <= match_percentage d)%Z.
Proof.
  intros H0 H. unfold match_percentage.
  destruct (sum_bounds d H0) as (Y1 & _).
  assert (H0' : 0 <= d') by lra.
  destruct (sum_bounds d' H0') as (Y1' & _).
  destruct (quotient_bounds (add 1 d') Y1') as (X1' & _).
  destruct (product_bounds (div 1 (add 1 d')) X1') as (Z1' & _).
  apply toFixed0_mono; [lra|].
  apply product_mono; [lra|].
  apply quotient_antitone; [exact Y1|].
  apply sum_mono; assumption.
Qed.

Lemma match_percentage_range d :
  0 <= d -> (0 <= match_percentage d <= 100)%Z.
Proof.
  intros H. destruct (match_percentage_value d H) as (E & Z1 & _).
  rewrite E. split.
  - change 0%Z with (Qfloor 0). apply Qfloor_resp_le. lra.
  - apply (Qfloor_resp_le _ (100 + (1 # 2))). lra.
Qed.

(** The rounding of the sum can change the digits: [1 + d] is 8 on the
    machine for the distance [7 + 2^-50], so 12.5 is rounded and 13 is
    shown, where the exact quotient is below 12.5. *)
Example sum_rounding_changes_digit :
  finite64 (7 + (1 # 2 ^ 50))
  /\ add 1 (7 + (1 # 2 ^ 50)) == 8
  /\ 100 * (1 / (1 + (7 + (1 # 2 ^ 50)))) < 12 + (1 # 2)
  /\ match_percentage (7 + (1 # 2 ^ 50)) = 13%Z.
Proof.
  split; [split; [reflexivity | vm_compute; discriminate]|].
  split; [reflexivity|]. split; [reflexivity | vm_compute; reflexivity].
Qed.

(** C3, as stated, fails: the number shown is rounded to an integer, so it
    is 100 for the distance 1/1024 as well. *)
Lemma match_percentage_exact_refuted :
  ~ (forall d : Q, finite64 d -> 0 <= d ->
       inject_Z (match_percentage d) == 100 * (1 / (1 + d))
       /\ (forall d', finite64 d' -> d < d' ->
                      (match_percentage d' < match_percentage d)%Z)
       /\ (0 < match_percentage d <= 100)%Z
       /\ (match_percentage d = 100%Z -> d == 0)).
Proof.
  intros H. destruct (H (1 # 1024)) as (_ & _ & _ & H100).
  - split; [reflexivity | vm_compute; discriminate].
  - discriminate.
  - specialize (H100 eq_refl). discriminate.
Qed.

(** C3, amended: for every distance [d >= 0] the percentage shown is the
    integer nearest to the machine value of [(1 / (1 + d)) * 100], which is
    within [2^-44] of [100 * 1 / (1 + d)]; it lies between 0 and 100, it
    never increases when the distance increases, and it is 100 at distance
    0; distances 0, 1 and 4 show 100, 50 and 20. *)
Theorem match_percentage_rounded d :
  0 <= d ->
  let exact := 100 * (1 / (1 + d)) in
  (exact - (1 # 2) - pow2 (-44) < inject_Z (match_percentage d)
   /\ inject_Z (match_percentage d) <= exact + (1 # 2) + pow2 (-44))
  /\ (0 <= match_percentage d <= 100)%Z
  /\ (forall d', d <= d' -> (match_percentage d' <= match_percentage d)%Z)
  /\ (d == 0 -> match_percentage d = 100%Z)
  /\ match_percentage 0 = 100%Z
  /\ match_percentage 1 = 50%Z
  /\ match_percentage 4 = 20%Z.
Proof.
  intros H exact. subst exact.
  destruct (match_percentage_value d H) as (E & Z1 & Z2 & Z3).
  set (z := mul (div 1 (add 1 d)) 100) in *.
  pose proof (Qlt_floor (z + (1 # 2))) as Hf.
  rewrite inject_Z_plus in Hf. change (inject_Z 1) with 1 in Hf.
  pose proof (Qfloor_le (z + (1 # 2))) as Hg.
  pose proof (match_percentage_range d H) as B.
  split; [rewrite E; split; lra|]. split; [exact B|].
  split; [intros d' Hd; apply match_percentage_antitone; assumption|].
  split; [|split; [|split]; vm_compute; reflexivity].
  intros E0. apply Z.le_antisymm; [apply B|].
  assert (M0 : match_percentage 0 = 100%Z) by (vm_compute; reflexivity).
  rewrite <- M0.
  apply match_percentage_antitone; [exact H | lra].
Qed.

Lemma match_percentage_rounded_witness :
  0 <= 2 /\ (0 <= match_percentage 2 <= 100)%Z.
Proof.
  split; [discriminate|].
  apply (match_percentage_rounded 2). discriminate.
Defined.

(** On the sample numbers the model shows the integer that the machine
    arithmetic shows, and each of the three operations agrees with the
    machine on every pair of the operands. *)
Lemma match_percentage_binary64_samples :
  forallb (fun x =>
             match match_percentage_binary64 x with
             | Some n => (n =? match_percentage (number x))%Z
             | None => false
             end) samples = true
  /\ forallb (fun x => forallb (agree PrimFloat.add add x) operands) operands
     = true
  /\ forallb (fun x => forallb (agree PrimFloat.mul mul x) operands) operands
     = true
  /\ forallb (fun x => forallb (agree PrimFloat.div div x) operands) operands
     = true.
Proof. split; [|split; [|split]]; vm_compute; reflexivity. Qed.

End MatchFacts.

(* ========================================================================= *)
(** * Intake validation *)
(* ========================================================================= *)

Section IntakeFacts.
Import UseFileUpload.
Variable o : UseFileUploadOptions.
Variable current : list FileWithPreview.

Lemma check_passes n f :
  check o n f = None -> n < maxFiles o /\ violates o f = false.
Proof.
  unfold check, violates. intros H.
  destruct (maxFiles o <=? n)%nat eqn:E1; [discriminate|].
  destruct (maxSize o <? file_size f)%Z; [discriminate|].
  destruct (negb (accept o =? "*") && negb (type_accepted (accept o) f));
    [discriminate|].
  apply Nat.leb_gt in E1. auto.
Qed.

(** What the loop adds to its two lists: each file gives a message or an
    entry, every file that breaks the size or type rule gives a message, and
    a loop without messages stayed within [maxFiles]. *)
Lemma scan_fold incoming : forall newErrors newFiles n,
  exists more added n',
    fold_left (scan_step o current) incoming (newErrors, newFiles, n)
    = ((newErrors ++ more)%list, (newFiles ++ added)%list, n')
    /\ length more + length added = length incoming
    /\ length (filter (violates o) incoming) <= length more
    /\ (more = [] -> incoming <> [] ->
        length current + length newFiles + length incoming <= maxFiles o).
Proof.
  induction incoming as [|f incoming IH]; intros newErrors newFiles n.
  - exists [], [], n. simpl. rewrite !app_nil_r. repeat split; auto.
    intros _ H. contradiction.
  - simpl fold_left.
    change (scan_step o current (newErrors, newFiles, n) f)
      with (match check o (length current + length newFiles) f with
            | Some e => ((newErrors ++ [e])%list, newFiles, n)
            | None =>
                (newErrors, (newFiles ++ [{| id := n; file := f |}])%list, S n)
            end).
    destruct (check o (length current + length newFiles) f) as [e|] eqn:E.
    + destruct (IH (newErrors ++ [e])%list newFiles n)
        as (more & added & n' & Hf & Hlen & Hv & _).
      exists (e :: more), added, n'.
      split; [etransitivity; [exact Hf|];
              rewrite <- (app_assoc newErrors); reflexivity|].
      simpl. repeat split; try lia.
      * destruct (violates o f); simpl; lia.
      * discriminate.
    + destruct (IH newErrors (newFiles ++ [{| id := n; file := f |}])%list (S n))
        as (more & added & n' & Hf & Hlen & Hv & Hcap).
      exists more, ({| id := n; file := f |} :: added), n'.
      apply check_passes in E. destruct E as [Hn Hok].
      split; [etransitivity; [exact Hf|];
              rewrite <- (app_assoc newFiles); reflexivity|].
      simpl. rewrite Hok. repeat split; try lia.
      intros Hm _. destruct incoming as [|g incoming].
      * simpl. lia.
      * specialize (Hcap Hm). rewrite length_app in Hcap. simpl in *.
        assert (g :: incoming <> []) by discriminate. specialize (Hcap H). lia.
Qed.

End IntakeFacts.

Section IntakeClaims.
Import UseFileUpload UploadResume Examples.

(** C1, as stated, fails: with the options of the upload dialog, a file
    within every rule that is dropped together with an oversized one is not
    added, and [onFilesChange], which starts the upload, is not called. *)
Lemma accepted_sibling_not_added :
  let big := pdf "big.pdf" 600000 in
  let small := pdf "small.pdf" 1000 in
  violates options big = true
  /\ check options 0 small = None
  /\ processFiles options (hook initial) (Some [big; small])
     = ({| files := []; errors := [TooLarge "big.pdf" 512000]; next_id := 1 |},
        None).
Proof. repeat split. Qed.

(** C1, amended: for every submission in which a file breaks the size or
    type rule, or which brings the session over [maxFiles], the error list
    becomes the non-empty list of the messages of this submission, with at
    least one message for each file that breaks the size or type rule and at
    most one for each file; no file of the submission is added, the file set
    stays as it was and [onFilesChange] is not called. *)
Theorem processFiles_rejects_submission o st incoming :
  existsb (violates o) incoming = true
  \/ (incoming <> [] /\ maxFiles o < length (files st) + length incoming) ->
  exists newErrors n,
    processFiles o st (Some incoming)
    = ({| files := files st; errors := newErrors; next_id := n |}, None)
    /\ newErrors <> []
    /\ length (filter (violates o) incoming) <= length newErrors
    /\ length newErrors <= length incoming.
Proof.
  intros H. unfold processFiles, scan.
  destruct (scan_fold o (files st) incoming [] [] (next_id st))
    as (more & added & n' & Hf & Hlen & Hv & Hcap).
  rewrite Hf. simpl app.
  assert (Hne : more <> []).
  { intros ->. destruct H as [H | [Hi Hc]].
    - apply existsb_exists in H. destruct H as (f & Hin & Hf').
      assert (In f (filter (violates o) incoming)) by (apply filter_In; auto).
      destruct (filter (violates o) incoming); simpl in *; [contradiction | lia].
    - specialize (Hcap eq_refl Hi). simpl in Hcap. lia. }
  exists more, n'.
  destruct more as [|e more]; [contradiction|].
  simpl. repeat split; auto; simpl in *; lia.
Qed.

Lemma processFiles_rejects_submission_witness :
  let incoming := [pdf "big.pdf" 600000; pdf "small.pdf" 1000] in
  existsb (violates options) incoming = true
  /\ exists newErrors n,
       processFiles options (hook initial) (Some incoming)
       = ({| files := files (hook initial); errors := newErrors; next_id := n |},
          None)
       /\ newErrors <> []
       /\ length (filter (violates options) incoming) <= length newErrors
       /\ length newErrors <= length incoming.
Proof.
  split; [reflexivity|].
  apply (processFiles_rejects_submission options (hook initial)
           [pdf "big.pdf" 600000; pdf "small.pdf" 1000]).
  left. reflexivity.
Defined.

End IntakeClaims.

(* ========================================================================= *)
(** * The upload tracker *)
(* ========================================================================= *)

Section TrackerFacts.
Import UseFileUpload UploadResume.

Lemma includes_id_In ids i : includes_id ids i = true <-> In i ids.
Proof.
  unfold includes_id. rewrite existsb_exists. split.
  - intros (x & Hin & Hx). apply Nat.eqb_eq in Hx. subst. exact Hin.
  - intros H. exists i. split; [exact H | apply Nat.eqb_refl].
Qed.

Lemma find_unmatched (results : list UploadResult) (n : string) :
  (forall r, In r results -> filename r <> n) ->
  find (fun r => filename r =? n) results = None.
Proof.
  intros H. induction results as [|r results IH]; [reflexivity|].
  simpl. destruct (filename r =? n) eqn:E.
  - apply String.eqb_eq in E. exfalso. apply (H r); [left; reflexivity | exact E].
  - apply IH. intros r' Hr'. apply H. right. exact Hr'.
Qed.

Lemma nonempty_batch_settle (batch : Batch) out prev :
  batch <> [] ->
  handleUpload_settle batch out prev
  = match out with
    | Resolved results => (apply_results results prev, notify results)
    | Rejected err =>
        (mark_error (map fst batch) (error_message err) prev,
         [onError (error_message err)])
    end.
Proof. destruct batch; [contradiction | reflexivity]. Qed.

Lemma nonempty_batch_begin (batch : Batch) prev :
  batch <> [] ->
  handleUpload_begin batch prev = mark_uploading (map fst batch) prev.
Proof. destruct batch; [contradiction | reflexivity]. Qed.

End TrackerFacts.

Section TrackerClaims.
Import UseFileUpload UploadResume Examples.



(** C5: after a reply with the result list [results], [onSuccess] is called
    if and only if some result has status "ok"; [onError] is called when some
    result has status "error", with the message that lists the failed file
    names when not all results failed; when some result is "ok" and some is
    "error", both are called. *)
Theorem reply_callbacks (batch : Batch) results prev :
  batch <> [] ->
  let calls := snd (handleUpload_settle batch (Resolved results) prev) in
  let some_ok := exists r, In r results /\ result_status r = "ok" in
  let some_failed := exists r, In r results /\ result_status r = "error" in
  let all_failed := forall r, In r results -> result_status r = "error" in
  let failedFiles :=
    JS.join ", "
      (map filename (filter (fun r => result_status r =? "error") results)) in
  (In onSuccess calls <-> some_ok)
  /\ (some_failed -> exists message, In (onError message) calls)
  /\ (some_failed -> ~ all_failed ->
      In (onError ("Some files failed to upload: " ++ failedFiles)) calls)
  /\ (some_ok -> some_failed ->
      In onSuccess calls /\ exists message, In (onError message) calls).
Proof.
  intros Hb calls some_ok some_failed all_failed failedFiles.
  subst calls. rewrite nonempty_batch_settle by exact Hb. simpl snd.
  assert (Hok : In onSuccess (notify results) <-> some_ok).
  { unfold notify, some_ok. rewrite in_app_iff. split.
    - intros [H | H].
      + destruct (existsb _ results) eqn:E; [|contradiction].
        apply existsb_exists in E. destruct E as (r & Hr & E).
        apply String.eqb_eq in E. eauto.
      + destruct (forallb _ results); [destruct H as [H|[]]; discriminate|].
        destruct (existsb (fun r => result_status r =? "error") results);
          [destruct H as [H|[]]; discriminate | contradiction].
    - intros (r & Hr & E). left.
      assert (X : existsb (fun r => result_status r =? "ok") results = true).
      { apply existsb_exists. exists r. split; [exact Hr|].
        apply String.eqb_eq. exact E. }
      rewrite X. left. reflexivity. }
  assert (Hsome : some_failed ->
            existsb (fun r => result_status r =? "error") results = true).
  { intros (r & Hr & E). apply existsb_exists. exists r.
    split; [exact Hr | apply String.eqb_eq; exact E]. }
  assert (Hfail : some_failed ->
            exists message, In (onError message) (notify results)).
  { intros H. apply Hsome in H. unfold notify.
    destruct (forallb _ results).
    - exists "All uploads failed.". apply in_or_app. right. left. reflexivity.
    - rewrite H. eexists. apply in_or_app. right. left. reflexivity. }
  repeat split.
  - apply Hok.
  - apply Hok.
  - exact Hfail.
  - intros Hs Hn. unfold notify.
    destruct (forallb (fun r => result_status r =? "error") results) eqn:E.
    + exfalso. apply Hn. intros r Hr.
      rewrite forallb_forall in E. apply String.eqb_eq, E, Hr.
    + rewrite (Hsome Hs). apply in_or_app. right. left. reflexivity.
  - apply Hok. assumption.
  - apply Hfail. assumption.
Qed.

Lemma reply_callbacks_witness :
  let batch := [(0, pdf "a.pdf" 1); (1, pdf "b.pdf" 1); (2, pdf "c.pdf" 1)] in
  let results := [ok "a.pdf"; failed "b.pdf" "unreadable"; ok "c.pdf"] in
  batch <> []
  /\ In onSuccess (snd (handleUpload_settle batch (Resolved results) []))
  /\ In (onError "Some files failed to upload: b.pdf")
        (snd (handleUpload_settle batch (Resolved results) [])).
Proof.
  split; [discriminate|].
  destruct (reply_callbacks
              [(0, pdf "a.pdf" 1); (1, pdf "b.pdf" 1); (2, pdf "c.pdf" 1)]
              [ok "a.pdf"; failed "b.pdf" "unreadable"; ok "c.pdf"] [])
    as (Hok & _ & Hsome & _); [discriminate|].
  split.
  - apply Hok. exists (ok "a.pdf"). split; [left; reflexivity | reflexivity].
  - apply Hsome.
    + exists (failed "b.pdf" "unreadable").
      split; [right; left; reflexivity | reflexivity].
    + intros H. specialize (H (ok "a.pdf") (or_introl eq_refl)). discriminate.
Defined.

(** A batch of three files answered [ok, error, ok]: two items end in
    [Completed], one in [Error], and both callbacks are called. *)
Example three_files_mixed_reply :
  let batch := [(0, pdf "a.pdf" 1); (1, pdf "b.pdf" 1); (2, pdf "c.pdf" 1)] in
  let prev :=
    map (fun f => {| item_id := fst f; item_file := snd f;
                     status := Pending; error := None |}) batch in
  let out :=
    handleUpload batch
      (Resolved [ok "a.pdf"; failed "b.pdf" "unreadable"; ok "c.pdf"]) prev in
  map status (fst out) = [Completed; Error; Completed]
  /\ snd out = [onSuccess; onError "Some files failed to upload: b.pdf"].
Proof. split; reflexivity. Qed.

(** When no entry of the reply has the file name of an item of the batch,
    the processing of that reply leaves the item exactly as it is; through
    the whole of [handleUpload] the item is set to [Uploading] before the
    request and is still [Uploading], with no error, after the reply. *)
Theorem unmatched_item_stays_uploading (batch : Batch) results prev i item :
  nth_error prev i = Some item ->
  In (item_id item) (map fst batch) ->
  (forall r, In r results -> filename r <> file_name (item_file item)) ->
  (forall current item',
      nth_error current i = Some item' ->
      item_file item' = item_file item ->
      nth_error (fst (handleUpload_settle batch (Resolved results) current)) i
      = Some item')
  /\ nth_error (fst (handleUpload batch (Resolved results) prev)) i
     = Some {| item_id := item_id item; item_file := item_file item;
               status := Uploading; error := None |}.
Proof.
  intros Hi Hin Hno.
  assert (Hb : batch <> []) by (destruct batch; [contradiction | discriminate]).
  assert (Hsettle : forall current item',
      nth_error current i = Some item' ->
      item_file item' = item_file item ->
      nth_error (fst (handleUpload_settle batch (Resolved results) current)) i
      = Some item').
  { intros current item' Hc Hfile.
    rewrite nonempty_batch_settle by exact Hb. simpl fst. unfold apply_results.
    rewrite nth_error_map, Hc. simpl.
    rewrite find_unmatched; [reflexivity|]. rewrite Hfile. exact Hno. }
  split; [exact Hsettle|].
  unfold handleUpload. apply Hsettle; [|reflexivity].
  rewrite nonempty_batch_begin by exact Hb. unfold mark_uploading.
  rewrite nth_error_map, Hi. simpl.
  apply includes_id_In in Hin. rewrite Hin. reflexivity.
Qed.

Lemma unmatched_item_stays_uploading_witness :
  let item := {| item_id := 0; item_file := pdf "a.pdf" 1000;
                 status := Pending; error := None |} in
  nth_error (fst (handleUpload [(0, pdf "a.pdf" 1000)]
                    (Resolved [ok "other.pdf"]) [item])) 0
  = Some {| item_id := 0; item_file := pdf "a.pdf" 1000;
            status := Uploading; error := None |}.
Proof.
  apply (unmatched_item_stays_uploading [(0, pdf "a.pdf" 1000)]
           [ok "other.pdf"]
           [{| item_id := 0; item_file := pdf "a.pdf" 1000;
               status := Pending; error := None |}] 0
           {| item_id := 0; item_file := pdf "a.pdf" 1000;
              status := Pending; error := None |}).
  - reflexivity.
  - left. reflexivity.
  - intros r [<- | []]. discriminate.
Defined.

(** C8 does not hold on the code.  Two items carry files of the same name
    and both are in status [Error]; the first is retried and the reply to
    that request reports the name as "ok".  The updater of lines 81-93 goes
    through every item and matches by file name alone, so the second item,
    which was not retried, becomes [Completed] as well. *)
Theorem retry_changes_namesake :
  exists t t',
    run initial namesakes_failed = Some t
    /\ status_of 0 t = Some Error
    /\ status_of 1 t = Some Error
    /\ run t [Retry 0; Reply 0 [ok "cv.pdf"]] = Some t'
    /\ status_of 0 t' = Some Completed
    /\ status_of 1 t' = Some Completed.
Proof.
  eexists. eexists. repeat split; vm_compute; reflexivity.
Qed.

(** C9 does not hold on the code.  After both namesakes failed, both are
    retried; the reply to the first retry completes both items, and the
    reply to the second retry, which reports the name as "error", takes the
    first item from [Completed] to [Error]. *)
Theorem completed_item_leaves_completed :
  exists t t' calls,
    run initial (namesakes_failed ++ [Retry 0; Retry 1; Reply 0 [ok "cv.pdf"]])
    = Some t
    /\ status_of 0 t = Some Completed
    /\ step t (Reply 0 [failed "cv.pdf" "unreadable"]) = Some (t', calls)
    /\ status_of 0 t' = Some Error.
Proof.
  eexists. eexists. eexists. repeat split; vm_compute; reflexivity.
Qed.

(** C10 does not hold on the code.  After both namesakes failed, both are
    retried, each in a request of its own.  The reply to the retry of item 0
    has no entry for its file name, so the item stays [Uploading]; it does
    not stay so: the reply to the retry of item 1, a request that item 0 was
    not part of, says "ok" for the name and sets item 0 to [Completed]. *)
Theorem unmatched_item_later_completed :
  exists t t' calls,
    run initial (namesakes_failed ++ [Retry 0; Retry 1; Reply 0 []]) = Some t
    /\ status_of 0 t = Some Uploading
    /\ inflight t = [[(1, pdf "cv.pdf" 2000)]]
    /\ step t (Reply 0 [ok "cv.pdf"]) = Some (t', calls)
    /\ status_of 0 t' = Some Completed.
Proof.
  eexists. eexists. eexists.
  split; [vm_compute; reflexivity|].
  split; [vm_compute; reflexivity|].
  split; [vm_compute; reflexivity|].
  split; vm_compute; reflexivity.
Qed.

End TrackerClaims.

(* ========================================================================= *)
(** * Further properties of the parser, the hook and the tracker *)
(* ========================================================================= *)

(** ** Strings: character classes, [trim], [split] and [join] *)

Section TextFacts.
Import JS Text.

Lemma length_append_string (a b : string) :
  String.length (a ++ b) = String.length a + String.length b.
Proof. induction a as [|x a IH]; simpl; [reflexivity | rewrite IH; reflexivity]. Qed.

Lemma substring_append_left (a b : string) :
  substring 0 (String.length a) (a ++ b) = a.
Proof.
  induction a as [|x a IH]; simpl.
  - destruct b; reflexivity.
  - rewrite IH. reflexivity.
Qed.

Lemma all_chars_append p a b :
  all_chars p (a ++ b) = all_chars p a && all_chars p b.
Proof.
  induction a as [|x a IH]; simpl; [reflexivity|].
  rewrite IH, andb_assoc. reflexivity.
Qed.

Lemma all_chars_weaken (p q : ascii -> bool) s :
  (forall c, p c = true -> q c = true) ->
  all_chars p s = true -> all_chars q s = true.
Proof.
  intros H. induction s as [|x s IH]; simpl; [reflexivity|].
  intros E. apply andb_true_iff in E. destruct E as [E1 E2].
  rewrite (H x E1), (IH E2). reflexivity.
Qed.

Lemma all_chars_trimStart p s :
  all_chars p s = true -> all_chars p (trimStart s) = true.
Proof.
  induction s as [|x s IH]; simpl; [reflexivity|].
  intros E. destruct (is_white_space x); [|exact E].
  apply andb_true_iff in E. apply IH, E.
Qed.

Lemma all_chars_trimEnd p s :
  all_chars p s = true -> all_chars p (trimEnd s) = true.
Proof.
  induction s as [|x s IH]; simpl; [reflexivity|].
  intros E. apply andb_true_iff in E. destruct E as [E1 E2].
  destruct (is_white_space x && (trimEnd s =? "")); [reflexivity|].
  simpl. rewrite E1, (IH E2). reflexivity.
Qed.

Lemma all_chars_trim p s :
  all_chars p s = true -> all_chars p (trim s) = true.
Proof. intros E. apply all_chars_trimEnd, all_chars_trimStart, E. Qed.

Lemma trimEnd_idem s : trimEnd (trimEnd s) = trimEnd s.
Proof.
  induction s as [|x s IH]; simpl; [reflexivity|].
  destruct (is_white_space x && (trimEnd s =? "")) eqn:E; [reflexivity|].
  simpl. rewrite IH, E. reflexivity.
Qed.

Lemma trimStart_clean s : clean_start (trimStart s).
Proof.
  induction s as [|x s IH]; simpl; [exact I|].
  destruct (is_white_space x) eqn:E; [exact IH | exact E].
Qed.

Lemma trimStart_of_clean s : clean_start s -> trimStart s = s.
Proof. destruct s as [|x s]; simpl; [reflexivity|]. intros ->. reflexivity. Qed.

Lemma trimEnd_clean s : clean_start s -> clean_start (trimEnd s).
Proof.
  destruct s as [|x s]; simpl; [auto|]. intros E. rewrite E. simpl. exact E.
Qed.

Lemma trim_idem s : trim (trim s) = trim s.
Proof.
  unfold trim.
  rewrite (trimStart_of_clean (trimEnd (trimStart s))).
  - apply trimEnd_idem.
  - apply trimEnd_clean, trimStart_clean.
Qed.

Lemma trimmed_trim s : trimmed (trim s).
Proof. apply trim_idem. Qed.

Lemma split_pieces sep s piece :
  In piece (split sep s) -> all_chars (other_than sep) piece = true.
Proof.
  revert piece. induction s as [|x s IH]; intros piece H; simpl in H.
  - destruct H as [<- | []]. reflexivity.
  - destruct (x =? sep)%char eqn:E.
    + destruct H as [<- | H]; [reflexivity | apply IH, H].
    + destruct (split sep s) as [|h t] eqn:Es.
      * destruct H as [<- | []]. simpl. unfold other_than. rewrite E. reflexivity.
      * destruct H as [<- | H].
        -- simpl. unfold other_than at 1. rewrite E. simpl.
           apply IH. left. reflexivity.
        -- apply IH. right. exact H.
Qed.

Lemma split_nonempty sep s : split sep s <> [].
Proof.
  destruct s as [|x s]; simpl; [discriminate|].
  destruct (x =? sep)%char; [discriminate|].
  destruct (split sep s); discriminate.
Qed.

(** Joining the pieces with the separator gives the text back. *)
Lemma join_split sep s : join (String sep "") (split sep s) = s.
Proof.
  induction s as [|x s IH]; [reflexivity|].
  simpl split. destruct (x =? sep)%char eqn:E.
  - apply Ascii.eqb_eq in E. subst x.
    pose proof (split_nonempty sep s) as Hn.
    unfold join in *. simpl.
    destruct (split sep s) as [|h t]; [contradiction|].
    simpl. f_equal. exact IH.
  - pose proof (split_nonempty sep s) as Hn.
    destruct (split sep s) as [|h t]; [contradiction|].
    unfold join in *. simpl in *.
    destruct t; simpl in *; rewrite <- IH; reflexivity.
Qed.

Lemma all_chars_concat p sep l :
  all_chars p sep = true ->
  (forall x, In x l -> all_chars p x = true) ->
  all_chars p (String.concat sep l) = true.
Proof.
  intros Hs. induction l as [|x l IH]; intros H; [reflexivity|].
  simpl. destruct l as [|y l].
  - apply H. left. reflexivity.
  - rewrite !all_chars_append, Hs, (H x (or_introl eq_refl)). simpl.
    apply IH. intros z Hz. apply H. right. exact Hz.
Qed.

End TextFacts.

(** ** What a pattern over one character class consumes *)

Section ClassFacts.
Import Regex Text.

Lemma star_loop_consumes p m greedy :
  consumes p m ->
  forall n, consumes p (fun s c k => star_loop m greedy k n s c).
Proof.
  intros Hm n. induction n as [|n IH]; intros s c k res H.
  - simpl in H. exists "", s. destruct greedy.
    + auto.
    + destruct (k s c) eqn:E; [|discriminate]. split; [congruence | auto].
  - simpl in H.
    assert (Hiter :
      m s c (fun s1 c1 =>
               if (String.length s1 <? String.length s)%nat
               then star_loop m greedy k n s1 c1 else None) = Some res ->
      exists w s1, k s1 c = Some res /\ s = w ++ s1 /\ all_chars p w = true).
    { intros Hi. apply Hm in Hi. destruct Hi as (w & s1 & Hk & -> & Hw).
      destruct (String.length s1 <? String.length (w ++ s1))%nat; [|discriminate].
      apply IH in Hk. destruct Hk as (w2 & s2 & Hk & -> & Hw2).
      exists (w ++ w2), s2. split; [exact Hk|]. split.
      - clear. induction w; simpl; [reflexivity | f_equal; assumption].
      - rewrite all_chars_append, Hw, Hw2. reflexivity. }
    destruct greedy.
    + destruct (m s c _) eqn:E.
      * apply Hiter. congruence.
      * exists "", s. auto.
    + destruct (k s c) eqn:E.
      * exists "", s. split; [congruence | auto].
      * apply Hiter. exact H.
Qed.

Lemma rmatch_consumes p total r : only p r -> consumes p (rmatch total r).
Proof.
  induction r as [|a|r1 IH1 r2 IH2|r1 IH1 r2 IH2|g r IH|n r IH|b r IH|];
    intros Ho s c k res H; simpl in Ho, H; try contradiction.
  - exists "", s. auto.
  - destruct s as [|x s']; [discriminate|].
    destruct (atom_mem a x) eqn:E; [|discriminate].
    exists (String x ""), s'. split; [exact H|]. split; [reflexivity|].
    simpl. rewrite (Ho x E). reflexivity.
  - destruct Ho as [Ho1 Ho2].
    apply (IH1 Ho1) in H. destruct H as (w1 & s1 & H & -> & Hw1).
    apply (IH2 Ho2) in H. destruct H as (w2 & s2 & H & -> & Hw2).
    exists (w1 ++ w2), s2. split; [exact H|]. split.
    + clear. induction w1; simpl; [reflexivity | f_equal; assumption].
    + rewrite all_chars_append, Hw1, Hw2. reflexivity.
  - destruct Ho as [Ho1 Ho2].
    destruct (rmatch total r1 s c k) eqn:E.
    + apply (IH1 Ho1 s c k res). congruence.
    + apply (IH2 Ho2 s c k res). exact H.
  - apply (star_loop_consumes p (rmatch total r) g (IH Ho) (String.length s)) in H.
    exact H.
Qed.

Lemma consumed_append w s1 : consumed (w ++ s1) s1 = w.
Proof.
  unfold consumed. rewrite length_append_string.
  replace (String.length w + String.length s1 - String.length s1)
    with (String.length w) by lia.
  apply substring_append_left.
Qed.

(** A group over a pattern of [p] that begins with one character class:
    the capture is that character followed by a text of [p]. *)
Lemma rmatch_group_class p total n a r s c k res :
  only p r ->
  rmatch total (Group n (Seq (Atom a) r)) s c k = Some res ->
  exists x w s1,
    k s1 ((n, String x w) :: c) = Some res
    /\ atom_mem a x = true /\ all_chars p w = true.
Proof.
  intros Ho H. simpl in H.
  destruct s as [|x s']; [discriminate|].
  destruct (atom_mem a x) eqn:E; [|discriminate].
  apply (rmatch_consumes p total r Ho) in H.
  destruct H as (w & s1 & H & -> & Hw).
  exists x, w, s1. split; [|auto].
  change (String x (w ++ s1)) with (String x w ++ s1) in H.
  rewrite consumed_append in H. exact H.
Qed.

End ClassFacts.

(** ** The shape of the captures of the field patterns *)

Section FieldFacts.
Import Regex Text ResultCard.

(** The one group of a pattern [P (a r) Q], where [P] and [Q] have no group:
    after a match the captures hold exactly the text of the group. *)
Lemma capture_shape p total P a r Q s res :
  only anything P -> only p r -> only anything Q ->
  rmatch total P s []
    (fun s1 c1 =>
       rmatch total (Group 1 (Seq (Atom a) r)) s1 c1
         (fun s2 c2 => rmatch total Q s2 c2 accept)) = Some res ->
  exists x w,
    snd res = [(1, String x w)]
    /\ atom_mem a x = true /\ all_chars p w = true.
Proof.
  intros HP Hr HQ H.
  apply (rmatch_consumes anything total P HP) in H.
  destruct H as (_ & s1 & H & _ & _).
  apply (rmatch_group_class p total 1 a r _ _ _ _ Hr) in H.
  destruct H as (x & w & s2 & H & Hx & Hw).
  apply (rmatch_consumes anything total Q HQ) in H.
  destruct H as (_ & s3 & H & _ & _).
  exists x, w. unfold accept in H. injection H as <-. auto.
Qed.

Lemma exec_group total r s idx m (T : string -> Prop) :
  (forall s0 res, rmatch total r s0 [] accept = Some res ->
                  exists v, snd res = [(1, v)] /\ T v) ->
  exec_from total r s idx = Some m -> T (group 1 m).
Proof.
  intros H E. apply exec_from_inv in E. destruct E as (s0 & s1 & E).
  apply H in E. destruct E as (v & Eg & Hv). simpl in Eg.
  unfold group. rewrite Eg. simpl. exact Hv.
Qed.

Lemma only_anything_Lit l : only anything (Lit l).
Proof. induction l; simpl; auto. Qed.

Lemma re_name_headed text m :
  exec re_name text = Some m -> headed capital capital_or_space (group 1 m).
Proof.
  apply exec_group. intros s0 res H.
  change (rmatch ?t re_name s0 [] accept)
    with (rmatch t (Lit "**") s0 []
            (fun s1 c1 =>
               rmatch t (Group 1 (Seq (Atom (OneOf [upper]))
                                      (Plus (Atom (OneOf [upper; Space])))))
                 s1 c1 (fun s2 c2 => rmatch t (Lit "**") s2 c2 accept))) in H.
  apply (capture_shape capital_or_space) in H.
  - destruct H as (x & w & Hg & Hx & Hw).
    exists (String x w). split; [exact Hg|]. exists x, w.
    split; [reflexivity|]. split; [|exact Hw].
    simpl in Hx. rewrite orb_false_r in Hx. exact Hx.
  - apply only_anything_Lit.
  - simpl. split; intros c Hc; unfold capital_or_space, capital;
      rewrite orb_false_r in Hc; exact Hc.
  - apply only_anything_Lit.
Qed.

Lemma re_fallback_name_headed text m :
  exec re_fallback_name text = Some m ->
  headed capital capital_or_space (group 1 m).
Proof.
  apply exec_group. intros s0 res H.
  change (rmatch ?t re_fallback_name s0 [] accept)
    with (rmatch t Empty s0 []
            (fun s1 c1 =>
               rmatch t (Group 1 (Seq (Atom (OneOf [upper]))
                                      (AtLeast 2 (Atom (OneOf [upper; Space])))))
                 s1 c1 (fun s2 c2 => rmatch t Empty s2 c2 accept))) in H.
  apply (capture_shape capital_or_space) in H.
  - destruct H as (x & w & Hg & Hx & Hw).
    exists (String x w). split; [exact Hg|]. exists x, w.
    split; [reflexivity|]. split; [|exact Hw].
    simpl in Hx. rewrite orb_false_r in Hx. exact Hx.
  - exact I.
  - simpl. repeat split; intros c Hc; unfold capital_or_space, capital;
      rewrite orb_false_r in Hc; exact Hc.
  - exact I.
Qed.

Lemma only_line_class :
  forall c, atom_mem (NoneOf [Ch nl]) c = true -> other_than nl c = true.
Proof. intros c H. simpl in H. rewrite orb_false_r in H. exact H. Qed.

Lemma only_anything_space_star : only anything (Star true space).
Proof. simpl. intros; reflexivity. Qed.

Lemma re_email_line text m :
  exec re_email text = Some m -> all_chars (other_than nl) (group 1 m) = true.
Proof.
  apply (exec_group _ _ _ _ _ (fun v => all_chars (other_than nl) v = true)).
  intros s0 res H.
  change (rmatch ?t re_email s0 [] accept)
    with (rmatch t (Seq (Lit "**Email**:") (Star true space)) s0 []
            (fun s1 c1 =>
               rmatch t (Group 1 (Seq (Atom (NoneOf [Ch nl]))
                                      (Star true (Atom (NoneOf [Ch nl])))))
                 s1 c1 (fun s2 c2 => rmatch t Empty s2 c2 accept))) in H.
  apply (capture_shape (other_than nl)) in H.
  - destruct H as (x & w & Hg & Hx & Hw).
    exists (String x w). split; [exact Hg|].
    simpl. rewrite (only_line_class x Hx), Hw. reflexivity.
  - split; [apply only_anything_Lit | apply only_anything_space_star].
  - exact only_line_class.
  - exact I.
Qed.

Lemma re_phone_line text m :
  exec re_phone text = Some m -> all_chars (other_than nl) (group 1 m) = true.
Proof.
  apply (exec_group _ _ _ _ _ (fun v => all_chars (other_than nl) v = true)).
  intros s0 res H.
  change (rmatch ?t re_phone s0 [] accept)
    with (rmatch t (Seq (Lit "**Phone**:") (Star true space)) s0 []
            (fun s1 c1 =>
               rmatch t (Group 1 (Seq (Atom (NoneOf [Ch nl]))
                                      (Star true (Atom (NoneOf [Ch nl])))))
                 s1 c1 (fun s2 c2 => rmatch t Empty s2 c2 accept))) in H.
  apply (capture_shape (other_than nl)) in H.
  - destruct H as (x & w & Hg & Hx & Hw).
    exists (String x w). split; [exact Hg|].
    simpl. rewrite (only_line_class x Hx), Hw. reflexivity.
  - split; [apply only_anything_Lit | apply only_anything_space_star].
  - exact only_line_class.
  - exact I.
Qed.

Lemma digit_class c : atom_mem (OneOf [Digit]) c = true -> JS.is_digit c = true.
Proof. simpl. rewrite orb_false_r. auto. Qed.

Lemma re_percentage_digits text m :
  exec re_percentage text = Some m -> headed JS.is_digit JS.is_digit (group 1 m).
Proof.
  apply exec_group. intros s0 res H.
  change (rmatch ?t re_percentage s0 [] accept)
    with (rmatch t Empty s0 []
            (fun s1 c1 =>
               rmatch t (Group 1 (Seq (Atom (OneOf [Digit])) (Star true digit)))
                 s1 c1 (fun s2 c2 => rmatch t (Chr "%") s2 c2 accept))) in H.
  apply (capture_shape JS.is_digit) in H.
  - destruct H as (x & w & Hg & Hx & Hw).
    exists (String x w). split; [exact Hg|]. exists x, w.
    split; [reflexivity|]. split; [apply digit_class, Hx | exact Hw].
  - exact I.
  - exact digit_class.
  - simpl. intros; reflexivity.
Qed.

Lemma re_cgpa_number text m :
  exec re_cgpa text = Some m -> headed JS.is_digit digit_or_dot (group 1 m).
Proof.
  apply exec_group. intros s0 res H.
  change (rmatch ?t re_cgpa s0 [] accept)
    with (rmatch t (Seq (Lit "CGPA") (Star true (Atom (NoneOf [Digit])))) s0 []
            (fun s1 c1 =>
               rmatch t (Group 1 (Seq (Atom (OneOf [Digit]))
                                      (Seq (Star true digit)
                                           (Seq (Opt (Chr "."))
                                                (Star true digit)))))
                 s1 c1 (fun s2 c2 => rmatch t Empty s2 c2 accept))) in H.
  apply (capture_shape digit_or_dot) in H.
  - destruct H as (x & w & Hg & Hx & Hw).
    exists (String x w). split; [exact Hg|]. exists x, w.
    split; [reflexivity|]. split; [apply digit_class, Hx | exact Hw].
  - split; [apply only_anything_Lit | simpl; intros; reflexivity].
  - assert (D : forall c, atom_mem (OneOf [Digit]) c = true ->
                          digit_or_dot c = true).
    { intros c Hc. unfold digit_or_dot. rewrite (digit_class c Hc). reflexivity. }
    simpl. repeat split; try exact D; try exact I.
    intros c Hc. unfold digit_or_dot. rewrite orb_false_r in Hc.
    rewrite Hc. apply orb_true_r.
  - exact I.
Qed.

End FieldFacts.

(** ** The fields of the records *)

Section RecordFacts.
Import Regex Text ResultCard.

(** Where a record of the result comes from. *)
Lemma record_origin response c :
  In c (parseLLMResponse response) ->
  JS.truthy (name c) = true
  /\ (c = parseIndentedFormat response
      \/ (exists section, In section (sections response)
                          /\ c = parseCandidateSection section)
      \/ c = parseFallbackFormat response).
Proof.
  assert (P : forall d, In c (push_named d) -> JS.truthy (name c) = true /\ c = d).
  { intros d H. unfold push_named in H.
    destruct (JS.truthy (name d)) eqn:E; [|contradiction].
    destruct H as [<- | []]. auto. }
  unfold parseLLMResponse.
  destruct (JS.includes "- **" response && JS.includes "**:" response).
  - intros H. apply P in H. destruct H as [H ->]. auto.
  - destruct (JS.includes "**" response && JS.includes "**" response).
    + intros H. apply in_flat_map in H. destruct H as (section & Hs & H).
      destruct (JS.truthy (JS.trim section)); [|contradiction].
      apply P in H. destruct H as [H ->]. split; [exact H|].
      right. left. exists section. auto.
    + intros H. apply P in H. destruct H as [H ->]. auto.
Qed.

Lemma headed_trim first p v :
  (forall c, first c = true -> JS.is_white_space c = false) ->
  (forall c, first c = true -> p c = true) ->
  headed first p v ->
  headed first p (JS.trim v)
  /\ all_chars p (JS.trim v) = true.
Proof.
  intros Hw Hp (x & w & -> & Hx & Hall).
  rewrite trim_cons_black by (apply Hw, Hx).
  split.
  - exists x, (JS.trimEnd w). split; [reflexivity|]. split; [exact Hx|].
    apply all_chars_trimEnd, Hall.
  - simpl. rewrite (Hp x Hx). simpl. apply all_chars_trimEnd, Hall.
Qed.

Lemma headed_starts_upper p v : headed capital p v -> starts_upper v.
Proof. intros (x & w & -> & Hx & _). exists x, w. auto. Qed.

Lemma capital_is_capital_or_space c :
  capital c = true -> capital_or_space c = true.
Proof. intros H. unfold capital_or_space. rewrite H. reflexivity. Qed.

(** The name taken by the first two grammars. *)
Lemma bold_name_shape text :
  let v := extract re_name (fun m => JS.trim (group 1 m)) "" text in
  v = ""
  \/ (trimmed v /\ starts_upper v /\ all_chars capital_or_space v = true).
Proof.
  unfold extract. destruct (exec re_name text) as [m|] eqn:E; [|left; reflexivity].
  right. apply re_name_headed in E.
  destruct (headed_trim capital capital_or_space (group 1 m)
              upper_not_white_space capital_is_capital_or_space E) as [H1 H2].
  split; [apply trimmed_trim|]. split; [|exact H2].
  apply (headed_starts_upper capital_or_space), H1.
Qed.

Lemma fallback_name_shape text :
  let v := extract re_fallback_name (fun m => JS.trim (group 1 m)) "Candidate"
             text in
  v = "Candidate"
  \/ (trimmed v /\ starts_upper v /\ all_chars capital_or_space v = true).
Proof.
  unfold extract.
  destruct (exec re_fallback_name text) as [m|] eqn:E; [|left; reflexivity].
  right. apply re_fallback_name_headed in E.
  destruct (headed_trim capital capital_or_space (group 1 m)
              upper_not_white_space capital_is_capital_or_space E) as [H1 H2].
  split; [apply trimmed_trim|]. split; [|exact H2].
  apply (headed_starts_upper capital_or_space), H1.
Qed.

(** X1: every record that [parseLLMResponse] returns has a name without
    white space at its ends that begins with a capital letter; the name is
    the placeholder "Candidate" or consists of capital letters and white
    space only. *)
Theorem record_names response c :
  In c (parseLLMResponse response) ->
  trimmed (name c)
  /\ starts_upper (name c)
  /\ (name c = "Candidate" \/ all_chars capital_or_space (name c) = true).
Proof.
  intros H. apply record_origin in H. destruct H as [Ht [-> | [(s & _ & ->) | ->]]].
  - destruct (bold_name_shape response) as [E | (H1 & H2 & H3)].
    + change (name (parseIndentedFormat response) = "") in E.
      rewrite E in Ht. discriminate.
    + auto.
  - destruct (bold_name_shape s) as [E | (H1 & H2 & H3)].
    + change (name (parseCandidateSection s) = "") in E.
      rewrite E in Ht. discriminate.
    + auto.
  - destruct (fallback_name_shape response) as [E | (H1 & H2 & H3)].
    + change (name (parseFallbackFormat response) = "Candidate") in E.
      rewrite E. split; [reflexivity|]. split; [|left; reflexivity].
      exists "C"%char, "andidate". split; reflexivity.
    + auto.
Qed.

Lemma record_names_witness :
  In (parseFallbackFormat "met JANE ROE at the fair")
     (parseLLMResponse "met JANE ROE at the fair")
  /\ name (parseFallbackFormat "met JANE ROE at the fair") = "JANE ROE"
  /\ trimmed (name (parseFallbackFormat "met JANE ROE at the fair")).
Proof.
  split; [left; reflexivity|]. split; [reflexivity|].
  apply (record_names "met JANE ROE at the fair"). left. reflexivity.
Defined.

(** X2: in every record the grade is empty or a digit followed by digits and
    dots, and the percentage is empty or one or more digits followed by a
    percent sign. *)
Theorem record_scores response c :
  In c (parseLLMResponse response) ->
  (cgpa c = "" \/ headed JS.is_digit digit_or_dot (cgpa c))
  /\ (percentage c = ""
      \/ exists ds, percentage c = ds ++ "%" /\ headed JS.is_digit JS.is_digit ds).
Proof.
  assert (G : forall text,
    let v := extract re_cgpa (group 1) "" text in
    v = "" \/ headed JS.is_digit digit_or_dot v).
  { intros text. unfold extract.
    destruct (exec re_cgpa text) as [m|] eqn:E; [|left; reflexivity].
    right. apply re_cgpa_number in E. exact E. }
  assert (Q : forall text,
    let v := extract re_percentage (fun m => group 1 m ++ "%") "" text in
    v = "" \/ exists ds, v = ds ++ "%" /\ headed JS.is_digit JS.is_digit ds).
  { intros text. unfold extract.
    destruct (exec re_percentage text) as [m|] eqn:E; [|left; reflexivity].
    right. exists (group 1 m). split; [reflexivity|].
    apply re_percentage_digits in E. exact E. }
  intros H. apply record_origin in H. destruct H as [_ [-> | [(s & _ & ->) | ->]]].
  - split; [apply (G response) | apply (Q response)].
  - split; [apply (G s) | apply (Q s)].
  - split; left; reflexivity.
Qed.

Lemma record_scores_witness :
  let c := nth 1 (parseLLMResponse Examples.two_candidates)
               (parseFallbackFormat "") in
  In c (parseLLMResponse Examples.two_candidates)
  /\ percentage c = "90%"
  /\ (percentage c = ""
      \/ exists ds, percentage c = ds ++ "%" /\ headed JS.is_digit JS.is_digit ds).
Proof.
  intros c.
  assert (H : In c (parseLLMResponse Examples.two_candidates)).
  { apply nth_In. vm_compute. lia. }
  split; [exact H|]. split; [vm_compute; reflexivity|].
  apply (record_scores Examples.two_candidates c H).
Defined.

End RecordFacts.

Section MoreRecordFacts.
Import Regex Text ResultCard.

Lemma append_assoc_string (a b c : string) : (a ++ b) ++ c = a ++ b ++ c.
Proof. induction a; simpl; [reflexivity | f_equal; assumption]. Qed.

Lemma rmatch_Atom_inv total a s c k res :
  rmatch total (Atom a) s c k = Some res ->
  exists x s', s = String x s' /\ atom_mem a x = true /\ k s' c = Some res.
Proof.
  simpl. destruct s as [|x s']; [discriminate|].
  destruct (atom_mem a x) eqn:E; [|discriminate].
  intros H. exists x, s'. auto.
Qed.

Lemma re_fallback_email_address text m :
  exec re_fallback_email text = Some m -> address (group 1 m).
Proof.
  apply exec_group. intros s0 res H.
  unfold re_fallback_email in H. simpl cat in H.
  change (rmatch ?t (Group 1 (Seq (Plus ?A) (Seq (Chr "@") (Seq (Plus ?B) ?R))))
            s0 [] accept)
    with (rmatch t A s0 []
            (fun s1 c1 =>
               rmatch t (Star true A) s1 c1
                 (fun s2 c2 =>
                    rmatch t (Chr "@") s2 c2
                      (fun s3 c3 =>
                         rmatch t B s3 c3
                           (fun s4 c4 =>
                              rmatch t (Seq (Star true B) R) s4 c4
                                (fun s5 c5 =>
                                   accept s5 ((1, consumed s0 s5) :: c5)))))))
    in H.
  apply rmatch_Atom_inv in H. destruct H as (x & s1 & -> & Ex & H).
  cbv beta in H.
  apply (rmatch_consumes local_char) in H; [|intros c Hc; exact Hc].
  destruct H as (w1 & s2 & H & -> & Hw1).
  apply rmatch_Atom_inv in H. destruct H as (y & s3 & -> & Ey & H).
  simpl in Ey. rewrite orb_false_r in Ey. apply Ascii.eqb_eq in Ey. subst y.
  cbv beta in H.
  apply rmatch_Atom_inv in H. destruct H as (z & s4 & -> & Ez & H).
  cbv beta in H.
  apply (rmatch_consumes domain_char) in H.
  - destruct H as (w2 & s5 & H & -> & Hw2).
    unfold accept in H. injection H as <-.
    exists (consumed (String x (w1 ++ String "@" (String z (w2 ++ s5)))) s5).
    split; [reflexivity|].
    replace (String x (w1 ++ String "@" (String z (w2 ++ s5))))
      with ((String x w1 ++ "@" ++ String z w2) ++ s5).
    + rewrite consumed_append.
      exists (String x w1), (String z w2).
      split; [reflexivity|]. split; [discriminate|]. split; [discriminate|].
      split; simpl.
      * unfold local_char at 1. rewrite Ex. exact Hw1.
      * unfold domain_char at 1. rewrite Ez. exact Hw2.
    + simpl. f_equal. rewrite append_assoc_string. reflexivity.
  - assert (D : forall c,
      atom_mem (OneOf [Rng "a" "z"; Rng "A" "Z"]) c = true -> domain_char c = true).
    { intros c Hc. unfold domain_char. simpl in *.
      destruct (JS.in_range "a" "z" c); [reflexivity|].
      destruct (JS.in_range "A" "Z" c); [reflexivity|]. discriminate. }
    simpl. repeat split; try (intros c Hc; exact Hc); try exact D.
    intros c Hc. unfold domain_char. simpl in *.
    rewrite orb_false_r in Hc. rewrite Hc. repeat rewrite orb_true_r. reflexivity.
Qed.

Lemma domain_char_line c : domain_char c = true -> other_than nl c = true.
Proof.
  destruct c as [[] [] [] [] [] [] [] []]; vm_compute; congruence.
Qed.

Lemma local_char_line c : local_char c = true -> other_than nl c = true.
Proof.
  destruct c as [[] [] [] [] [] [] [] []]; vm_compute; congruence.
Qed.

Lemma address_line v : address v -> all_chars (other_than nl) v = true.
Proof.
  intros (loc & dom & -> & _ & _ & Hl & Hd).
  rewrite !all_chars_append.
  rewrite (all_chars_weaken _ _ _ local_char_line Hl).
  rewrite (all_chars_weaken _ _ _ domain_char_line Hd). reflexivity.
Qed.

Lemma local_char_black c : local_char c = true -> JS.is_white_space c = false.
Proof.
  destruct c as [[] [] [] [] [] [] [] []]; vm_compute; congruence.
Qed.

Lemma domain_char_black c : domain_char c = true -> JS.is_white_space c = false.
Proof.
  destruct c as [[] [] [] [] [] [] [] []]; vm_compute; congruence.
Qed.

Lemma trimEnd_black_end w x :
  JS.is_white_space x = false ->
  JS.trimEnd (w ++ String x "") = w ++ String x "".
Proof.
  intros Hx. induction w as [|y w IH]; simpl.
  - rewrite Hx. reflexivity.
  - rewrite IH. destruct w; simpl; rewrite andb_false_r; reflexivity.
Qed.

Lemma all_chars_last p x w :
  all_chars p (String x w) = true ->
  exists w' y, String x w = w' ++ String y "" /\ p y = true.
Proof.
  revert x. induction w as [|z w IH]; intros x H.
  - exists "", x. simpl in H. rewrite andb_true_r in H. auto.
  - simpl in H. apply andb_true_iff in H. destruct H as [Hx H].
    destruct (IH z H) as (w' & y & E & Hy).
    exists (String x w'), y. simpl. rewrite E. auto.
Qed.

Lemma address_trimmed v : address v -> trimmed v.
Proof.
  intros (loc & dom & -> & Hl & Hd & Al & Ad).
  destruct loc as [|x loc]; [contradiction|].
  destruct dom as [|z dom]; [contradiction|].
  destruct (all_chars_last _ _ _ Ad) as (w' & y & E & Hy).
  unfold trimmed. rewrite E. simpl in Al. apply andb_true_iff in Al.
  destruct Al as [Hx _].
  change (String x loc ++ "@" ++ w' ++ String y "")
    with (String x (loc ++ "@" ++ w' ++ String y "")).
  rewrite trim_cons_black by (apply local_char_black, Hx).
  f_equal.
  replace (loc ++ "@" ++ w' ++ String y "")
    with ((loc ++ "@" ++ w') ++ String y "").
  - apply trimEnd_black_end, domain_char_black, Hy.
  - rewrite append_assoc_string. reflexivity.
Qed.

(** X3: in every record the e-mail address and the phone number hold no line
    feed and have no white space at their ends. *)
Theorem record_contact_lines response c :
  In c (parseLLMResponse response) ->
  (all_chars (other_than nl) (email c) = true /\ trimmed (email c))
  /\ (all_chars (other_than nl) (phone c) = true /\ trimmed (phone c)).
Proof.
  assert (E : forall text,
    let v := extract re_email (fun m => JS.trim (group 1 m)) "" text in
    all_chars (other_than nl) v = true /\ trimmed v).
  { intros text. unfold extract.
    destruct (exec re_email text) as [m|] eqn:X; [|split; reflexivity].
    split; [|apply trimmed_trim]. apply all_chars_trim, (re_email_line text), X. }
  assert (P : forall text,
    let v := extract re_phone (fun m => JS.trim (group 1 m)) "" text in
    all_chars (other_than nl) v = true /\ trimmed v).
  { intros text. unfold extract.
    destruct (exec re_phone text) as [m|] eqn:X; [|split; reflexivity].
    split; [|apply trimmed_trim]. apply all_chars_trim, (re_phone_line text), X. }
  intros H. apply record_origin in H. destruct H as [_ [-> | [(s & _ & ->) | ->]]].
  - destruct (E response), (P response). auto.
  - destruct (E s), (P s). auto.
  - split; [|split; reflexivity].
    change (email (parseFallbackFormat response))
      with (extract re_fallback_email (group 1) "" response).
    unfold extract.
    destruct (exec re_fallback_email response) as [m|] eqn:X;
      [|split; reflexivity].
    apply (re_fallback_email_address response) in X.
    split; [apply address_line, X | apply address_trimmed, X].
Qed.

Lemma record_contact_lines_witness :
  let c := nth 1 (parseLLMResponse Examples.two_candidates)
               (parseFallbackFormat "") in
  In c (parseLLMResponse Examples.two_candidates)
  /\ phone c = "555 0100"
  /\ all_chars (other_than nl) (phone c) = true /\ trimmed (phone c).
Proof.
  intros c.
  assert (H : In c (parseLLMResponse Examples.two_candidates)).
  { apply nth_In. vm_compute. lia. }
  split; [exact H|]. split; [vm_compute; reflexivity|].
  apply (record_contact_lines Examples.two_candidates c H).
Defined.

(** X4: the address taken by the fallback grammar is empty or has the form
    local@domain, both parts non-empty and made of the characters of the
    pattern, so it holds exactly one at-sign and no white space. *)
Theorem fallback_email_address response :
  email (parseFallbackFormat response) = ""
  \/ address (email (parseFallbackFormat response)).
Proof.
  change (email (parseFallbackFormat response))
    with (extract re_fallback_email (group 1) "" response).
  unfold extract.
  destruct (exec re_fallback_email response) as [m|] eqn:X; [|left; reflexivity].
  right. apply (re_fallback_email_address response), X.
Qed.

Lemma skill_list_elements m1 x :
  In x (skill_list m1) ->
  x <> "" /\ trimmed x /\ all_chars (other_than ",") x = true.
Proof.
  unfold skill_list. intros H. apply filter_In in H. destruct H as [H Ht].
  apply in_map_iff in H. destruct H as (piece & <- & Hp).
  split; [intros E; rewrite E in Ht; discriminate|].
  split; [apply trimmed_trim|].
  apply all_chars_trim, (split_pieces _ _ _ Hp).
Qed.

(** X5: in every record each skill is a non-empty text without white space
    at its ends and without a comma. *)
Theorem record_skills response c x :
  In c (parseLLMResponse response) ->
  In x (skills c) ->
  x <> "" /\ trimmed x /\ all_chars (other_than ",") x = true.
Proof.
  assert (S : forall r text, In x (extract_skills r text) ->
              x <> "" /\ trimmed x /\ all_chars (other_than ",") x = true).
  { intros r text. unfold extract_skills.
    destruct (exec r text) as [m|]; [apply skill_list_elements | contradiction]. }
  intros H. apply record_origin in H.
  destruct H as [_ [-> | [(s & _ & ->) | ->]]]; apply S.
Qed.

Lemma record_skills_witness :
  let c := nth 0 (parseLLMResponse Examples.two_candidates)
               (parseFallbackFormat "") in
  In c (parseLLMResponse Examples.two_candidates)
  /\ In "AWS" (skills c)
  /\ trimmed "AWS".
Proof.
  intros c.
  assert (H : In c (parseLLMResponse Examples.two_candidates)).
  { apply nth_In. vm_compute. lia. }
  assert (X : In "AWS" (skills c)) by (vm_compute; right; left; reflexivity).
  split; [exact H|]. split; [exact X|].
  apply (record_skills Examples.two_candidates c "AWS" H X).
Defined.

(** X6: the additional text of a record of the second grammar is one line
    without white space at its ends. *)
Theorem section_additionalInfo_line section :
  all_chars (other_than nl) (additionalInfo (parseCandidateSection section)) = true
  /\ trimmed (additionalInfo (parseCandidateSection section)).
Proof.
  split; [|apply trimmed_trim].
  apply all_chars_trim. apply all_chars_concat; [reflexivity|].
  intros line H. apply filter_In in H. destruct H as [H _].
  apply (split_pieces _ _ _ H).
Qed.

End MoreRecordFacts.

(** ** Sections of a reply *)

Section DispatchFacts.
Import Regex Text ResultCard ChatView.

Lemma exec_from_matched total r s idx m :
  exec_from total r s idx = Some m ->
  exists s0 s1 c1,
    rmatch total r s0 [] accept = Some (s1, c1) /\ matched m = consumed s0 s1.
Proof.
  revert idx. induction s as [|x s IH]; intros idx H; simpl in H.
  - destruct (rmatch total r "" [] accept) as [[s1 c1]|] eqn:E; [|discriminate].
    injection H as <-. exists "", s1, c1. auto.
  - destruct (rmatch total r (String x s) [] accept) as [[s1 c1]|] eqn:E.
    + injection H as <-. exists (String x s), s1, c1. auto.
    + apply IH in H. exact H.
Qed.

Lemma rmatch_Lit_text total l s c k res :
  rmatch total (Lit l) s c k = Some res ->
  exists s1, s = l ++ s1 /\ k s1 c = Some res.
Proof.
  revert s. induction l as [|x l IH]; intros s H; simpl in H.
  - exists s. auto.
  - destruct s as [|y s']; [discriminate|].
    destruct (orb _ _) eqn:E; [|discriminate].
    rewrite orb_false_r in E. apply Ascii.eqb_eq in E. subst y.
    apply IH in H. destruct H as (s1 & -> & H). exists s1. auto.
Qed.

(** X7: the additional text of a record of the first grammar is empty or one
    sentence: "This candidate has", a text without a full stop, and a full
    stop. *)
Theorem indented_additionalInfo_sentence response :
  additionalInfo (parseIndentedFormat response) = ""
  \/ exists w,
       additionalInfo (parseIndentedFormat response)
       = "This candidate has" ++ w ++ "."
       /\ all_chars (other_than ".") w = true.
Proof.
  change (additionalInfo (parseIndentedFormat response))
    with (extract re_additional matched "" response).
  unfold extract, exec.
  destruct (exec_from _ re_additional response 0) as [m|] eqn:E;
    [|left; reflexivity].
  right. apply exec_from_matched in E. destruct E as (s0 & s1 & c1 & H & ->).
  change (rmatch ?t re_additional s0 [] accept)
    with (rmatch t (Lit "This candidate has") s0 []
            (fun s2 c2 =>
               rmatch t (Star true (Atom (NoneOf [Ch "."]))) s2 c2
                 (fun s3 c3 => rmatch t (Chr ".") s3 c3 accept))) in H.
  apply rmatch_Lit_text in H. destruct H as (s2 & -> & H).
  apply (rmatch_consumes (other_than ".")) in H.
  - destruct H as (w & s3 & H & -> & Hw).
    apply rmatch_Atom_inv in H. destruct H as (y & s4 & -> & Ey & H).
    simpl in Ey. rewrite orb_false_r in Ey. apply Ascii.eqb_eq in Ey. subst y.
    unfold accept in H. injection H as <- _.
    exists w. split; [|exact Hw].
    replace ("This candidate has" ++ w ++ String "." s4)
      with (("This candidate has" ++ w ++ ".") ++ s4).
    + apply consumed_append.
    + rewrite !append_assoc_string. reflexivity.
  - simpl. intros c Hc. rewrite orb_false_r in Hc. exact Hc.
Qed.

Lemma split_tail_nonempty total r s : split_tail total r s <> [].
Proof.
  destruct s as [|x s]; simpl; [discriminate|].
  destruct (split_tail total r s); [discriminate|].
  destruct (ahead total r s && negb (s =? "")); discriminate.
Qed.

Lemma split_tail_concat total r s :
  String.concat "" (split_tail total r s) = s.
Proof.
  induction s as [|x s IH]; [reflexivity|].
  simpl split_tail.
  pose proof (split_tail_nonempty total r s) as Hn.
  destruct (split_tail total r s) as [|h t]; [contradiction|].
  destruct (ahead total r s && negb (s =? "")).
  - rewrite <- IH. reflexivity.
  - rewrite <- IH. destruct t; reflexivity.
Qed.

Lemma split_tail_pieces total r s piece :
  In piece (split_tail total r s) -> piece = "" -> s = "".
Proof.
  revert piece. induction s as [|x s IH]; intros piece H E; [reflexivity|].
  exfalso. simpl in H.
  pose proof (split_tail_nonempty total r s) as Hn.
  destruct (split_tail total r s) as [|h t] eqn:Es; [contradiction|].
  destruct (ahead total r s && negb (s =? "")) eqn:Ea.
  - destruct H as [H | H]; [subst; discriminate|].
    apply andb_true_iff in Ea. destruct Ea as [_ Ea].
    rewrite (IH piece H E) in Ea. discriminate.
  - destruct H as [H | H]; [subst; discriminate|].
    assert (X : s = "") by (apply (IH piece); [right; exact H | exact E]).
    subst s. simpl in Es. injection Es as <- <-. contradiction.
Qed.

(** X8: the sections of a reply, put together in their order, give the reply
    back, and no section is empty unless the reply is. *)
Theorem sections_partition response :
  String.concat "" (sections response) = response
  /\ sections response <> []
  /\ (response <> "" -> forall section, In section (sections response) ->
                                        section <> "").
Proof.
  split; [apply split_tail_concat|]. split; [apply split_tail_nonempty|].
  intros Hr section H E. apply Hr.
  apply (split_tail_pieces _ _ _ _ H E).
Qed.

Lemma sections_partition_witness :
  Examples.two_candidates <> ""
  /\ length (sections Examples.two_candidates) = 3
  /\ String.concat "" (sections Examples.two_candidates) = Examples.two_candidates.
Proof.
  split; [discriminate|]. split; [reflexivity|].
  apply (sections_partition Examples.two_candidates).
Defined.

End DispatchFacts.

(** ** Success of a match does not depend on captures or position *)

Section SuccessFacts.
Import Regex Text ResultCard ChatView.

Lemma succeeds_orelse {A} (a b : option A) :
  succeeds (match a with Some x => Some x | None => b end)
  = succeeds a || succeeds b.
Proof. destruct a; reflexivity. Qed.

Lemma star_loop_success m1 m2 greedy :
  (forall k1 k2, same_success k1 k2 ->
     forall s c1 c2, succeeds (m1 s c1 k1) = succeeds (m2 s c2 k2)) ->
  forall n k1 k2, same_success k1 k2 ->
    forall s c1 c2,
      succeeds (star_loop m1 greedy k1 n s c1)
      = succeeds (star_loop m2 greedy k2 n s c2).
Proof.
  intros Hm n. induction n as [|n IH]; intros k1 k2 Hk s c1 c2; simpl.
  - destruct greedy; [apply Hk|].
    rewrite !succeeds_orelse, (Hk s c1 c2). reflexivity.
  - assert (E : succeeds
                  (m1 s c1 (fun s1 c =>
                     if (String.length s1 <? String.length s)%nat
                     then star_loop m1 greedy k1 n s1 c else None))
                = succeeds
                    (m2 s c2 (fun s1 c =>
                       if (String.length s1 <? String.length s)%nat
                       then star_loop m2 greedy k2 n s1 c else None))).
    { apply Hm. intros s1 d1 d2.
      destruct (String.length s1 <? String.length s)%nat; [|reflexivity].
      apply IH, Hk. }
    destruct greedy; rewrite !succeeds_orelse, E, (Hk s c1 c2); reflexivity.
Qed.

(** Whether a pattern matches does not depend on the captures. *)
Lemma rmatch_success total r :
  forall k1 k2, same_success k1 k2 ->
    forall s c1 c2,
      succeeds (rmatch total r s c1 k1) = succeeds (rmatch total r s c2 k2).
Proof.
  induction r as [|a|r1 IH1 r2 IH2|r1 IH1 r2 IH2|g r IH|n r IH|p r IH|];
    intros k1 k2 Hk s c1 c2; simpl.
  - apply Hk.
  - destruct s as [|x s']; [reflexivity|].
    destruct (atom_mem a x); [apply Hk | reflexivity].
  - apply IH1. intros s1 d1 d2. apply IH2, Hk.
  - rewrite !succeeds_orelse, (IH1 k1 k2 Hk s c1 c2), (IH2 k1 k2 Hk s c1 c2).
    reflexivity.
  - apply star_loop_success; [exact IH | exact Hk].
  - apply IH. intros s1 d1 d2. apply Hk.
  - assert (E : succeeds (rmatch total r s c1 (fun s1 c => Some (s1, c)))
                = succeeds (rmatch total r s c2 (fun s1 c => Some (s1, c)))).
    { apply IH. intros s1 d1 d2. reflexivity. }
    destruct (rmatch total r s c1 _) as [[? d1]|];
      destruct (rmatch total r s c2 _) as [[? d2]|];
      try discriminate; destruct p; try reflexivity; apply Hk.
  - destruct (String.length s =? total)%nat; [apply Hk | reflexivity].
Qed.

Lemma same_success_accept : same_success accept accept.
Proof. intros s c1 c2. reflexivity. Qed.

(** The splitter looks ahead for the pattern of the name. *)
Lemma ahead_header total s :
  ahead total re_header s = succeeds (rmatch total re_name s [] accept).
Proof.
  unfold ahead.
  change (rmatch total (Look true re_header) s [] accept)
    with (match rmatch total re_header s [] accept with
          | Some (_, c1) => accept s c1
          | None => None
          end).
  transitivity (succeeds (rmatch total re_header s [] accept)).
  { destruct (rmatch total re_header s [] accept) as [[? ?]|]; reflexivity. }
  change (rmatch total re_header s [] accept)
    with (rmatch total (Lit "**") s []
            (fun s1 c1 =>
               rmatch total (Seq (Atom (OneOf [upper]))
                                 (Plus (Atom (OneOf [upper; Space]))))
                 s1 c1 (fun s2 c2 => rmatch total (Lit "**") s2 c2 accept))).
  change (rmatch total re_name s [] accept)
    with (rmatch total (Lit "**") s []
            (fun s1 c1 =>
               rmatch total (Seq (Atom (OneOf [upper]))
                                 (Plus (Atom (OneOf [upper; Space]))))
                 s1 c1
                 (fun s2 c2 =>
                    rmatch total (Lit "**") s2 ((1, consumed s1 s2) :: c2)
                      accept))).
  apply rmatch_success. intros s1 d1 d2.
  apply rmatch_success. intros s2 e1 e2.
  apply rmatch_success. exact same_success_accept.
Qed.

Lemma exec_from_none_here total r x s idx :
  exec_from total r (String x s) idx = None ->
  rmatch total r (String x s) [] accept = None
  /\ exec_from total r s (S idx) = None.
Proof.
  simpl. destruct (rmatch total r (String x s) [] accept) as [[? ?]|];
    [discriminate | auto].
Qed.

Lemma exec_from_none_start total r s idx :
  exec_from total r s idx = None -> rmatch total r s [] accept = None.
Proof.
  destruct s as [|x s].
  - simpl. destruct (rmatch total r "" [] accept) as [[? ?]|];
      [discriminate | reflexivity].
  - intros H. apply exec_from_none_here in H. apply H.
Qed.

(** Without a header there is one section, the whole text. *)
Lemma no_header_one_section total s idx :
  exec_from total re_name s idx = None -> split_tail total re_header s = [s].
Proof.
  revert idx. induction s as [|x s IH]; intros idx H; [reflexivity|].
  apply exec_from_none_here in H. destruct H as [_ H].
  simpl. rewrite (IH _ H), ahead_header, (exec_from_none_start _ _ _ _ H).
  reflexivity.
Qed.

Lemma exec_from_index_irrelevant total r s i j :
  exec_from total r s i = None -> exec_from total r s j = None.
Proof.
  revert i j. induction s as [|x s IH]; intros i j; simpl;
    destruct (rmatch total r _ [] accept) as [[? ?]|]; try discriminate; auto.
  apply IH.
Qed.

Lemma star_loop_matcher_ext m1 m2 greedy k :
  extensional m2 ->
  (forall s c k, m1 s c k = m2 s c k) ->
  forall n s c, star_loop m1 greedy k n s c = star_loop m2 greedy k n s c.
Proof.
  intros He Hm n. induction n as [|n IH]; intros s c; simpl; [reflexivity|].
  rewrite Hm.
  rewrite (He s c _ (fun s1 c1 =>
             if (String.length s1 <? String.length s)%nat
             then star_loop m2 greedy k n s1 c1 else None)); [reflexivity|].
  intros s1 c1. destruct (String.length s1 <? String.length s)%nat;
    [apply IH | reflexivity].
Qed.

(** A pattern without [^] does not look at the length of the subject. *)
Lemma rmatch_no_anchor t1 t2 r :
  no_anchor r = true ->
  forall s c k, rmatch t1 r s c k = rmatch t2 r s c k.
Proof.
  induction r as [|a|r1 IH1 r2 IH2|r1 IH1 r2 IH2|g r IH|n r IH|p r IH|];
    intros Hn s c k; simpl in *; try discriminate; try reflexivity.
  - apply andb_true_iff in Hn. destruct Hn as [H1 H2].
    rewrite (IH1 H1). apply rmatch_extensional. intros s1 c1. apply (IH2 H2).
  - apply andb_true_iff in Hn. destruct Hn as [H1 H2].
    rewrite (IH1 H1), (IH2 H2). reflexivity.
  - apply star_loop_matcher_ext; [apply rmatch_extensional | apply (IH Hn)].
  - apply (IH Hn).
  - rewrite (IH Hn). reflexivity.
Qed.

Lemma exec_from_no_anchor t1 t2 r s idx :
  no_anchor r = true -> exec_from t1 r s idx = exec_from t2 r s idx.
Proof.
  intros Hn. revert idx. induction s as [|x s IH]; intros idx; simpl;
    rewrite (rmatch_no_anchor t1 t2 r Hn); [reflexivity|].
  rewrite IH. reflexivity.
Qed.

(** With a header, some section has a header of its own. *)
Lemma header_in_some_section total s idx :
  exec_from total re_name s idx <> None ->
  exists section,
    In section (split_tail total re_header s)
    /\ exec re_name section <> None.
Proof.
  revert idx. induction s as [|x s IH]; intros idx H.
  - exfalso. apply H. reflexivity.
  - destruct (exec_from total re_name s (S idx)) eqn:Et.
    + destruct (IH (S idx)) as (section & Hin & Hs); [rewrite Et; discriminate|].
      simpl split_tail.
      destruct (split_tail total re_header s) as [|h t]; [contradiction|].
      destruct (ahead total re_header s && negb (s =? "")).
      * exists section. split; [right; exact Hin | exact Hs].
      * destruct Hin as [<- | Hin].
        -- exists (String x h). split; [left; reflexivity|].
           intros E. apply Hs. unfold exec in *.
           apply exec_from_none_here in E. destruct E as [_ E].
           rewrite (exec_from_no_anchor _ (String.length (String x h)))
             by reflexivity.
           apply (exec_from_index_irrelevant _ _ _ _ _ E).
        -- exists section. split; [right; exact Hin | exact Hs].
    + assert (Es : split_tail total re_header (String x s) = [String x s]).
      { simpl. rewrite (no_header_one_section _ _ _ Et), ahead_header.
        rewrite (exec_from_none_start _ _ _ _ Et). reflexivity. }
      exists (String x s). rewrite Es. split; [left; reflexivity|].
      intros E. apply H. unfold exec in E.
      rewrite (exec_from_no_anchor _ total) in E by reflexivity.
      apply (exec_from_index_irrelevant _ _ _ _ _ E).
Qed.

End SuccessFacts.

(** ** The dispatcher and its caller *)

Section DispatchTheorems.
Import Regex Text ResultCard ChatView.

Lemma includes_tail sub x s :
  JS.includes sub s = true -> JS.includes sub (String x s) = true.
Proof.
  intros H.
  change (JS.includes sub (String x s))
    with (if String.prefix sub (String x s) then true else JS.includes sub s).
  rewrite H. destruct (String.prefix sub (String x s)); reflexivity.
Qed.

Lemma prefix_cons_inv a p s :
  String.prefix (String a p) s = true ->
  exists s', s = String a s' /\ String.prefix p s' = true.
Proof.
  destruct s as [|x s]; [discriminate|].
  change (String.prefix (String a p) (String x s))
    with (if ascii_dec a x then String.prefix p s else false).
  destruct (ascii_dec a x); [|discriminate].
  subst. intros H. exists s. auto.
Qed.

(** The cue of the first grammar holds the bold marker. *)
Lemma bullet_has_marker s :
  JS.includes "- **" s = true -> JS.includes "**" s = true.
Proof.
  induction s as [|x s IH]; [discriminate|].
  change (JS.includes "- **" (String x s))
    with (if String.prefix "- **" (String x s) then true
          else JS.includes "- **" s).
  destruct (String.prefix "- **" (String x s)) eqn:E.
  - intros _.
    apply prefix_cons_inv in E. destruct E as (s1 & E1 & E).
    apply prefix_cons_inv in E. destruct E as (s2 & -> & E).
    apply prefix_cons_inv in E. destruct E as (s3 & -> & E).
    apply prefix_cons_inv in E. destruct E as (s4 & -> & E).
    injection E1 as -> ->.
    apply includes_tail, includes_tail.
    change (JS.includes "**" (String "*" (String "*" s4)))
      with (if String.prefix "**" (String "*" (String "*" s4)) then true
            else JS.includes "**" (String "*" s4)).
    assert (P : String.prefix "**" (String "*" (String "*" s4)) = true)
      by (apply prefix_correct; destruct s4; reflexivity).
    rewrite P. reflexivity.
  - intros H. apply includes_tail, IH, H.
Qed.

Lemma named_truthy text :
  JS.truthy (extract re_name (fun m => JS.trim (group 1 m)) "" text)
  = succeeds (exec re_name text).
Proof.
  rewrite extract_name_truthy by (intros m; apply re_name_group).
  destruct (exec re_name text); reflexivity.
Qed.

Lemma fallback_named text :
  JS.truthy (name (parseFallbackFormat text)) = true.
Proof.
  change (name (parseFallbackFormat text))
    with (extract re_fallback_name (fun m => JS.trim (group 1 m)) "Candidate"
            text).
  rewrite extract_name_truthy by (intros m; apply re_fallback_name_group).
  destruct (exec re_fallback_name text); reflexivity.
Qed.

(** Without the bold marker the dispatcher takes its last branch. *)
Lemma unmarked_dispatch response :
  JS.includes "**" response = false ->
  parseLLMResponse response = push_named (parseFallbackFormat response).
Proof.
  intros H. unfold parseLLMResponse.
  destruct (JS.includes "- **" response) eqn:E.
  - apply bullet_has_marker in E. congruence.
  - rewrite H. reflexivity.
Qed.

(** A marked text with a bold header of capitals gives a record. *)
Lemma header_gives_record response m :
  JS.includes "**" response = true ->
  exec re_name response = Some m ->
  parseLLMResponse response <> [].
Proof.
  intros Em Ex H.
  unfold parseLLMResponse in H. rewrite Em in H. simpl andb in H.
  destruct (JS.includes "- **" response && JS.includes "**:" response).
  - unfold push_named in H.
    change (name (parseIndentedFormat response))
      with (extract re_name (fun m => JS.trim (group 1 m)) "" response) in H.
    rewrite named_truthy, Ex in H. discriminate.
  - destruct (header_in_some_section (String.length response) response 0)
      as (section & Hin & Hs).
    { fold (exec re_name response). rewrite Ex. discriminate. }
    assert (X : In (parseCandidateSection section)
                   (flat_map
                      (fun section =>
                         if JS.truthy (JS.trim section)
                         then push_named (parseCandidateSection section)
                         else [])
                      (sections response))).
    { apply in_flat_map. exists section. split; [exact Hin|].
      assert (N : JS.truthy (name (parseCandidateSection section)) = true).
      { rewrite name_of_section, named_truthy.
        destruct (exec re_name section); [reflexivity | contradiction]. }
      destruct (JS.truthy (JS.trim section)) eqn:Et.
      - unfold push_named. rewrite N. left. reflexivity.
      - rewrite (blank_section_unnamed _ Et) in N. discriminate. }
    rewrite H in X. contradiction.
Qed.

(** A marked text without a bold header of capitals gives no record. *)
Lemma no_header_no_record response :
  JS.includes "**" response = true ->
  exec re_name response = None ->
  parseLLMResponse response = [].
Proof.
  intros Em Ex. unfold parseLLMResponse. rewrite Em. simpl andb.
  assert (N : forall d,
    name d = extract re_name (fun m => JS.trim (group 1 m)) "" response ->
    push_named d = []).
  { intros d E. unfold push_named. rewrite E, named_truthy, Ex. reflexivity. }
  destruct (JS.includes "- **" response && JS.includes "**:" response).
  - apply N. reflexivity.
  - unfold sections, split_lookahead.
    rewrite (no_header_one_section _ _ 0 Ex). simpl.
    rewrite (N (parseCandidateSection response) eq_refl).
    destruct (JS.truthy (JS.trim response)); reflexivity.
Qed.

(** X9: a text without the bold marker always goes to the fallback grammar,
    whatever else it holds, and gives exactly one record. *)
Theorem unmarked_text_falls_back response :
  JS.includes "**" response = false ->
  parseLLMResponse response = [parseFallbackFormat response].
Proof.
  intros H. rewrite (unmarked_dispatch _ H).
  unfold push_named. rewrite fallback_named. reflexivity.
Qed.

Lemma unmarked_text_falls_back_witness :
  JS.includes "**" "a plain answer" = false
  /\ parseLLMResponse "a plain answer" = [parseFallbackFormat "a plain answer"].
Proof.
  split; [reflexivity|].
  apply (unmarked_text_falls_back "a plain answer"). reflexivity.
Defined.

(** X10: [parseLLMResponse] returns no record exactly when the text holds the
    bold marker but no bold header of capitals. *)
Theorem no_record_iff_no_header response :
  parseLLMResponse response = []
  <-> JS.includes "**" response = true /\ exec re_name response = None.
Proof.
  split.
  - intros H. destruct (JS.includes "**" response) eqn:Em.
    + split; [reflexivity|].
      destruct (exec re_name response) as [m|] eqn:Ex; [|reflexivity].
      exfalso. exact (header_gives_record _ _ Em Ex H).
    + rewrite (unmarked_dispatch _ Em) in H. unfold push_named in H.
      rewrite fallback_named in H. discriminate.
  - intros [Em Ex]. apply no_header_no_record; assumption.
Qed.

(** X11: an assistant message that is not the JSON text of an array is shown
    as its own text exactly when it holds no bold marker; otherwise it is
    shown as the cards of [parseLLMResponse], and there is no card at all,
    so nothing of the message is shown, exactly when it has no bold header
    of capitals. *)
Theorem legacy_message_rendering (J : Type) content :
  (JS.includes "**" content = false ->
   renderAssistant (J := J) None content = Bubble content)
  /\ (JS.includes "**" content = true ->
      renderAssistant (J := J) None content
      = LegacyCards (parseLLMResponse content)
      /\ (renderAssistant (J := J) None content = LegacyCards []
          <-> exec re_name content = None)).
Proof.
  unfold renderAssistant. split; intros H; rewrite H; [reflexivity|].
  split; [reflexivity|].
  split.
  - intros E. injection E as E.
    destruct (exec re_name content) as [m|] eqn:Ex; [|reflexivity].
    exfalso. exact (header_gives_record _ _ H Ex E).
  - intros E. rewrite (no_header_no_record _ H E). reflexivity.
Qed.

Lemma legacy_message_rendering_witness :
  JS.includes "**" "rated ** out of five" = true
  /\ renderAssistant (J := unit) None "rated ** out of five" = LegacyCards [].
Proof.
  split; [reflexivity|].
  destruct (legacy_message_rendering unit "rated ** out of five") as [_ H].
  destruct (H eq_refl) as [_ [_ H2]].
  apply H2. reflexivity.
Defined.

End DispatchTheorems.

(** ** Where the match percentage reaches 100 and 0 *)

Section MatchThresholds.
Import Binary64 MatchDisplay.
Open Scope Q_scope.

(** Where the percentage changes between two neighbouring machine numbers
    [t] and [t + 2^e], it has the value of [t] up to [t] and that of the
    neighbour above. *)
Lemma match_percentage_step t d :
  0 < t -> round64 t == t -> round64 d == d -> 0 <= d ->
  (d <= t -> (match_percentage t <= match_percentage d)%Z)
  /\ (t < d ->
      (match_percentage d <= match_percentage (t + pow2 (ulp_exp t)))%Z).
Proof.
  intros Ht Et Ed Hd. split; intros H.
  - apply match_percentage_antitone; assumption.
  - apply match_percentage_antitone.
    + pose proof (pow2_pos (ulp_exp t)). lra.
    + apply next_double; assumption.
Qed.

(** X12: for a finite machine number [d >= 0] the percentage shown is 100
    exactly when [d <= 0x1.49539e3b2d08p-8], a number a little above 1/199,
    and 0 exactly when [d > 199]. *)
Theorem match_percentage_extremes d :
  finite64 d -> 0 <= d ->
  (match_percentage d = 100%Z <-> d <= 0x1.49539e3b2d08p-8)
  /\ (match_percentage d = 0%Z <-> 199 < d).
Proof.
  intros [Ed _] Hd.
  destruct (match_percentage_range d Hd) as [B0 B100].
  destruct (match_percentage_step 0x1.49539e3b2d08p-8 d) as [L1 U1];
    [reflexivity | reflexivity | exact Ed | exact Hd |].
  destruct (match_percentage_step 199 d) as [L2 U2];
    [reflexivity | reflexivity | exact Ed | exact Hd |].
  assert (V1 : match_percentage 0x1.49539e3b2d08p-8 = 100%Z)
    by (vm_compute; reflexivity).
  assert (V2 : match_percentage
                 (0x1.49539e3b2d08p-8 + pow2 (ulp_exp 0x1.49539e3b2d08p-8))
               = 99%Z) by (vm_compute; reflexivity).
  assert (V3 : match_percentage 199 = 1%Z) by (vm_compute; reflexivity).
  assert (V4 : match_percentage (199 + pow2 (ulp_exp 199)) = 0%Z)
    by (vm_compute; reflexivity).
  rewrite V1 in L1. rewrite V2 in U1. rewrite V3 in L2. rewrite V4 in U2.
  split; split; intros H.
  - apply Qnot_lt_le. intros X. specialize (U1 X). lia.
  - specialize (L1 H). lia.
  - apply Qnot_le_lt. intros X. specialize (L2 X). lia.
  - specialize (U2 H). lia.
Qed.

Lemma match_percentage_extremes_witness :
  finite64 200 /\ match_percentage 200 = 0%Z.
Proof.
  assert (F : finite64 200) by (split; [reflexivity | vm_compute; discriminate]).
  split; [exact F|].
  apply (match_percentage_extremes 200 F); [discriminate | reflexivity].
Defined.

(** The bound of X12 lies above 1/199: at the machine numbers between the
    two the exact quotient is below 99.5 and 100 is shown all the same. *)
Lemma full_match_above_exact_bound :
  1 # 199 < 0x1.49539e3b2d067p-8
  /\ finite64 0x1.49539e3b2d067p-8
  /\ 100 * (1 / (1 + 0x1.49539e3b2d067p-8)) < 99 + (1 # 2)
  /\ match_percentage 0x1.49539e3b2d067p-8 = 100%Z.
Proof.
  split; [reflexivity|]. split; [split; [reflexivity | vm_compute; discriminate]|].
  split; [reflexivity | vm_compute; reflexivity].
Qed.

End MatchThresholds.

(** ** Intake: accepted submissions and the file cap *)

Section IntakeMore.
Import UseFileUpload Invariant.
Variable o : UseFileUploadOptions.
Variable current : list FileWithPreview.

Lemma check_of_pass n f :
  n < maxFiles o -> violates o f = false -> check o n f = None.
Proof.
  unfold check, violates. intros Hn Hv.
  apply Nat.leb_gt in Hn. rewrite Hn.
  apply orb_false_iff in Hv. destruct Hv as [-> ->]. reflexivity.
Qed.

Lemma with_ids_length n l : length (with_ids n l) = length l.
Proof. revert n. induction l; intros n; simpl; [reflexivity | rewrite IHl; reflexivity]. Qed.

Lemma with_ids_ids n l : map id (with_ids n l) = seq n (length l).
Proof. revert n. induction l; intros n; simpl; [reflexivity | rewrite IHl; reflexivity]. Qed.

Lemma with_ids_files n l : map file (with_ids n l) = l.
Proof. revert n. induction l; intros n; simpl; [reflexivity | rewrite IHl; reflexivity]. Qed.

(** A loop in which every file passes: no message, and the files get the
    next identifiers in their order. *)
Lemma scan_all_pass incoming : forall newErrors newFiles n,
  (forall f, In f incoming -> violates o f = false) ->
  length current + length newFiles + length incoming <= maxFiles o ->
  fold_left (scan_step o current) incoming (newErrors, newFiles, n)
  = (newErrors, (newFiles ++ with_ids n incoming)%list, n + length incoming).
Proof.
  induction incoming as [|f incoming IH]; intros newErrors newFiles n Hv Hc.
  - simpl. rewrite app_nil_r, Nat.add_0_r. reflexivity.
  - simpl fold_left.
    change (scan_step o current (newErrors, newFiles, n) f)
      with (match check o (length current + length newFiles) f with
            | Some e => ((newErrors ++ [e])%list, newFiles, n)
            | None =>
                (newErrors, (newFiles ++ [{| id := n; file := f |}])%list, S n)
            end).
    rewrite check_of_pass;
      [| simpl in Hc; lia | apply Hv; left; reflexivity].
    etransitivity.
    { apply IH.
      - intros g Hg. apply Hv. right. exact Hg.
      - rewrite length_app. simpl in *. lia. }
    rewrite <- app_assoc. simpl.
    replace (n + S (length incoming)) with (S (n + length incoming)) by lia.
    reflexivity.
Qed.

(** The identifiers given by a loop, whatever the files. *)
Lemma scan_ids incoming : forall newErrors newFiles n,
  exists more added,
    fold_left (scan_step o current) incoming (newErrors, newFiles, n)
    = ((newErrors ++ more)%list, (newFiles ++ added)%list, n + length added)
    /\ map id added = seq n (length added)
    /\ (added <> [] ->
        length current + length newFiles + length added <= maxFiles o).
Proof.
  induction incoming as [|f incoming IH]; intros newErrors newFiles n.
  - exists [], []. simpl. rewrite !app_nil_r, Nat.add_0_r.
    split; [reflexivity|]. split; [reflexivity|]. intros H. contradiction.
  - simpl fold_left.
    change (scan_step o current (newErrors, newFiles, n) f)
      with (match check o (length current + length newFiles) f with
            | Some e => ((newErrors ++ [e])%list, newFiles, n)
            | None =>
                (newErrors, (newFiles ++ [{| id := n; file := f |}])%list, S n)
            end).
    destruct (check o (length current + length newFiles) f) as [e|] eqn:E.
    + destruct (IH (newErrors ++ [e])%list newFiles n)
        as (more & added & Hf & Hids & Hcap).
      exists (e :: more), added.
      split; [etransitivity; [exact Hf|];
              rewrite <- (app_assoc newErrors); reflexivity|].
      auto.
    + destruct (IH newErrors (newFiles ++ [{| id := n; file := f |}])%list (S n))
        as (more & added & Hf & Hids & Hcap).
      exists more, ({| id := n; file := f |} :: added).
      apply check_passes in E. destruct E as [Hn _].
      split; [etransitivity; [exact Hf|];
              rewrite <- (app_assoc newFiles); simpl;
              replace (n + S (length added)) with (S (n + length added)) by lia;
              reflexivity|].
      split; [simpl; rewrite Hids; reflexivity|].
      intros _. destruct added as [|a added].
      * simpl. lia.
      * rewrite length_app in Hcap. simpl in *.
        assert (X : a :: added <> []) by discriminate.
        specialize (Hcap X). lia.
Qed.

End IntakeMore.

Section IntakeTheorems.
Import UseFileUpload UploadResume Removal Invariant Examples.

(** X13: when every file of a submission passes the size and type rules and
    the session stays within [maxFiles], [processFiles] clears the error
    list, gives the files the next identifiers in their order, adds them
    after the files already held (or in their place when [multiple] is off)
    and calls [onFilesChange] with the resulting list. *)
Theorem processFiles_accepts_submission o st incoming :
  (forall f, In f incoming -> violates o f = false) ->
  length (files st) + length incoming <= maxFiles o ->
  let updatedFiles :=
    if multiple o
    then (files st ++ with_ids (next_id st) incoming)%list
    else with_ids (next_id st) incoming in
  processFiles o st (Some incoming)
  = ({| files := updatedFiles; errors := [];
        next_id := next_id st + length incoming |},
     Some updatedFiles).
Proof.
  intros Hv Hc updatedFiles. subst updatedFiles.
  unfold processFiles, scan.
  rewrite (scan_all_pass o (files st) incoming [] [] (next_id st) Hv)
    by (simpl; lia).
  reflexivity.
Qed.

Lemma processFiles_accepts_submission_witness :
  let incoming := [pdf "a.pdf" 1000; pdf "b.pdf" 2000] in
  (forall f, In f incoming -> violates options f = false)
  /\ map id (files (fst (processFiles options (hook initial) (Some incoming))))
     = [0; 1].
Proof.
  split.
  - intros f [<- | [<- | []]]; reflexivity.
  - rewrite (processFiles_accepts_submission options (hook initial)
               [pdf "a.pdf" 1000; pdf "b.pdf" 2000]).
    + reflexivity.
    + intros f [<- | [<- | []]]; reflexivity.
    + simpl. lia.
Defined.

Lemma NoDup_app_seq (l : list nat) n k :
  NoDup l -> (forall x, In x l -> x < n) -> NoDup (l ++ seq n k).
Proof.
  intros Hl Hlt. induction l as [|x l IH]; simpl.
  - apply seq_NoDup.
  - inversion Hl; subst. constructor.
    + intros H. apply in_app_or in H. destruct H as [H | H]; [contradiction|].
      apply in_seq in H. specialize (Hlt x (or_introl eq_refl)). lia.
    + apply IH; [assumption|]. intros y Hy. apply Hlt. right. exact Hy.
Qed.

(** One submission keeps the file set in order. *)
Lemma processFiles_hook_ok o st incomingFiles :
  hook_ok o st -> hook_ok o (fst (processFiles o st incomingFiles)).
Proof.
  intros (Hlen & Hnd & Hlt).
  destruct incomingFiles as [incoming|]; [|unfold hook_ok; cbn; auto].
  unfold processFiles, scan.
  destruct (scan_ids o (files st) incoming [] [] (next_id st))
    as (more & added & Hf & Hids & Hcap).
  rewrite Hf. simpl app.
  destruct (0 <? length more)%nat.
  - unfold hook_ok. cbn. split; [exact Hlen|]. split; [exact Hnd|].
    intros f H. specialize (Hlt f H). lia.
  - assert (La : length (files st) + length added <= maxFiles o).
    { destruct added as [|a added]; [simpl; lia|].
      assert (X : a :: added <> []) by discriminate.
      specialize (Hcap X). simpl in *. lia. }
    assert (Ha : forall f, In f added -> next_id st <= id f < next_id st + length added).
    { intros f H. apply (in_map id) in H. rewrite Hids in H.
      apply in_seq in H. exact H. }
    unfold hook_ok. destruct (multiple o); cbn.
    + split; [rewrite length_app; exact La|]. split.
      * rewrite map_app, Hids. apply NoDup_app_seq; [exact Hnd|].
        intros x Hx. apply in_map_iff in Hx. destruct Hx as (f & <- & Hf').
        apply Hlt, Hf'.
      * intros f H. apply in_app_or in H. destruct H as [H | H].
        -- specialize (Hlt f H). lia.
        -- apply Ha in H. lia.
    + split; [lia|]. split.
      * rewrite Hids. apply seq_NoDup.
      * intros f H. apply Ha in H. lia.
Qed.

(** Dropping files keeps the identifiers of the others distinct. *)
Lemma kept_ids_distinct (keep : FileWithPreview -> bool) current :
  NoDup (map id current) -> NoDup (map id (filter keep current)).
Proof.
  intros H. induction current as [|x rest IH]; [constructor|].
  simpl in H. inversion H as [|? ? Hx Hrest]; subst.
  simpl. destruct (keep x); [|apply IH, Hrest].
  simpl. constructor; [|apply IH, Hrest].
  intros X. apply Hx. apply in_map_iff in X. destruct X as (y & E & Hy).
  apply filter_In in Hy. rewrite <- E. apply in_map, Hy.
Qed.

Lemma removeFile_hook_ok o st fileId :
  hook_ok o st -> hook_ok o (fst (removeFile fileId st)).
Proof.
  intros (Hlen & Hnd & Hlt). unfold hook_ok, removeFile. cbn.
  split; [|split].
  - etransitivity; [apply filter_length_le | exact Hlen].
  - apply kept_ids_distinct, Hnd.
  - intros f H. apply filter_In in H. apply Hlt, H.
Qed.

(** X14: whatever files are submitted and removed, in any order, the hook
    never holds more than [maxFiles] files. *)
Theorem hook_never_exceeds_maxFiles o es :
  length (files (hook_run o es)) <= maxFiles o.
Proof.
  assert (G : forall st, hook_ok o st -> hook_ok o (fold_left (hook_step o) es st)).
  { induction es as [|e es IH]; intros st H; [exact H|].
    simpl. apply IH. destruct e as [incomingFiles | fileId |]; simpl.
    - apply processFiles_hook_ok, H.
    - apply removeFile_hook_ok, H.
    - unfold hook_ok, clearFiles. cbn.
      split; [lia|]. split; [constructor|]. intros f []. }
  unfold hook_run. apply G. unfold hook_ok. cbn.
  split; [lia|]. split; [constructor|]. intros f [].
Qed.

(** X15: the upload dialog accepts a file exactly when fewer than three files
    are held, the file has at most 512000 bytes and its type is exactly
    "application/pdf"; the name of the file plays no part. *)
Theorem dialog_accepts_exactly count f :
  check options count f = None
  <-> count < 3 /\ (file_size f <= 512000)%Z
      /\ file_type f = "application/pdf".
Proof.
  unfold check.
  change (maxFiles options) with 3. change (maxSize options) with 512000%Z.
  change (accept options) with "application/pdf".
  assert (T : type_accepted "application/pdf" f
              = (file_type f =? "application/pdf")).
  { unfold type_accepted. simpl. apply orb_false_r. }
  rewrite T.
  destruct (3 <=? count)%nat eqn:E1.
  { apply Nat.leb_le in E1. split; [discriminate | lia]. }
  apply Nat.leb_gt in E1.
  destruct (512000 <? file_size f)%Z eqn:E2.
  { apply Z.ltb_lt in E2. split; [discriminate | lia]. }
  apply Z.ltb_ge in E2. simpl.
  destruct (file_type f =? "application/pdf") eqn:E3; simpl.
  - apply String.eqb_eq in E3. split; auto.
  - apply String.eqb_neq in E3. split; [discriminate|]. intros (_ & _ & H).
    contradiction.
Qed.

End IntakeTheorems.

(** ** Intake: the entries of the accepted types *)

Section TypeRule.
Import JS Text UseFileUpload.

Lemma split_without_sep sep s :
  all_chars (other_than sep) s = true -> split sep s = [s].
Proof.
  induction s as [|x s IH]; intros H; [reflexivity|].
  simpl in H. apply andb_true_iff in H. destruct H as [Hx Hs].
  simpl. unfold other_than in Hx. apply negb_true_iff in Hx. rewrite Hx.
  rewrite (IH Hs). reflexivity.
Qed.

Lemma substring_append_right (a b : string) :
  substring (String.length a) (String.length b) (a ++ b) = b.
Proof.
  induction a as [|x a IH]; simpl; [|exact IH].
  induction b as [|y b IHb]; simpl; [reflexivity | rewrite IHb; reflexivity].
Qed.

Lemma trim_clean_black_end w x :
  clean_start (w ++ String x "") -> is_white_space x = false ->
  trim (w ++ String x "") = w ++ String x "".
Proof.
  intros Hc Hx. unfold trim.
  rewrite trimStart_of_clean by exact Hc. apply trimEnd_black_end, Hx.
Qed.

Lemma clean_start_append a b :
  clean_start a -> a <> "" -> clean_start (a ++ b).
Proof. destruct a; simpl; [contradiction | auto]. Qed.

(** X16: an entry [p/*] of the accepted types admits a file exactly when its
    type begins with [p]; the slash is not part of the test. *)
Theorem wildcard_entry p f :
  all_chars (other_than ",") p = true ->
  clean_start p ->
  startsWith "." p = false ->
  type_accepted (p ++ "/*") f = startsWith p (file_type f).
Proof.
  intros Hcomma Hclean Hdot. unfold type_accepted. cbv zeta.
  assert (Es : split "," (p ++ "/*") = [p ++ "/*"]).
  { apply split_without_sep. rewrite all_chars_append, Hcomma. reflexivity. }
  assert (Et : trim (p ++ "/*") = p ++ "/*").
  { replace (p ++ "/*") with ((p ++ "/") ++ "*")
      by (rewrite append_assoc_string; reflexivity).
    apply trim_clean_black_end; [|reflexivity].
    rewrite append_assoc_string.
    destruct p as [|x p]; [reflexivity | exact Hclean]. }
  assert (Ed : startsWith "." (p ++ "/*") = false).
  { destruct p as [|x p]; [reflexivity|].
    unfold startsWith in *.
    change (prefix "." (String x p ++ "/*"))
      with (if ascii_dec "." x then prefix "" (p ++ "/*") else false).
    change (prefix "." (String x p))
      with (if ascii_dec "." x then prefix "" p else false) in Hdot.
    destruct (ascii_dec "." x); [|reflexivity].
    destruct p; discriminate. }
  assert (Ee : endsWith "/*" (p ++ "/*") = true).
  { unfold endsWith. rewrite length_append_string. simpl String.length.
    replace (String.length p + 2 - 2) with (String.length p) by lia.
    pose proof (substring_append_right p "/*") as X. simpl String.length in X.
    rewrite X.
    replace (2 <=? String.length p + 2)%nat with true
      by (symmetry; apply Nat.leb_le; lia).
    reflexivity. }
  assert (Ex : dropEnd 2 (p ++ "/*") = p).
  { unfold dropEnd. rewrite length_append_string. simpl String.length.
    replace (String.length p + 2 - 2) with (String.length p) by lia.
    apply substring_append_left. }
  rewrite Es. cbn [map]. rewrite Et. cbn [existsb].
  rewrite Ed, Ee, Ex. apply orb_false_r.
Qed.

Lemma wildcard_entry_witness :
  let f := {| file_name := "notes.txt"; file_size := 10;
              file_type := "imagery/raw"; instanceofFile := true |} in
  type_accepted "image/*" f = true.
Proof.
  intros f. change (type_accepted ("image" ++ "/*") f = true).
  rewrite (wildcard_entry "image" f); reflexivity.
Defined.

Lemma lower_not_capital c : capital (lower c) = false.
Proof.
  destruct c as [[] [] [] [] [] [] [] []]; vm_compute; reflexivity.
Qed.

Lemma toLowerCase_no_capital s :
  all_chars (fun c => negb (capital c)) (toLowerCase s) = true.
Proof.
  induction s as [|x s IH]; simpl; [reflexivity|].
  rewrite lower_not_capital, IH. reflexivity.
Qed.

(** X17: an accepted-types text that is one extension entry with a capital
    letter in it admits no file: only the extension of the file is put in
    lower case, not the entry. *)
Theorem capital_extension_entry_admits_nothing entry f :
  all_chars (other_than ",") entry = true ->
  trimmed entry ->
  startsWith "." entry = true ->
  all_chars (fun c => negb (capital c)) entry = false ->
  type_accepted entry f = false.
Proof.
  intros Hcomma Htrim Hdot Hcap. unfold type_accepted. cbv zeta.
  rewrite (split_without_sep _ _ Hcomma). cbn [map]. rewrite Htrim.
  cbn [existsb]. rewrite Hdot, orb_false_r.
  apply String.eqb_neq. intros E. rewrite <- E in Hcap.
  change ("." ++ toLowerCase (pop (split "." (file_name f))))
    with (String "." (toLowerCase (pop (split "." (file_name f))))) in Hcap.
  simpl in Hcap. rewrite toLowerCase_no_capital in Hcap. discriminate.
Qed.

Lemma capital_extension_entry_admits_nothing_witness :
  type_accepted ".PDF"
    {| file_name := "cv.PDF"; file_size := 10;
       file_type := "application/pdf"; instanceofFile := true |} = false.
Proof.
  apply (capital_extension_entry_admits_nothing ".PDF"); reflexivity.
Defined.

Lemma last_cons_nonempty (x : string) l d : l <> [] -> last (x :: l) d = last l d.
Proof. destruct l; [contradiction | reflexivity]. Qed.

Lemma split_with_sep_length sep base ext :
  2 <= length (split sep (base ++ String sep ext)).
Proof.
  induction base as [|x base IH].
  - simpl. rewrite Ascii.eqb_refl. simpl.
    pose proof (split_nonempty sep ext).
    destruct (split sep ext); [contradiction | simpl; lia].
  - change (String x base ++ String sep ext)
      with (String x (base ++ String sep ext)).
    simpl split. destruct (x =? sep)%char; [simpl; lia|].
    destruct (split sep (base ++ String sep ext)); simpl in *; lia.
Qed.

Lemma pop_split_extension sep base ext :
  all_chars (other_than sep) ext = true ->
  pop (split sep (base ++ String sep ext)) = ext.
Proof.
  intros H. unfold pop. induction base as [|x base IH].
  - simpl. rewrite Ascii.eqb_refl.
    rewrite (split_without_sep _ _ H). reflexivity.
  - change (String x base ++ String sep ext)
      with (String x (base ++ String sep ext)).
    simpl split.
    pose proof (split_with_sep_length sep base ext) as Hn.
    destruct (split sep (base ++ String sep ext)) as [|h [|h' t]];
      simpl in Hn; try lia.
    destruct (x =? sep)%char; exact IH.
Qed.

(** X18: an entry that is an extension in lower case admits every file whose
    name ends with a dot and that extension in any mix of cases, whatever
    the type of the file. *)
Theorem extension_entry_ignores_case ext f base tail :
  all_chars (other_than ",") ext = true ->
  trimmed (String "." ext) ->
  file_name f = base ++ String "." tail ->
  all_chars (other_than ".") tail = true ->
  toLowerCase tail = ext ->
  type_accepted (String "." ext) f = true.
Proof.
  intros Hcomma Htrim Hname Htail Hlow. unfold type_accepted. cbv zeta.
  rewrite (split_without_sep "," (String "." ext))
    by (simpl; rewrite Hcomma; reflexivity).
  cbn [map]. rewrite Htrim. cbn [existsb]. rewrite orb_false_r.
  replace (startsWith "." (String "." ext)) with true
    by (symmetry; apply prefix_correct; destruct ext; reflexivity).
  rewrite Hname, (pop_split_extension "." base tail Htail), Hlow.
  change ("." ++ ext) with (String "." ext).
  rewrite String.eqb_refl. reflexivity.
Qed.

Lemma extension_entry_ignores_case_witness :
  type_accepted ".pdf"
    {| file_name := "Jane.Roe.PDF"; file_size := 10; file_type := "";
       instanceofFile := true |} = true.
Proof.
  apply (extension_entry_ignores_case "pdf" _ "Jane.Roe" "PDF"); reflexivity.
Defined.

End TypeRule.

(** ** The tracker: what [handleUpload] keeps *)

Section TrackerMore.
Import UseFileUpload UploadResume Invariant Examples.

Lemma mark_uploading_ids ids prev :
  map item_id (mark_uploading ids prev) = map item_id prev
  /\ map item_file (mark_uploading ids prev) = map item_file prev.
Proof.
  unfold mark_uploading. rewrite !map_map. split; apply map_ext; intros item;
    destruct (includes_id ids (item_id item)); reflexivity.
Qed.

Lemma mark_error_ids ids message prev :
  map item_id (mark_error ids message prev) = map item_id prev
  /\ map item_file (mark_error ids message prev) = map item_file prev.
Proof.
  unfold mark_error. rewrite !map_map. split; apply map_ext; intros item;
    destruct (includes_id ids (item_id item)); reflexivity.
Qed.

Lemma apply_results_ids results prev :
  map item_id (apply_results results prev) = map item_id prev
  /\ map item_file (apply_results results prev) = map item_file prev.
Proof.
  unfold apply_results. rewrite !map_map. split; apply map_ext; intros item;
    destruct (find _ results); reflexivity.
Qed.

Lemma handleUpload_begin_ids batch prev :
  map item_id (handleUpload_begin batch prev) = map item_id prev
  /\ map item_file (handleUpload_begin batch prev) = map item_file prev.
Proof.
  destruct batch; [split; reflexivity | apply mark_uploading_ids].
Qed.

Lemma handleUpload_settle_ids batch out prev :
  map item_id (fst (handleUpload_settle batch out prev)) = map item_id prev
  /\ map item_file (fst (handleUpload_settle batch out prev)) = map item_file prev.
Proof.
  destruct batch; [split; reflexivity|].
  destruct out; [apply apply_results_ids | apply mark_error_ids].
Qed.

(** X19: [handleUpload] never adds, removes or reorders items and never
    changes the identifier or the file of an item, whatever the batch and
    the outcome of the request; with an empty batch it changes nothing and
    calls nothing. *)
Theorem handleUpload_keeps_items batch out prev :
  map item_id (fst (handleUpload batch out prev)) = map item_id prev
  /\ map item_file (fst (handleUpload batch out prev)) = map item_file prev
  /\ length (fst (handleUpload batch out prev)) = length prev
  /\ (batch = [] -> handleUpload batch out prev = (prev, [])).
Proof.
  unfold handleUpload.
  destruct (handleUpload_settle_ids batch out (handleUpload_begin batch prev))
    as [H1 H2].
  destruct (handleUpload_begin_ids batch prev) as [H3 H4].
  split; [congruence|]. split; [congruence|]. split.
  - rewrite <- (length_map item_id), H1, H3. apply length_map.
  - intros ->. reflexivity.
Qed.

(** X20: after a reply the callbacks are one of: none, [onSuccess],
    [onError], [onSuccess] then [onError]; an empty result list gives
    [onError] with "All uploads failed."; results whose status is neither
    "ok" nor "error" give no callback. *)
Theorem notify_shapes results :
  (exists message,
      notify results = [] \/ notify results = [onSuccess]
      \/ notify results = [onError message]
      \/ notify results = [onSuccess; onError message])
  /\ (results = [] -> notify results = [onError "All uploads failed."])
  /\ (results <> [] ->
      (forall r, In r results ->
                 result_status r <> "ok" /\ result_status r <> "error") ->
      notify results = []).
Proof.
  split; [|split].
  - unfold notify.
    destruct (existsb (fun r => result_status r =? "ok") results);
      destruct (forallb (fun r => result_status r =? "error") results);
      try destruct (existsb (fun r => result_status r =? "error") results);
      simpl;
      first [ exists ""; solve [auto]
            | eexists; right; right; left; reflexivity
            | eexists; right; right; right; reflexivity ].
  - intros ->. reflexivity.
  - intros Hne H. unfold notify.
    assert (E1 : existsb (fun r => result_status r =? "ok") results = false).
    { apply not_true_is_false. intros E. apply existsb_exists in E.
      destruct E as (r & Hr & E). apply String.eqb_eq in E.
      apply (proj1 (H r Hr)). exact E. }
    assert (E2 : existsb (fun r => result_status r =? "error") results = false).
    { apply not_true_is_false. intros E. apply existsb_exists in E.
      destruct E as (r & Hr & E). apply String.eqb_eq in E.
      apply (proj2 (H r Hr)). exact E. }
    assert (E3 : forallb (fun r => result_status r =? "error") results = false).
    { destruct results as [|r results]; [contradiction|].
      simpl. destruct (result_status r =? "error") eqn:E; [|reflexivity].
      apply String.eqb_eq in E. exfalso.
      apply (proj2 (H r (or_introl eq_refl))). exact E. }
    rewrite E1, E2, E3. reflexivity.
Qed.

Lemma notify_shapes_witness :
  let results := [{| result_status := "skipped"; filename := "a.pdf";
                     detail := None |}] in
  results <> [] /\ notify results = [].
Proof.
  split; [discriminate|].
  apply (notify_shapes
           [{| result_status := "skipped"; filename := "a.pdf";
               detail := None |}]); [discriminate|].
  intros r [<- | []]. split; discriminate.
Defined.

Lemma find_first_match (results before after : list UploadResult) r n :
  results = (before ++ r :: after)%list ->
  (forall r', In r' before -> filename r' <> n) ->
  filename r = n ->
  find (fun r => filename r =? n) results = Some r.
Proof.
  intros -> Hb Hr. induction before as [|b before IH]; simpl.
  - rewrite Hr, String.eqb_refl. reflexivity.
  - destruct (filename b =? n) eqn:E.
    + apply String.eqb_eq in E. exfalso.
      apply (Hb b); [left; reflexivity | exact E].
    + apply IH. intros r' Hr'. apply Hb. right. exact Hr'.
Qed.

(** X21: reply processing gives an item the outcome of the first result that
    carries its file name: status [Completed] when that result says "ok",
    [Error] for every other status text, and as [error] the detail of that
    result, also when the status is "ok". *)
Theorem reply_first_match results before r after prev i item :
  results = (before ++ r :: after)%list ->
  (forall r', In r' before -> filename r' <> file_name (item_file item)) ->
  filename r = file_name (item_file item) ->
  nth_error prev i = Some item ->
  nth_error (apply_results results prev) i
  = Some {| item_id := item_id item; item_file := item_file item;
            status := if result_status r =? "ok" then Completed else Error;
            error := detail r |}.
Proof.
  intros Hres Hb Hr Hi. unfold apply_results.
  rewrite nth_error_map, Hi. simpl.
  rewrite (find_first_match results before after r _ Hres Hb Hr). reflexivity.
Qed.

Lemma reply_first_match_witness :
  let item := {| item_id := 0; item_file := pdf "cv.pdf" 1000;
                 status := Uploading; error := None |} in
  let first := {| result_status := "ok"; filename := "cv.pdf";
                  detail := Some "stored as duplicate" |} in
  nth_error (apply_results [first; failed "cv.pdf" "unreadable"] [item]) 0
  = Some {| item_id := 0; item_file := pdf "cv.pdf" 1000;
            status := Completed; error := Some "stored as duplicate" |}.
Proof.
  intros item first.
  exact (reply_first_match [first; failed "cv.pdf" "unreadable"] [] first
           [failed "cv.pdf" "unreadable"] [item] 0 item eq_refl
           (fun r' (H : In r' []) => match H with end) eq_refl eq_refl).
Defined.

End TrackerMore.

(** ** The tracker: reachable states *)

Section TrackerInvariant.
Import UseFileUpload UploadResume Invariant Examples.

Lemma processFiles_callback o st incomingFiles h updatedFiles :
  processFiles o st incomingFiles = (h, Some updatedFiles) ->
  updatedFiles = files h.
Proof.
  unfold processFiles. destruct incomingFiles as [incoming|]; [|discriminate].
  destruct (scan o st incoming) as [[newErrors newFiles] n].
  destruct (0 <? length newErrors)%nat; [discriminate|].
  intros H. injection H as <- <-. reflexivity.
Qed.

Lemma newUploadItems_ids u :
  map item_id (newUploadItems u)
  = map id (filter (fun f => instanceofFile (file f)) u).
Proof. unfold newUploadItems. rewrite map_map. reflexivity. Qed.

Lemma batch_of_ids items : map fst (batch_of items) = map item_id items.
Proof. unfold batch_of. rewrite map_map. reflexivity. Qed.

Lemma includes_id_self ids i : In i ids -> includes_id ids i = true.
Proof. intros H. apply includes_id_In, H. Qed.

Lemma begin_not_pending batch items item :
  (forall it, In it items -> status it <> Pending \/ In (item_id it) (map fst batch)) ->
  In item (handleUpload_begin batch items) -> status item <> Pending.
Proof.
  intros H Hin. destruct batch as [|b batch].
  - simpl in Hin. destruct (H item Hin) as [E | []]. exact E.
  - unfold handleUpload_begin, mark_uploading in Hin.
    apply in_map_iff in Hin. destruct Hin as (it & <- & Hit).
    destruct (includes_id (map fst (b :: batch)) (item_id it)) eqn:E.
    + discriminate.
    + destruct (H it Hit) as [X | X]; [exact X|].
      apply includes_id_self in X. congruence.
Qed.

Lemma settle_not_pending batch out items item :
  (forall it, In it items -> status it <> Pending) ->
  In item (fst (handleUpload_settle batch out items)) -> status item <> Pending.
Proof.
  intros H Hin. destruct batch as [|b batch]; [apply H, Hin|].
  destruct out as [results | err]; simpl in Hin.
  - unfold apply_results in Hin. apply in_map_iff in Hin.
    destruct Hin as (it & <- & Hit).
    destruct (find _ results) as [r|]; [|apply H, Hit].
    simpl. destruct (result_status r =? "ok"); discriminate.
  - unfold mark_error in Hin. apply in_map_iff in Hin.
    destruct Hin as (it & <- & Hit).
    destruct (includes_id _ (item_id it)); [discriminate | apply H, Hit].
Qed.

Lemma initial_ok : tracker_ok initial.
Proof.
  repeat split; simpl; try constructor; try lia; try contradiction.
  intros x [].
Qed.

Lemma step_keeps_ok t e t' calls :
  tracker_ok t -> step t e = Some (t', calls) -> tracker_ok t'.
Proof.
  intros (Hh & Hnd & Hlen & Hp & Hin) Hs.
  destruct e as [incoming | n results | n err | i]; unfold step in Hs.
  - destruct (uploadFiles t) as [|? ?] eqn:Eu; [|discriminate].
    pose proof (processFiles_hook_ok options (hook t) (Some incoming) Hh)
      as Hh'.
    destruct (processFiles options (hook t) (Some incoming)) as [h [u|]] eqn:Ep.
    + apply processFiles_callback in Ep as Eu'. subst u. simpl in Hh'.
      destruct (onFilesChange (files h) []) as [items batch] eqn:Eo.
      cbv beta iota in Hs. injection Hs as <- _.
      unfold onFilesChange in Eo.
      destruct (0 <? length (files h))%nat.
      * injection Eo as <- _. simpl app.
        set (items := newUploadItems (files h)) in *.
        destruct (handleUpload_begin_ids (batch_of items) items) as [E1 _].
        unfold tracker_ok. cbn [hook uploadFiles].
        split; [exact Hh'|]. split; [|split; [|split]].
        -- rewrite E1. unfold items. rewrite newUploadItems_ids.
           apply kept_ids_distinct. apply Hh'.
        -- rewrite <- (length_map item_id), E1, length_map.
           unfold items, newUploadItems. rewrite length_map.
           pose proof (filter_length_le (fun f => instanceofFile (file f)) (files h)).
           destruct Hh' as [L _]. lia.
        -- intros item H. apply (begin_not_pending (batch_of items) items); [|exact H].
           intros it Hit. right. rewrite batch_of_ids.
           apply in_map, Hit.
        -- rewrite E1. unfold items. rewrite newUploadItems_ids.
           intros x Hx. apply in_map_iff in Hx. destruct Hx as (f & <- & Hf).
           apply filter_In in Hf. apply in_map, Hf.
      * injection Eo as <- _. unfold tracker_ok. cbn [hook uploadFiles].
        split; [exact Hh'|]. repeat split; simpl; try constructor; try lia;
          try contradiction. intros x [].
    + injection Hs as <- _. simpl in Hh'. unfold tracker_ok.
      cbn [hook uploadFiles].
      split; [exact Hh'|]. repeat split; simpl; try constructor; try lia;
        try contradiction. intros x [].
  - unfold settle in Hs. destruct (nth_error (inflight t) n) as [batch|];
      [|discriminate].
    destruct (handleUpload_settle batch (Resolved results) (uploadFiles t))
      as [items c] eqn:E.
    injection Hs as <- _.
    destruct (handleUpload_settle_ids batch (Resolved results) (uploadFiles t))
      as [E1 _]. rewrite E in E1. simpl in E1.
    unfold tracker_ok. cbn [hook uploadFiles].
    split; [exact Hh|]. split; [rewrite E1; exact Hnd|].
    split; [rewrite <- (length_map item_id), E1, length_map; exact Hlen|].
    split; [|rewrite E1; exact Hin].
    intros item H.
    apply (settle_not_pending batch (Resolved results) (uploadFiles t)); [exact Hp|].
    rewrite E. exact H.
  - unfold settle in Hs. destruct (nth_error (inflight t) n) as [batch|];
      [|discriminate].
    destruct (handleUpload_settle batch (Rejected err) (uploadFiles t))
      as [items c] eqn:E.
    injection Hs as <- _.
    destruct (handleUpload_settle_ids batch (Rejected err) (uploadFiles t))
      as [E1 _]. rewrite E in E1. simpl in E1.
    unfold tracker_ok. cbn [hook uploadFiles].
    split; [exact Hh|]. split; [rewrite E1; exact Hnd|].
    split; [rewrite <- (length_map item_id), E1, length_map; exact Hlen|].
    split; [|rewrite E1; exact Hin].
    intros item H.
    apply (settle_not_pending batch (Rejected err) (uploadFiles t)); [exact Hp|].
    rewrite E. exact H.
  - destruct (nth_error (uploadFiles t) i) as [uploadFile|]; [|discriminate].
    destruct (status uploadFile); try discriminate.
    destruct (retryUpload uploadFile) as [batch|]; [|discriminate].
    injection Hs as <- _.
    destruct (handleUpload_begin_ids batch (uploadFiles t)) as [E1 _].
    unfold tracker_ok. cbn [hook uploadFiles].
    split; [exact Hh|]. split; [rewrite E1; exact Hnd|].
    split; [rewrite <- (length_map item_id), E1, length_map; exact Hlen|].
    split; [|rewrite E1; exact Hin].
    intros item H. apply (begin_not_pending batch (uploadFiles t)); [|exact H].
    intros it Hit. left. apply Hp, Hit.
Qed.

Lemma run_keeps_ok es : forall t t',
  tracker_ok t -> run t es = Some t' -> tracker_ok t'.
Proof.
  induction es as [|e es IH]; intros t t' Hok Hr; simpl in Hr.
  - injection Hr as <-. exact Hok.
  - destruct (step t e) as [[t1 calls]|] eqn:Es; [|discriminate].
    apply (IH t1 t'); [|exact Hr]. apply (step_keeps_ok t e t1 calls Hok Es).
Qed.

(** X22: in every state that the tracker reaches by intakes, replies,
    failures and retries there are at most three items, every item belongs
    to a file held by the hook, and no item is in status [Pending]. *)
Theorem reachable_tracker_ok t :
  reachable t ->
  length (uploadFiles t) <= 3
  /\ incl (map item_id (uploadFiles t)) (map id (files (hook t)))
  /\ (forall item, In item (uploadFiles t) -> status item <> Pending).
Proof.
  intros (es & Hr).
  destruct (run_keeps_ok es initial t initial_ok Hr) as (_ & _ & H2 & H3 & H4).
  auto.
Qed.

Lemma reachable_tracker_ok_witness :
  exists t,
    run initial namesakes_failed = Some t
    /\ length (uploadFiles t) <= 3
    /\ (forall item, In item (uploadFiles t) -> status item <> Pending).
Proof.
  destruct (run initial namesakes_failed) as [t|] eqn:E; [|discriminate].
  exists t. split; [reflexivity|].
  destruct (reachable_tracker_ok t) as (H1 & _ & H3).
  - exists namesakes_failed. exact E.
  - auto.
Defined.

End TrackerInvariant.

(** ** Removing an item *)

Section RemovalFacts.
Import UseFileUpload UploadResume Invariant Removal Examples.

Lemma filter_map_commute {A B} (g : A -> B) (p : B -> bool) l :
  filter p (map g l) = map g (filter (fun x => p (g x)) l).
Proof.
  induction l as [|x l IH]; simpl; [reflexivity|].
  rewrite IH. destruct (p (g x)); reflexivity.
Qed.

Lemma drop_item_begin i batch items :
  drop_item i (handleUpload_begin batch items)
  = handleUpload_begin batch (drop_item i items).
Proof.
  destruct batch as [|b batch]; [reflexivity|].
  unfold handleUpload_begin, mark_uploading, drop_item.
  rewrite filter_map_commute. f_equal. apply filter_ext. intros item.
  destruct (includes_id _ (item_id item)); reflexivity.
Qed.

Lemma drop_item_absent i items :
  ~ In i (map item_id items) -> drop_item i items = items.
Proof.
  intros H. unfold drop_item. induction items as [|x items IH]; [reflexivity|].
  simpl in *. destruct (item_id x =? i)%nat eqn:E.
  - apply Nat.eqb_eq in E. exfalso. apply H. left. exact E.
  - simpl. f_equal. apply IH. intros Hin. apply H. right. exact Hin.
Qed.

Lemma removed_id_absent i (l : list FileWithPreview) :
  ~ In i (map id (filter (fun f => negb (id f =? i)%nat) l)).
Proof.
  intros H. apply in_map_iff in H. destruct H as (f & E & Hf).
  apply filter_In in Hf. destruct Hf as [_ Hf].
  rewrite E, Nat.eqb_refl in Hf. discriminate.
Qed.

Lemma newUploadItems_subset u x :
  In x (map item_id (newUploadItems u)) -> In x (map id u).
Proof.
  rewrite newUploadItems_ids. intros H. apply in_map_iff in H.
  destruct H as (f & <- & Hf). apply filter_In in Hf. apply in_map, Hf.
Qed.

(** The two orders in which the updaters of a removal can be queued give
    the same tracker. *)
Lemma removeUploadFile_order i t :
  removeUploadFile i t = removeUploadFile_filter_first i t.
Proof.
  unfold removeUploadFile, removeUploadFile_filter_first, removeFile.
  cbv beta iota zeta.
  set (u := filter (fun f => negb (id f =? i)%nat) (files (hook t))).
  unfold onFilesChange.
  destruct (0 <? length u)%nat; [|reflexivity].
  cbv beta iota zeta. f_equal.
  rewrite drop_item_begin. f_equal.
  unfold drop_item at 1. rewrite filter_app. f_equal.
  apply drop_item_absent. intros H. apply newUploadItems_subset in H.
  apply (removed_id_absent i (files (hook t))). exact H.
Qed.

Lemma all_real_newUploadItems u :
  forallb (fun f => instanceofFile (file f)) u = true ->
  map item_id (newUploadItems u) = map id u
  /\ batch_of (newUploadItems u) = map (fun f => (id f, file f)) u.
Proof.
  intros H. unfold batch_of, newUploadItems.
  assert (E : filter (fun f => instanceofFile (file f)) u = u).
  { induction u as [|x u IH]; [reflexivity|]. simpl in *.
    apply andb_true_iff in H. destruct H as [Hx Hu].
    rewrite Hx, (IH Hu). reflexivity. }
  rewrite E, !map_map. split; reflexivity.
Qed.

Lemma forallb_filter {A} (p q : A -> bool) l :
  forallb p l = true -> forallb p (filter q l) = true.
Proof.
  induction l as [|x l IH]; simpl; [reflexivity|]. intros H.
  apply andb_true_iff in H. destruct H as [Hx Hl].
  destruct (q x); simpl; [rewrite Hx|]; auto.
Qed.

(** X23: when the items mirror the files of the hook, removing one item from
    the list files every remaining file a second time and uploads it again:
    after [removeUploadFile] each remaining identifier is listed twice,
    every item is in status [Uploading] without an error, whatever it was
    before, and one more request with all remaining files is awaited; only
    when no file remains is the list empty and no request sent. *)
Theorem removeUploadFile_uploads_again i t :
  mirrors t ->
  let remaining := filter (fun f => negb (id f =? i)%nat) (files (hook t)) in
  let t' := removeUploadFile i t in
  files (hook t') = remaining
  /\ map item_id (uploadFiles t')
     = (map id remaining ++ map id remaining)%list
  /\ (forall item, In item (uploadFiles t') ->
        status item = Uploading /\ error item = None)
  /\ inflight t'
     = match remaining with
       | [] => inflight t
       | _ => (inflight t ++ [map (fun f => (id f, file f)) remaining])%list
       end.
Proof.
  intros (Mid & Mfile & Mreal) remaining t'. subst t'.
  rewrite removeUploadFile_order.
  unfold removeUploadFile_filter_first, removeFile. cbv beta iota zeta.
  fold remaining.
  assert (Ed : map item_id (drop_item i (uploadFiles t)) = map id remaining).
  { unfold drop_item, remaining.
    rewrite <- (filter_map_commute id (fun x => negb (x =? i)%nat)).
    rewrite <- Mid. symmetry.
    apply (filter_map_commute item_id (fun x => negb (x =? i)%nat)). }
  assert (Hreal : forallb (fun f => instanceofFile (file f)) remaining = true)
    by (apply forallb_filter, Mreal).
  destruct (all_real_newUploadItems remaining Hreal) as [En Eb].
  unfold onFilesChange. rewrite Eb.
  destruct remaining as [|f rest] eqn:Er.
  - simpl. split; [reflexivity|]. split; [|split; [|reflexivity]].
    + rewrite Ed. reflexivity.
    + intros item H. exfalso.
      apply (in_map item_id) in H. rewrite Ed in H. contradiction.
  - cbn [length Nat.ltb Nat.leb]. cbv beta iota zeta. cbn [hook uploadFiles inflight].
    set (batch := map (fun f => (id f, file f)) (f :: rest)) in *.
    destruct (handleUpload_begin_ids batch
                (drop_item i (uploadFiles t) ++ newUploadItems (f :: rest)))
      as [E1 _].
    split; [reflexivity|]. split; [|split].
    + rewrite E1, map_app, Ed, En. reflexivity.
    + intros item H. unfold batch in H. cbn [map handleUpload_begin] in H.
      unfold mark_uploading in H. apply in_map_iff in H.
      destruct H as (it & <- & Hit).
      assert (X : In (item_id it) (map id (f :: rest))).
      { apply in_app_or in Hit. destruct Hit as [Hit | Hit].
        - rewrite <- Ed. apply in_map, Hit.
        - rewrite <- En. apply in_map, Hit. }
      assert (Y : includes_id
                    (fst (id f, file f)
                     :: map fst (map (fun f => (id f, file f)) rest))
                    (item_id it) = true).
      { apply includes_id_In.
        change (In (item_id it)
                   (map fst (map (fun f => (id f, file f)) (f :: rest)))).
        rewrite map_map. exact X. }
      rewrite Y. split; reflexivity.
    + reflexivity.
Qed.

(** The state of the tracker after two files were dropped and uploaded. *)
Lemma mirrors_after_intake :
  exists t,
    run initial [Intake [pdf "a.pdf" 1000; pdf "b.pdf" 2000];
                 Reply 0 [ok "a.pdf"; ok "b.pdf"]] = Some t
    /\ mirrors t
    /\ map status (uploadFiles t) = [Completed; Completed].
Proof.
  eexists. split; [vm_compute; reflexivity|].
  split; [|reflexivity]. repeat split.
Qed.

Lemma removeUploadFile_uploads_again_witness :
  let t := {| hook := {| files := with_ids 0 [pdf "a.pdf" 1000; pdf "b.pdf" 2000];
                         errors := []; next_id := 2 |};
              uploadFiles :=
                [{| item_id := 0; item_file := pdf "a.pdf" 1000;
                    status := Completed; error := None |};
                 {| item_id := 1; item_file := pdf "b.pdf" 2000;
                    status := Completed; error := None |}];
              inflight := [] |} in
  mirrors t
  /\ map item_id (uploadFiles (removeUploadFile 0 t)) = [1; 1]
  /\ map status (uploadFiles (removeUploadFile 0 t)) = [Uploading; Uploading].
Proof.
  intros t.
  assert (M : mirrors t) by (repeat split).
  split; [exact M|].
  destruct (removeUploadFile_uploads_again 0 t M) as (_ & H & _).
  split; [exact H | reflexivity].
Defined.

End RemovalFacts.
